(** * bloomd networking core: circular buffers, write path and worker loop

    A shallow embedding of [src/bloomd/networking.c] (and of the older
    worker loop kept in the repository beside it) together with the
    properties stated about them.

    Conventions.
    - C integers are [Z]; every place where C converts between [int],
      [uint32_t] and [uint64_t] is written with [to_int], [to_u32],
      [to_u64], which wrap the way two's complement conversions do.
    - A [char*] into a ring is the list of bytes of the allocation plus an
      offset; [NULL] is [None].
    - Calls that leave the process (locks, libev, system calls) are
      appended to a chronological [trace] carried by the networking
      context; what the kernel answers to [writev], [readv] and [accept]
      is an argument of the function that makes the call. *)

From Stdlib Require Import ZArith Lia.
From Stdlib.Strings Require Import Byte.
From stdpp Require Import base tactics option list numbers.

Local Open Scope Z_scope.

#[global] Instance byte_eq_dec : EqDecision byte := Byte.byte_eq_dec.

(** ** Machine integers *)

Definition to_u32 (z : Z) : Z := z mod 2 ^ 32.
Definition to_u64 (z : Z) : Z := z mod 2 ^ 64.
Definition to_int (z : Z) : Z := (z + 2 ^ 31) mod 2 ^ 32 - 2 ^ 31.
Definition INT_MAX : Z := 2 ^ 31 - 1.

(** ** Memory primitives *)

(** [malloc n]: a fresh allocation of [n] bytes.  C leaves its contents
    unspecified; the model fills it with zero bytes. *)
Definition malloc (n : Z) : list byte := replicate (Z.to_nat n) x00.

(** [mem_read mem off n]: the [n] bytes of [mem] from offset [off]. *)
Definition mem_read (mem : list byte) (off n : Z) : list byte :=
  take (Z.to_nat n) (drop (Z.to_nat off) mem).

(** [memcpy dst off src n]: store the first [n] bytes of [src] at
    [dst + off].  Stores past the end of the allocation are undefined in C
    and dropped here. *)
Definition memcpy (dst : list byte) (off : Z) (src : list byte) (n : Z)
  : list byte :=
  list_inserts (Z.to_nat off) (take (Z.to_nat n) src) dst.

(** [memchr mem off c n]: offset (from the start of [mem]) of the first
    byte equal to [c] among the [n] bytes at [mem + off]; [None] is the
    null pointer. *)
Definition memchr (mem : list byte) (off : Z) (c : byte) (n : Z) : option Z :=
  (λ hit, off + Z.of_nat hit.1) <$> list_find (λ b, b = c) (mem_read mem off n).

(** ** Circular buffer *)

Definition INIT_CONN_BUF_SIZE : Z := 4096.
Definition CONN_BUF_MULTIPLIER : Z := 8.

Record circular_buffer := mk_circbuf {
  write_cursor : Z;            (* int *)
  read_cursor : Z;             (* int *)
  buf_size : Z;                (* uint32_t *)
  buffer : option (list byte)  (* char*; None is NULL *)
}.

#[global] Instance circular_buffer_eq_dec : EqDecision circular_buffer.
Proof. solve_decision. Defined.

(** The bytes of the allocation behind [buf->buffer] (none for NULL). *)
Definition buf_mem (buf : circular_buffer) : list byte :=
  default [] (buffer buf).

(** What [calloc] leaves in a [circular_buffer]. *)
Definition zeroed_circbuf : circular_buffer := mk_circbuf 0 0 0 None.

Definition circbuf_alloc (buf : circular_buffer) : circular_buffer :=
  let size := to_u32 (INIT_CONN_BUF_SIZE * 1) in
  mk_circbuf (write_cursor buf) (read_cursor buf) size (Some (malloc size)).

Definition init_circular_buffer (buf : circular_buffer) : circular_buffer :=
  let buf := mk_circbuf 0 0 (buf_size buf) (buffer buf) in
  match buffer buf with
  | None => circbuf_alloc buf
  | Some _ => buf
  end.

Definition circbuf_reset (buf : circular_buffer) : circular_buffer :=
  if INIT_CONN_BUF_SIZE <? buf_size buf
  then mk_circbuf 0 0 0 None
  else mk_circbuf 0 0 (buf_size buf) (buffer buf).

Definition circbuf_free (buf : circular_buffer) : circular_buffer :=
  mk_circbuf 0 0 0 None.

Definition circbuf_avail_buf (buf : circular_buffer) : Z :=
  if write_cursor buf <? read_cursor buf
  then to_u64 (to_int (read_cursor buf - write_cursor buf - 1))
  else to_u64 (to_u32 (buf_size buf - write_cursor buf + read_cursor buf - 1)).

Definition circbuf_grow_buf (buf : circular_buffer) : circular_buffer :=
  let new_size := to_int (to_u32 (buf_size buf * CONN_BUF_MULTIPLIER) * 1) in
  let new_buf := malloc new_size in
  let '(new_buf, bytes_written) :=
    if write_cursor buf <? read_cursor buf then
      let bytes_written := to_int (to_u32 (buf_size buf - read_cursor buf)) in
      let new_buf :=
        memcpy new_buf 0
          (drop (Z.to_nat (read_cursor buf)) (buf_mem buf)) bytes_written in
      let new_buf :=
        memcpy new_buf bytes_written (buf_mem buf) (write_cursor buf) in
      (new_buf, to_int (bytes_written + write_cursor buf))
    else
      let bytes_written := to_int (write_cursor buf - read_cursor buf) in
      (memcpy new_buf 0
         (drop (Z.to_nat (read_cursor buf)) (buf_mem buf)) bytes_written,
       bytes_written) in
  mk_circbuf bytes_written 0 (to_u32 new_size) (Some new_buf).

(** An I/O vector over a ring: [iov_base] is the offset of its first byte
    in the ring's allocation. *)
Record iovec := mk_iovec { iov_base : Z; iov_len : Z }.

Definition circbuf_setup_readv_iovec (buf : circular_buffer) : list iovec :=
  if write_cursor buf <? read_cursor buf then
    [mk_iovec (write_cursor buf)
       (to_u64 (to_int (read_cursor buf - write_cursor buf - 1)))]
  else
    let len0 := to_u64 (to_u32 (buf_size buf - write_cursor buf - 1)) in
    if 0 <? read_cursor buf then
      [mk_iovec (write_cursor buf) (to_u64 (len0 + 1));
       mk_iovec 0 (to_u64 (to_int (read_cursor buf - 1)))]
    else [mk_iovec (write_cursor buf) len0].

Definition circbuf_setup_writev_iovec (buf : circular_buffer) : list iovec :=
  if write_cursor buf <? read_cursor buf then
    [mk_iovec (read_cursor buf) (to_u64 (to_u32 (buf_size buf - read_cursor buf)));
     mk_iovec 0 (to_u64 (write_cursor buf))]
  else
    [mk_iovec (read_cursor buf)
       (to_u64 (to_int (write_cursor buf - read_cursor buf)))].

(** [x % buf_size] with [buf_size] zero is undefined in C; [mod] leaves
    [x] as it is there.  The properties below are about rings whose size
    is positive. *)
Definition circbuf_advance_write (buf : circular_buffer) (bytes : Z)
  : circular_buffer :=
  mk_circbuf (to_int (to_u64 (write_cursor buf + bytes) mod buf_size buf))
    (read_cursor buf) (buf_size buf) (buffer buf).

Definition circbuf_advance_read (buf : circular_buffer) (bytes : Z)
  : circular_buffer :=
  let r := to_int (to_u64 (read_cursor buf + bytes) mod buf_size buf) in
  if r =? write_cursor buf
  then mk_circbuf 0 0 (buf_size buf) (buffer buf)
  else mk_circbuf (write_cursor buf) r (buf_size buf) (buffer buf).

(** The [while (avail < bytes)] loop of [circbuf_write].  Every turn
    multiplies the size by eight; once the 32-bit size has wrapped to zero
    a further turn changes nothing, so the loop either ends within the fuel
    below or never does ([None]). *)
Fixpoint circbuf_write_grow (fuel : nat) (buf : circular_buffer) (bytes : Z)
  : option circular_buffer :=
  if circbuf_avail_buf buf <? bytes then
    match fuel with
    | O => None
    | S fuel => circbuf_write_grow fuel (circbuf_grow_buf buf) bytes
    end
  else Some buf.

Definition GROW_FUEL : nat := 16.

#[global] Arguments circbuf_write_grow : simpl never.

Definition with_mem (buf : circular_buffer) (f : list byte → list byte)
  (w : Z) : circular_buffer :=
  mk_circbuf w (read_cursor buf) (buf_size buf) (f <$> buffer buf).

(** [circbuf_write buf in bytes]: the result and the ring afterwards;
    [None] when the growth loop does not end. *)
Definition circbuf_write (buf : circular_buffer) (inp : list byte) (bytes : Z)
  : option (Z * circular_buffer) :=
  buf ← circbuf_write_grow GROW_FUEL buf bytes;
  let w := write_cursor buf in
  Some (0,
    if w <? read_cursor buf then
      with_mem buf (λ m, memcpy m w inp bytes) (to_int (to_u64 (w + bytes)))
    else
      let end_size := to_u64 (to_u32 (buf_size buf - w)) in
      if bytes <=? end_size then
        with_mem buf (λ m, memcpy m w inp bytes) (to_int (to_u64 (w + bytes)))
      else
        with_mem buf
          (λ m, memcpy (memcpy m w inp end_size) 0 inp (to_u64 (bytes - end_size)))
          (to_int (to_u64 (bytes - end_size)))).

(** The bytes an I/O vector list describes, in order. *)
Definition gather (mem : list byte) (vectors : list iovec) : list byte :=
  concat ((λ v, mem_read mem (iov_base v) (iov_len v)) <$> vectors).

(** The readable content of a ring: what [writev] would be handed. *)
Definition readable (buf : circular_buffer) : list byte :=
  gather (buf_mem buf) (circbuf_setup_writev_iovec buf).

(** Logical length: the total length of the [writev] vectors. *)
Definition circbuf_used (buf : circular_buffer) : Z :=
  foldr (λ v acc, iov_len v + acc) 0 (circbuf_setup_writev_iovec buf).

(** ** Networking context *)

(** Names of the locks of the core.  An output lock is named by the
    connection record it lives in. *)
Inductive lock_id :=
| leader_lock
| event_lock
| conns_lock
| output_lock (conn : Z).

(** Names of the [ev_io] objects: the two listeners of the context and
    the read and write watcher of a connection record. *)
Inductive ev_io_ref :=
| tcp_client
| udp_client
| conn_client (conn : Z)
| conn_write_client (conn : Z).

#[global] Instance lock_id_eq_dec : EqDecision lock_id.
Proof. solve_decision. Defined.
#[global] Instance ev_io_ref_eq_dec : EqDecision ev_io_ref.
Proof. solve_decision. Defined.

Definition EV_READ : Z := 1.
Definition EV_WRITE : Z := 2.

(** errno values of the platform headers (Linux, where [EWOULDBLOCK] is
    [EAGAIN]). *)
Definition EINTR : Z := 4.
Definition EAGAIN : Z := 11.
Definition EWOULDBLOCK : Z := 11.

(** What a system call answers: its return value and [errno]. *)
Record sysret := mk_sysret { ret : Z; errno : Z }.

(** Everything the core does to the outside, in program order. *)
Inductive effect :=
| Lock (l : lock_id)
| Unlock (l : lock_id)
| EvIoStart (w : ev_io_ref)
| EvIoStop (w : ev_io_ref)
| EvBreak
| EvAsyncSend
| EvRunOnce
| SysAccept (listen_fd : Z) (r : Z)
| SysReadv (fd : Z) (r : Z)
| SysWritev (fd : Z) (offered : list byte) (r : Z)
| SysClose (fd : Z).

Record ev_io := mk_ev_io {
  fd : Z;
  io_events : Z;
  data : option Z   (* the connection record the watcher belongs to *)
}.

Record conn_info := mk_conn {
  conn_addr : Z;    (* identity of the record: the slot of conns holding it *)
  client : ev_io;
  should_schedule : Z;
  input : circular_buffer;
  use_write_buf : Z;
  write_client : ev_io;
  output : circular_buffer
}.

Inductive ASYNC_EVENT_TYPE := EXIT | SCHEDULE_WATCHER.

Record async_event := mk_async_event {
  event_type : ASYNC_EVENT_TYPE;
  watcher : option ev_io_ref
}.

Record bloom_networking := mk_netconf {
  should_run : Z;
  tcp_listener : ev_io;         (* netconf->tcp_client *)
  udp_listener : ev_io;         (* netconf->udp_client *)
  events : list async_event;    (* head of the list first *)
  num_threads : Z;
  threads : list Z;
  conn_list_size : Z;
  conns : list (option conn_info);
  trace : list effect
}.

Record worker_ev_userdata := mk_userdata {
  ud_watcher : option ev_io_ref;
  ready_events : Z
}.

(** *** Field updates *)

Definition emit (e : effect) (n : bloom_networking) : bloom_networking :=
  mk_netconf (should_run n) (tcp_listener n) (udp_listener n) (events n)
    (num_threads n) (threads n) (conn_list_size n) (conns n) (trace n ++ [e]).

Definition set_should_run (v : Z) (n : bloom_networking) : bloom_networking :=
  mk_netconf v (tcp_listener n) (udp_listener n) (events n)
    (num_threads n) (threads n) (conn_list_size n) (conns n) (trace n).

Definition set_events (v : list async_event) (n : bloom_networking)
  : bloom_networking :=
  mk_netconf (should_run n) (tcp_listener n) (udp_listener n) v
    (num_threads n) (threads n) (conn_list_size n) (conns n) (trace n).

Definition set_threads (k : Z) (v : list Z) (n : bloom_networking)
  : bloom_networking :=
  mk_netconf (should_run n) (tcp_listener n) (udp_listener n) (events n)
    k v (conn_list_size n) (conns n) (trace n).

Definition set_conns (size : Z) (v : list (option conn_info))
  (n : bloom_networking) : bloom_networking :=
  mk_netconf (should_run n) (tcp_listener n) (udp_listener n) (events n)
    (num_threads n) (threads n) size v (trace n).

Definition set_should_schedule (v : Z) (c : conn_info) : conn_info :=
  mk_conn (conn_addr c) (client c) v (input c) (use_write_buf c)
    (write_client c) (output c).

Definition set_input (v : circular_buffer) (c : conn_info) : conn_info :=
  mk_conn (conn_addr c) (client c) (should_schedule c) v (use_write_buf c)
    (write_client c) (output c).

Definition set_output (v : circular_buffer) (c : conn_info) : conn_info :=
  mk_conn (conn_addr c) (client c) (should_schedule c) (input c)
    (use_write_buf c) (write_client c) v.

Definition set_use_write_buf (v : Z) (c : conn_info) : conn_info :=
  mk_conn (conn_addr c) (client c) (should_schedule c) (input c) v
    (write_client c) (output c).

Definition set_watchers (r w : ev_io) (c : conn_info) : conn_info :=
  mk_conn (conn_addr c) r (should_schedule c) (input c) (use_write_buf c)
    w (output c).

(** Writing through a [conn_info*]: the record is the one its slot of
    [conns] points to. *)
Definition store_conn (c : conn_info) (n : bloom_networking)
  : bloom_networking :=
  set_conns (conn_list_size n)
    (<[Z.to_nat (conn_addr c) := Some c]> (conns n)) n.

(** Reading [watcher->data]. *)
Definition watcher_conn (w : ev_io_ref) (n : bloom_networking)
  : option conn_info :=
  match w with
  | conn_client a | conn_write_client a =>
      if 0 <=? a then mjoin (conns n !! Z.to_nat a) else None
  | _ => None
  end.

(** Reading [watcher->fd]. *)
Definition watcher_fd (w : ev_io_ref) (n : bloom_networking) : option Z :=
  match w with
  | tcp_client => Some (fd (tcp_listener n))
  | udp_client => Some (fd (udp_listener n))
  | conn_client _ => (λ c, fd (client c)) <$> watcher_conn w n
  | conn_write_client _ => (λ c, fd (write_client c)) <$> watcher_conn w n
  end.

(** ** Async command queue *)

Definition schedule_async (event_type : ASYNC_EVENT_TYPE)
  (watcher : option ev_io_ref) (netconf : bloom_networking)
  : bloom_networking :=
  let event := mk_async_event event_type watcher in
  let netconf := emit (Lock event_lock) netconf in
  let netconf := set_events (event :: events netconf) netconf in
  let netconf := emit (Unlock event_lock) netconf in
  emit EvAsyncSend netconf.

Definition prepare_event (watcher : ev_io_ref) (revents : Z)
  (data : worker_ev_userdata) (netconf : bloom_networking)
  : worker_ev_userdata * bloom_networking :=
  (mk_userdata (Some watcher) revents, emit (EvIoStop watcher) netconf).

(** The [while (event != NULL)] loop of [handle_async_event]. *)
Fixpoint handle_async_events (l : list async_event) (netconf : bloom_networking)
  : bloom_networking :=
  match l with
  | [] => netconf
  | event :: next =>
      let netconf :=
        match event_type event, watcher event with
        | EXIT, _ => emit EvBreak netconf
        | SCHEDULE_WATCHER, Some w => emit (EvIoStart w) netconf
        | SCHEDULE_WATCHER, None => netconf
        end in
      handle_async_events next netconf
  end.

Definition handle_async_event (netconf : bloom_networking) : bloom_networking :=
  let netconf := emit (Lock event_lock) netconf in
  let netconf := handle_async_events (events netconf) netconf in
  let netconf := set_events [] netconf in
  emit (Unlock event_lock) netconf.

(** ** Connection table *)

(** The [while (new_size <= client_fd) new_size *= 2] loop of
    [get_fd_conn]; [None] when doubling never gets past [client_fd]. *)
Fixpoint double_until (fuel : nat) (new_size client_fd : Z) : option Z :=
  if new_size <=? client_fd then
    match fuel with
    | O => None
    | S fuel => double_until fuel (to_int (new_size * 2)) client_fd
    end
  else Some new_size.

Definition DOUBLE_FUEL : nat := 64.

#[global] Arguments double_until : simpl never.

(** What [calloc(1, sizeof(conn_info))] gives, at the slot it is stored in. *)
Definition zeroed_conn (addr : Z) : conn_info :=
  mk_conn addr (mk_ev_io 0 0 None) 0 zeroed_circbuf 0 (mk_ev_io 0 0 None)
    zeroed_circbuf.

Definition get_fd_conn (client_fd : Z) (netconf : bloom_networking)
  : option (conn_info * bloom_networking) :=
  netconf ←
    (if conn_list_size netconf <=? client_fd then
       let netconf := emit (Lock conns_lock) netconf in
       new_size ← double_until DOUBLE_FUEL
                    (to_int (2 * conn_list_size netconf)) client_fd;
       let new_conns :=
         list_inserts 0
           (take (Z.to_nat (conn_list_size netconf)) (conns netconf))
           (replicate (Z.to_nat new_size) None) in
       let netconf := set_conns new_size new_conns netconf in
       Some (emit (Unlock conns_lock) netconf)
     else Some netconf);
  match mjoin (conns netconf !! Z.to_nat client_fd) with
  | Some conn => Some (conn, netconf)
  | None =>
      let conn := zeroed_conn client_fd in
      Some (conn, store_conn conn netconf)
  end.

(** ** Connections *)

Definition close_client_connection (conn : conn_info)
  (netconf : bloom_networking) : conn_info * bloom_networking :=
  let conn := set_should_schedule 0 conn in
  let netconf := emit (EvIoStop (conn_client (conn_addr conn))) netconf in
  let netconf := emit (EvIoStop (conn_write_client (conn_addr conn))) netconf in
  let conn := set_input (circbuf_reset (input conn)) conn in
  let conn := set_output (circbuf_reset (output conn)) conn in
  (conn, emit (SysClose (fd (client conn))) netconf).

(** [getfl] and [setfl] are what the two [fcntl] calls answer; a failing
    [setsockopt] is only logged. *)
Definition set_client_sockopts (client_fd : Z) (getfl setfl : Z)
  (netconf : bloom_networking) : Z * bloom_networking :=
  if getfl <? 0 then (1, emit (SysClose client_fd) netconf)
  else if negb (setfl =? 0) then (1, emit (SysClose client_fd) netconf)
  else (0, netconf).

(** [accepted] is what [accept] answers. *)
Definition handle_new_client (listen_fd : Z) (accepted getfl setfl : Z)
  (netconf : bloom_networking) : option bloom_networking :=
  let client_fd := accepted in
  let netconf := emit (SysAccept listen_fd client_fd) netconf in
  if client_fd =? -1 then Some netconf else
  let '(res, netconf) := set_client_sockopts client_fd getfl setfl netconf in
  if negb (res =? 0) then Some netconf else
  '(conn, netconf) ← get_fd_conn client_fd netconf;
  let conn := set_input (init_circular_buffer (input conn)) conn in
  let conn := set_output (init_circular_buffer (output conn)) conn in
  let conn :=
    set_watchers (mk_ev_io client_fd EV_READ (Some (conn_addr conn)))
      (mk_ev_io client_fd EV_WRITE (Some (conn_addr conn))) conn in
  let conn := set_should_schedule 1 conn in
  let netconf := store_conn conn netconf in
  Some (schedule_async SCHEDULE_WATCHER (Some (conn_client (conn_addr conn)))
          netconf).

(** [readv] storing [data] through the vectors, in order. *)
Fixpoint scatter (mem : list byte) (vectors : list iovec) (data : list byte)
  : list byte :=
  match vectors with
  | [] => mem
  | v :: vectors =>
      scatter (memcpy mem (iov_base v) data (iov_len v)) vectors
        (drop (Z.to_nat (iov_len v)) data)
  end.

(** [rv] is what [readv] answers and [incoming] the bytes the socket
    holds. *)
Definition handle_client_data (watch_fd : Z) (rv : sysret)
  (incoming : list byte) (conn : conn_info) (netconf : bloom_networking)
  : Z * conn_info * bloom_networking :=
  let avail_buf := to_int (circbuf_avail_buf (input conn)) in
  let conn :=
    if to_u32 avail_buf <? buf_size (input conn) / 2
    then set_input (circbuf_grow_buf (input conn)) conn
    else conn in
  let vectors := circbuf_setup_readv_iovec (input conn) in
  let read_bytes := ret rv in
  let netconf := emit (SysReadv watch_fd read_bytes) netconf in
  let conn :=
    set_input
      (with_mem (input conn)
         (λ m, scatter m vectors (take (Z.to_nat read_bytes) incoming))
         (write_cursor (input conn))) conn in
  let advance '(conn, netconf) :=
    (0,
     set_input (circbuf_advance_write (input conn) (to_u64 read_bytes)) conn,
     netconf) in
  if read_bytes =? 0 then
    advance (close_client_connection conn netconf)
  else if read_bytes =? -1 then
    if negb (errno rv =? EAGAIN) && negb (errno rv =? EINTR)
    then let '(conn, netconf) := close_client_connection conn netconf in
         (1, conn, netconf)
    else (1, conn, netconf)
  else advance (conn, netconf).

(** ** Write path *)

(** [wv] is what [writev] answers. *)
Definition handle_client_writebuf (watch : ev_io_ref) (watch_fd : Z)
  (wv : sysret) (conn : conn_info) (netconf : bloom_networking)
  : Z * conn_info * bloom_networking :=
  let netconf := emit (Lock (output_lock (conn_addr conn))) netconf in
  let vectors := circbuf_setup_writev_iovec (output conn) in
  let write_bytes := ret wv in
  let netconf :=
    emit (SysWritev watch_fd (gather (buf_mem (output conn)) vectors)
            write_bytes) netconf in
  let '(reschedule, conn, netconf) :=
    if write_bytes =? 0 then
      let '(conn, netconf) := close_client_connection conn netconf in
      (0, conn, netconf)
    else if write_bytes =? -1 then
      if negb (errno wv =? EAGAIN) && negb (errno wv =? EINTR)
      then let '(conn, netconf) := close_client_connection conn netconf in
           (0, conn, netconf)
      else (1, conn, netconf)
    else
      (1,
       set_output (circbuf_advance_read (output conn) (to_u64 write_bytes)) conn,
       netconf) in
  let '(conn, netconf) :=
    if read_cursor (output conn) =? write_cursor (output conn)
    then (set_use_write_buf 0 conn, netconf)
    else if negb (reschedule =? 0)
         then (conn, schedule_async SCHEDULE_WATCHER (Some watch) netconf)
         else (conn, netconf) in
  (0, conn, emit (Unlock (output_lock (conn_addr conn))) netconf).

(** [response_buffers[i]] and [buf_sizes[i]]; reading past the arrays is
    undefined in C and gives an empty buffer of size 0 here. *)
Definition response_buffer (response_buffers : list (list byte)) (i : Z)
  : list byte :=
  if 0 <=? i then default [] (response_buffers !! Z.to_nat i) else [].

Definition buf_size_at (buf_sizes : list Z) (i : Z) : Z :=
  if 0 <=? i then default 0 (buf_sizes !! Z.to_nat i) else 0.

(** [for (i = first; i < num_bufs; i++)] of [send_client_response_buffered]
    ([n] turns left): copies whole buffers, stopping at a non-zero result. *)
Fixpoint copy_buffers (n : nat) (i : Z) (out : circular_buffer)
  (response_buffers : list (list byte)) (buf_sizes : list Z)
  : option (Z * circular_buffer) :=
  match n with
  | O => Some (0, out)
  | S n =>
      '(res, out) ← circbuf_write out (response_buffer response_buffers i)
                      (to_u64 (buf_size_at buf_sizes i));
      if negb (res =? 0) then Some (res, out)
      else copy_buffers n (i + 1) out response_buffers buf_sizes
  end.

(** The vectors [send_client_response_direct] sets up, as the bytes they
    describe, and [total_bytes]. *)
Definition direct_vectors (response_buffers : list (list byte))
  (buf_sizes : list Z) (num_bufs : Z) : list (list byte) :=
  (λ i, take (Z.to_nat (buf_size_at buf_sizes (Z.of_nat i)))
          (response_buffer response_buffers (Z.of_nat i)))
    <$> seq 0 (Z.to_nat num_bufs).

Definition total_bytes (buf_sizes : list Z) (num_bufs : Z) : Z :=
  foldl (λ acc i, acc + buf_size_at buf_sizes (Z.of_nat i)) 0
    (seq 0 (Z.to_nat num_bufs)).

(** "Figure out which buffer we left off on": the loop over [index] with
    [n] turns left; gives [index] and [skip_bytes] at its end. *)
Fixpoint left_off (n : nat) (index skip_bytes : Z) (buf_sizes : list Z)
  (sent : Z) : Z * Z :=
  match n with
  | O => (index, skip_bytes)
  | S n =>
      let skip_bytes := to_int (skip_bytes + buf_size_at buf_sizes index) in
      if sent <? skip_bytes then
        if index =? 0 then (index, 0)
        else (index - 1, to_int (skip_bytes - buf_size_at buf_sizes index))
      else left_off n (index + 1) skip_bytes buf_sizes sent
  end.

(** "Copy the buffers": [for (i = index; i < num_bufs; i++)] with [n]
    turns left; [false] in the first component is [return 1]. *)
Fixpoint copy_unsent (n : nat) (i index skip_bytes sent : Z)
  (out : circular_buffer) (response_buffers : list (list byte))
  (buf_sizes : list Z) : option (bool * circular_buffer) :=
  match n with
  | O => Some (true, out)
  | S n =>
      let offset :=
        if (i =? index) && (skip_bytes <? sent)
        then to_int (sent - skip_bytes) else 0 in
      '(res, out) ←
        circbuf_write out
          (drop (Z.to_nat offset) (response_buffer response_buffers i))
          (to_u64 (to_int (buf_size_at buf_sizes i - offset)));
      if negb (res =? 0) then Some (false, out)
      else copy_unsent n (i + 1) index skip_bytes sent out response_buffers
             buf_sizes
  end.

Definition send_client_response_direct (conn : conn_info)
  (response_buffers : list (list byte)) (buf_sizes : list Z) (num_bufs : Z)
  (wv : sysret) (netconf : bloom_networking)
  : option (Z * conn_info * bloom_networking) :=
  let total_bytes := total_bytes buf_sizes num_bufs in
  let sent := ret wv in
  let netconf :=
    emit (SysWritev (fd (client conn))
            (concat (direct_vectors response_buffers buf_sizes num_bufs))
            sent) netconf in
  if sent =? total_bytes then Some (0, conn, netconf) else
  if (sent =? -1) &&
     (negb (errno wv =? EAGAIN) && negb (errno wv =? EINTR)
      && negb (errno wv =? EWOULDBLOCK))
  then let '(conn, netconf) := close_client_connection conn netconf in
       Some (1, conn, netconf)
  else
    let left := left_off (Z.to_nat num_bufs) 0 0 buf_sizes sent in
    let index := left.1 in
    let skip_bytes := left.2 in
    copied ← copy_unsent (Z.to_nat (num_bufs - index)) index index
               skip_bytes sent (output conn) response_buffers buf_sizes;
    let conn := set_output copied.2 conn in
    if copied.1 : bool then
      let conn := set_use_write_buf 1 conn in
      Some (0, conn,
            schedule_async SCHEDULE_WATCHER
              (Some (conn_write_client (conn_addr conn))) netconf)
    else Some (1, conn, netconf).

Definition send_client_response_buffered (conn : conn_info)
  (response_buffers : list (list byte)) (buf_sizes : list Z) (num_bufs : Z)
  (wv : sysret) (netconf : bloom_networking)
  : option (Z * conn_info * bloom_networking) :=
  let netconf := emit (Lock (output_lock (conn_addr conn))) netconf in
  if use_write_buf conn =? 0 then
    let netconf := emit (Unlock (output_lock (conn_addr conn))) netconf in
    send_client_response_direct conn response_buffers buf_sizes num_bufs wv
      netconf
  else
    '(res, out) ← copy_buffers (Z.to_nat num_bufs) 0 (output conn)
                    response_buffers buf_sizes;
    Some (res, set_output out conn,
          emit (Unlock (output_lock (conn_addr conn))) netconf).

(** [wv] is what [writev] answers should the direct path be taken. *)
Definition send_client_response (conn : conn_info)
  (response_buffers : list (list byte)) (buf_sizes : list Z) (num_bufs : Z)
  (wv : sysret) (netconf : bloom_networking)
  : option (Z * conn_info * bloom_networking) :=
  if num_bufs <=? 0 then Some (0, conn, netconf) else
  if negb (use_write_buf conn =? 0)
  then send_client_response_buffered conn response_buffers buf_sizes num_bufs
         wv netconf
  else send_client_response_direct conn response_buffers buf_sizes num_bufs
         wv netconf.

(** ** Framing *)

(** The outputs of a successful [extract_to_terminator]: the [buf_len]
    bytes [*buf] points to, [*buf_len] and [*should_free]. *)
Record frame := mk_frame {
  frame_buf : list byte;
  buf_len : Z;
  should_free : Z
}.

(** Storing one byte through a pointer into the ring. *)
Definition store_byte (buf : circular_buffer) (addr : Z) (b : byte)
  : circular_buffer :=
  with_mem buf (λ m, <[Z.to_nat addr := b]> m) (write_cursor buf).

Definition set_read_cursor (r : Z) (buf : circular_buffer) : circular_buffer :=
  mk_circbuf (write_cursor buf) r (buf_size buf) (buffer buf).

(** "if our read-cursor has caught up with the write cursor, reset them to
    the beginning". *)
Definition reset_if_caught_up (buf : circular_buffer) : circular_buffer :=
  if read_cursor buf =? write_cursor buf
  then mk_circbuf 0 0 (buf_size buf) (buffer buf)
  else buf.

(** [extract_to_terminator] on the input ring of the connection: the
    return value, the outputs when they are set, and the ring afterwards. *)
Definition extract_to_terminator_input (inp : circular_buffer)
  (terminator : byte) : Z * option frame * circular_buffer :=
  let r := read_cursor inp in
  let w := write_cursor inp in
  if w <? r then
    match memchr (buf_mem inp) r terminator
            (to_u64 (to_u32 (buf_size inp - r))) with
    | Some term_addr =>
        let len := to_int (term_addr - r + 1) in
        let inp := store_byte inp term_addr x00 in
        let out := mk_frame (mem_read (buf_mem inp) r len) len 0 in
        (0, Some out, set_read_cursor (to_int (term_addr + 1)) inp)
    | None =>
        match memchr (buf_mem inp) 0 terminator (to_u64 w) with
        | Some term_addr =>
            let start_size := to_int (term_addr + 1) in
            let end_size := to_int (to_u32 (buf_size inp - r)) in
            let len := to_int (start_size + end_size) in
            let buf := malloc len in
            let buf := memcpy buf 0 (drop (Z.to_nat r) (buf_mem inp)) end_size in
            let inp := store_byte inp term_addr x00 in
            let buf := memcpy buf end_size (buf_mem inp) start_size in
            (0, Some (mk_frame buf len 1),
             reset_if_caught_up (set_read_cursor start_size inp))
        | None => (-1, None, reset_if_caught_up inp)
        end
    end
  else
    match memchr (buf_mem inp) r terminator (to_u64 (to_int (w - r))) with
    | Some term_addr =>
        let len := to_int (term_addr - r + 1) in
        let inp := store_byte inp term_addr x00 in
        let out := mk_frame (mem_read (buf_mem inp) r len) len 0 in
        (0, Some out,
         reset_if_caught_up (set_read_cursor (to_int (term_addr + 1)) inp))
    | None => (-1, None, reset_if_caught_up inp)
    end.

Definition extract_to_terminator (conn : conn_info) (terminator : byte)
  : Z * option frame * conn_info :=
  let '(res, out, inp) := extract_to_terminator_input (input conn) terminator in
  (res, out, set_input inp conn).

(** ** Event dispatch and the worker loop *)

(** What the outside answers during one turn of a worker: whether another
    thread has run [should_run = 0] of [shutdown_networking] while this one
    waited for the leader lock, the callbacks [ev_run] invokes, and what
    the system calls of the handlers return. *)
Inductive ev_callback :=
| IoReady (w : ev_io_ref) (revents : Z)
| AsyncReady.

Record turn := mk_turn {
  shutdown_while_waiting : bool;
  ev_ready : list ev_callback;
  k_accept : Z;
  k_getfl : Z;
  k_setfl : Z;
  k_readv : sysret;
  k_incoming : list byte;
  k_writev : sysret
}.

(** [ev_run(EVRUN_ONCE)]: libev invokes the callbacks of what is ready,
    [prepare_event] for an I/O watcher and [handle_async_event] for the
    async watcher. *)
Fixpoint ev_run (ready : list ev_callback) (data : worker_ev_userdata)
  (netconf : bloom_networking) : worker_ev_userdata * bloom_networking :=
  match ready with
  | [] => (data, netconf)
  | IoReady w revents :: ready =>
      let '(data, netconf) := prepare_event w revents data netconf in
      ev_run ready data netconf
  | AsyncReady :: ready => ev_run ready data (handle_async_event netconf)
  end.

Section Worker.

(** The request handler of [conn_handler.c], outside the core: it is
    handed the connection and the context and answers with its result. *)
Variable handle_client_connect :
  conn_info → bloom_networking → option (Z * conn_info * bloom_networking).

Definition invoke_event_handler (data : worker_ev_userdata) (t : turn)
  (netconf : bloom_networking) : option bloom_networking :=
  watcher ← ud_watcher data;
  fd ← watcher_fd watcher netconf;
  match watcher with
  | tcp_client =>
      netconf ← handle_new_client fd (k_accept t) (k_getfl t) (k_setfl t)
                  netconf;
      Some (schedule_async SCHEDULE_WATCHER (Some watcher) netconf)
  | udp_client => Some netconf
  | _ =>
      conn ← watcher_conn watcher netconf;
      if negb (Z.land (ready_events data) EV_WRITE =? 0) then
        let '(_, conn, netconf) :=
          handle_client_writebuf watcher fd (k_writev t) conn netconf in
        Some (store_conn conn netconf)
      else
        let '(res, conn, netconf) :=
          handle_client_data fd (k_readv t) (k_incoming t) conn netconf in
        '(_, conn, netconf) ←
          (if res =? 0 then handle_client_connect conn netconf
           else Some (res, conn, netconf));
        let netconf := store_conn conn netconf in
        if negb (should_schedule conn =? 0)
        then Some (schedule_async SCHEDULE_WATCHER (Some watcher) netconf)
        else Some netconf
  end.

(** One turn of [while (netconf->should_run)] in
    [start_networking_worker], entered with the condition true, in two
    parts.  [worker_turn_leader] is the part from taking the leader lock to
    releasing it: whether the turn goes on, [registered], the user data
    [ev_run] left, and the context. *)
Definition worker_turn_leader (self : Z) (registered : Z) (t : turn)
  (netconf : bloom_networking)
  : bool * Z * worker_ev_userdata * bloom_networking :=
  let netconf :=
    if shutdown_while_waiting t then set_should_run 0 netconf else netconf in
  let netconf := emit (Lock leader_lock) netconf in
  let data := mk_userdata None 0 in
  let '(registered, netconf) :=
    if registered =? 0 then
      (1, set_threads (to_int (num_threads netconf + 1))
            (<[Z.to_nat (num_threads netconf) := self]> (threads netconf))
            netconf)
    else (registered, netconf) in
  if should_run netconf =? 0 then
    (false, registered, data, emit (Unlock leader_lock) netconf)
  else
    let netconf := emit EvRunOnce netconf in
    let '(data, netconf) := ev_run (ev_ready t) data netconf in
    (true, registered, data, emit (Unlock leader_lock) netconf).

(** The whole turn: whether the loop goes on ([false] is [break]),
    [registered], and the context. *)
Definition worker_turn (self : Z) (registered : Z) (t : turn)
  (netconf : bloom_networking) : option (bool * Z * bloom_networking) :=
  let '(go_on, registered, data, netconf) :=
    worker_turn_leader self registered t netconf in
  if go_on : bool then
    match ud_watcher data with
    | Some _ =>
        netconf ← invoke_event_handler data t netconf;
        Some (true, registered, netconf)
    | None => Some (true, registered, netconf)
    end
  else Some (false, registered, netconf).

(** [start_networking_worker] over the turns the outside allows it:
    whether it has returned, and the context. *)
Fixpoint worker_loop (self : Z) (registered : Z) (turns : list turn)
  (netconf : bloom_networking) : option (bool * bloom_networking) :=
  if should_run netconf =? 0 then Some (true, netconf) else
  match turns with
  | [] => Some (false, netconf)
  | t :: turns =>
      '(go_on, registered, netconf) ← worker_turn self registered t netconf;
      if go_on : bool then worker_loop self registered turns netconf
      else Some (true, netconf)
  end.

Definition start_networking_worker (self : Z) (turns : list turn)
  (netconf : bloom_networking) : option (bool * bloom_networking) :=
  worker_loop self 0 turns netconf.

End Worker.

Definition shutdown_networking_begin (netconf : bloom_networking)
  : bloom_networking :=
  schedule_async EXIT None (set_should_run 0 netconf).

(** ** Start-up and shutdown *)

Definition BACKLOG_SIZE : Z := 64.
Definition INIT_CONN_LIST_SIZE : Z := 1024.

(** The fields of [bloom_config] the core reads. *)
Record bloom_config := mk_config {
  tcp_port : Z;
  udp_port : Z;
  worker_threads : Z
}.

Inductive socket_type := SOCK_STREAM | SOCK_DGRAM.

(** What [init_networking] and [shutdown_networking] do to the outside:
    the effects of the running core, and the calls only they make. *)
Inductive lifecycle_effect :=
| Core (e : effect)
| EvDefaultLoop (r : Z)
| SysSocket (type : socket_type) (r : Z)
| SysSetsockopt (fd : Z) (r : Z)
| SysBind (fd : Z) (port : Z) (r : Z)
| SysListen (fd : Z) (backlog : Z) (r : Z)
| EvAsyncStart
| InitConnHandler
| PthreadJoin (thread : Z).

(** What the outside answers to the calls of [init_networking]. *)
Record init_answers := mk_init_answers {
  k_default_loop : Z;
  k_tcp_socket : Z;
  k_tcp_reuseaddr : Z;
  k_tcp_bind : Z;
  k_tcp_listen : Z;
  k_udp_socket : Z;
  k_udp_reuseaddr : Z;
  k_udp_bind : Z
}.

Definition set_tcp_listener (v : ev_io) (n : bloom_networking)
  : bloom_networking :=
  mk_netconf (should_run n) v (udp_listener n) (events n)
    (num_threads n) (threads n) (conn_list_size n) (conns n) (trace n).

Definition set_udp_listener (v : ev_io) (n : bloom_networking)
  : bloom_networking :=
  mk_netconf (should_run n) (tcp_listener n) v (events n)
    (num_threads n) (threads n) (conn_list_size n) (conns n) (trace n).

(** What [calloc] leaves in a [bloom_networking]. *)
Definition zeroed_netconf : bloom_networking :=
  mk_netconf 0 (mk_ev_io 0 0 None) (mk_ev_io 0 0 None) [] 0 [] 0 [] [].

Definition setup_tcp_listener (config : bloom_config) (k : init_answers)
  (netconf : bloom_networking) (log : list lifecycle_effect)
  : Z * bloom_networking * list lifecycle_effect :=
  let tcp_listener_fd := k_tcp_socket k in
  let log := log ++ [SysSocket SOCK_STREAM tcp_listener_fd] in
  let log := log ++ [SysSetsockopt tcp_listener_fd (k_tcp_reuseaddr k)] in
  if negb (k_tcp_reuseaddr k =? 0) then
    (1, netconf, log ++ [Core (SysClose tcp_listener_fd)])
  else
  let log := log ++ [SysBind tcp_listener_fd (tcp_port config) (k_tcp_bind k)] in
  if negb (k_tcp_bind k =? 0) then
    (1, netconf, log ++ [Core (SysClose tcp_listener_fd)])
  else
  let log := log ++ [SysListen tcp_listener_fd BACKLOG_SIZE (k_tcp_listen k)] in
  if negb (k_tcp_listen k =? 0) then
    (1, netconf, log ++ [Core (SysClose tcp_listener_fd)])
  else
  let netconf :=
    set_tcp_listener
      (mk_ev_io tcp_listener_fd EV_READ (data (tcp_listener netconf)))
      netconf in
  (0, netconf, log ++ [Core (EvIoStart tcp_client)]).

Definition setup_udp_listener (config : bloom_config) (k : init_answers)
  (netconf : bloom_networking) (log : list lifecycle_effect)
  : Z * bloom_networking * list lifecycle_effect :=
  let udp_listener_fd := k_udp_socket k in
  let log := log ++ [SysSocket SOCK_DGRAM udp_listener_fd] in
  let log := log ++ [SysSetsockopt udp_listener_fd (k_udp_reuseaddr k)] in
  if negb (k_udp_reuseaddr k =? 0) then
    (1, netconf, log ++ [Core (SysClose udp_listener_fd)])
  else
  let log := log ++ [SysBind udp_listener_fd (udp_port config) (k_udp_bind k)] in
  if negb (k_udp_bind k =? 0) then
    (1, netconf, log ++ [Core (SysClose udp_listener_fd)])
  else
  let netconf :=
    set_udp_listener
      (mk_ev_io udp_listener_fd EV_READ (data (udp_listener netconf)))
      netconf in
  (0, netconf, log ++ [Core (EvIoStart udp_client)]).

(** [init_networking]: its result, [*netconf_out] when it is set, and
    what it did to the outside.  The locks it initialises have no state
    here, [config] and [mgr] are only handed on to the request handler, and
    the backend flag passed to [ev_default_loop] does not show in what the
    call answers. *)
Definition init_networking (config : bloom_config) (k : init_answers)
  : Z * option bloom_networking * list lifecycle_effect :=
  let netconf := zeroed_netconf in
  let netconf := set_events [] netconf in
  let netconf := set_should_run 1 netconf in
  let netconf :=
    set_threads 0 (replicate (Z.to_nat (worker_threads config)) 0) netconf in
  let netconf :=
    set_conns INIT_CONN_LIST_SIZE
      (replicate (Z.to_nat INIT_CONN_LIST_SIZE) None) netconf in
  let log := [EvDefaultLoop (k_default_loop k)] in
  if k_default_loop k =? 0 then (1, None, log) else
  let '(res, netconf, log) := setup_tcp_listener config k netconf log in
  if negb (res =? 0) then (1, None, log) else
  let '(res, netconf, log) := setup_udp_listener config k netconf log in
  if negb (res =? 0) then
    (1, None,
     log ++ [Core (EvIoStop tcp_client);
             Core (SysClose (fd (tcp_listener netconf)))])
  else
  let log := log ++ [EvAsyncStart] in
  let log := log ++ [InitConnHandler] in
  (0, Some netconf, log).

(** "Wait for the threads to return": the loop over [threads] with [n]
    turns left. *)
Fixpoint join_threads (n : nat) (i : Z) (netconf : bloom_networking)
  : list lifecycle_effect :=
  match n with
  | O => []
  | S n =>
      let thread := default 0 (threads netconf !! Z.to_nat i) in
      (if negb (thread =? 0) then [PthreadJoin thread] else [])
        ++ join_threads n (i + 1) netconf
  end.

(** The body of "Close all the client connections" for a record that is
    there: what it does to the outside, and the record as it is freed. *)
Definition shutdown_conn (conn : conn_info)
  : list lifecycle_effect * conn_info :=
  let log :=
    if negb (should_schedule conn =? 0) then
      [Core (EvIoStop (conn_client (conn_addr conn)));
       Core (EvIoStop (conn_write_client (conn_addr conn)));
       Core (SysClose (fd (client conn)))]
    else [] in
  let conn := set_input (circbuf_free (input conn)) conn in
  let conn := set_output (circbuf_free (output conn)) conn in
  (log, conn).

Fixpoint shutdown_conns (slots : list (option conn_info))
  : list lifecycle_effect :=
  match slots with
  | [] => []
  | None :: slots => shutdown_conns slots
  | Some conn :: slots => (shutdown_conn conn).1 ++ shutdown_conns slots
  end.

(** [shutdown_networking] from "Wait for the threads to return" on, on
    the context as the workers leave it: its result and the history of
    the process at its end.  The [free] calls that end it leave nothing
    to observe. *)
Definition shutdown_networking_finish (netconf : bloom_networking)
  : Z * list lifecycle_effect :=
  let log := Core <$> trace netconf in
  let log := log ++ join_threads (Z.to_nat (num_threads netconf)) 0 netconf in
  let log :=
    log ++ [Core (EvIoStop tcp_client);
            Core (SysClose (fd (tcp_listener netconf)));
            Core (EvIoStop udp_client);
            Core (SysClose (fd (udp_listener netconf)))] in
  let log :=
    log ++ shutdown_conns
             (take (Z.to_nat (conn_list_size netconf)) (conns netconf)) in
  (0, log).

(** [shutdown_networking], with what the workers do to the context
    between its request to stop and their return. *)
Definition shutdown_networking
  (workers : bloom_networking → bloom_networking)
  (netconf : bloom_networking) : Z * list lifecycle_effect :=
  shutdown_networking_finish (workers (shutdown_networking_begin netconf)).

(** ** The older worker loop

    The repository keeps a second, earlier networking file whose
    [start_networking_worker] differs from the one above; its context has
    no async queue and its [invoke_event_handler] is empty. *)
Module Legacy.

Record bloom_networking := mk_netconf {
  should_run : Z;
  num_threads : Z;
  threads : list Z;
  trace : list effect
}.

Definition emit (e : effect) (n : bloom_networking) : bloom_networking :=
  mk_netconf (should_run n) (num_threads n) (threads n) (trace n ++ [e]).

Definition set_should_run (v : Z) (n : bloom_networking) : bloom_networking :=
  mk_netconf v (num_threads n) (threads n) (trace n).

Definition set_threads (k : Z) (v : list Z) (n : bloom_networking)
  : bloom_networking :=
  mk_netconf (should_run n) k v (trace n).

Definition prepare_event (watcher : ev_io_ref) (revents : Z)
  (data : worker_ev_userdata) (netconf : bloom_networking)
  : worker_ev_userdata * bloom_networking :=
  (mk_userdata (Some watcher) revents, emit (EvIoStop watcher) netconf).

Fixpoint ev_run (ready : list (ev_io_ref * Z)) (data : worker_ev_userdata)
  (netconf : bloom_networking) : worker_ev_userdata * bloom_networking :=
  match ready with
  | [] => (data, netconf)
  | (w, revents) :: ready =>
      let '(data, netconf) := prepare_event w revents data netconf in
      ev_run ready data netconf
  end.

Definition invoke_event_handler (data : worker_ev_userdata)
  (netconf : bloom_networking) : bloom_networking := netconf.

(** One turn of the loop, entered with its condition true; [data] is the
    worker's user data, which this version never clears. *)
Definition worker_turn (self : Z) (registered : Z) (data : worker_ev_userdata)
  (shutdown_while_waiting : bool) (ready : list (ev_io_ref * Z))
  (netconf : bloom_networking)
  : bool * Z * worker_ev_userdata * bloom_networking :=
  let netconf :=
    if shutdown_while_waiting then set_should_run 0 netconf else netconf in
  let netconf := emit (Lock leader_lock) netconf in
  let '(registered, netconf) :=
    if registered =? 0 then
      (1, set_threads (to_int (num_threads netconf + 1))
            (<[Z.to_nat (num_threads netconf) := self]> (threads netconf))
            netconf)
    else (registered, netconf) in
  if negb (should_run netconf =? 0) then
    (false, registered, data, emit (Unlock leader_lock) netconf)
  else
    let netconf := emit EvRunOnce netconf in
    let '(data, netconf) := ev_run ready data netconf in
    let netconf := emit (Unlock leader_lock) netconf in
    (true, registered, data, invoke_event_handler data netconf).

End Legacy.

(** ** Observations on rings and traces *)

(** A ring as the code expects to find it: allocated, the allocation as
    long as [buf_size] says, and both cursors within it. *)
Definition ring_ok (buf : circular_buffer) : Prop :=
  ∃ mem, buffer buf = Some mem
    ∧ Z.of_nat (length mem) = buf_size buf
    ∧ 0 < buf_size buf ≤ INT_MAX
    ∧ 0 ≤ read_cursor buf ≤ buf_size buf
    ∧ 0 ≤ write_cursor buf ≤ buf_size buf.

(** A ring as the specification describes it: [ring_ok] with both
    cursors strictly inside the allocation. *)
Definition ring_strict (buf : circular_buffer) : Prop :=
  ring_ok buf
  ∧ read_cursor buf < buf_size buf ∧ write_cursor buf < buf_size buf.

(** [room buf rem]: [rem] more bytes can be written to [buf] without
    growing it and without wrapping past the end of its buffer. *)
Definition room (buf : circular_buffer) (rem : Z) : Prop :=
  ring_ok buf
  ∧ 0 ≤ rem ≤ circbuf_avail_buf buf
  ∧ (write_cursor buf < read_cursor buf
     ∨ write_cursor buf + rem ≤ buf_size buf).

(** The sizes of a response whose buffers are used in full. *)
Definition sizes_of (response_buffers : list (list byte)) : list Z :=
  (λ b, Z.of_nat (length b)) <$> response_buffers.

(** Operations on a ring, for stating properties of their sequences. *)
Inductive ring_op :=
| write_bytes (data : list byte)
| advance_write (bytes : Z)
| advance_read (bytes : Z)
| extract (terminator : byte).

(** Runs the operations in order; [drained] collects what each
    [advance_read] consumes, as the [writev] vectors describe it. *)
Fixpoint run_ring (ops : list ring_op) (buf : circular_buffer)
  (drained : list byte) : option (circular_buffer * list byte) :=
  match ops with
  | [] => Some (buf, drained)
  | write_bytes data :: ops =>
      '(_, buf) ← circbuf_write buf data (Z.of_nat (length data));
      run_ring ops buf drained
  | advance_write bytes :: ops =>
      run_ring ops (circbuf_advance_write buf bytes) drained
  | advance_read bytes :: ops =>
      run_ring ops (circbuf_advance_read buf bytes)
        (drained ++ take (Z.to_nat bytes) (readable buf))
  | extract terminator :: ops =>
      run_ring ops (extract_to_terminator_input buf terminator).2 drained
  end.

(** The ring of a connection just accepted on a fresh record. *)
Definition empty_ring : circular_buffer := init_circular_buffer zeroed_circbuf.

(** The bytes a descriptor has taken, in order: of every [writev] on it,
    the part the kernel reported written. *)
Fixpoint wire (fd : Z) (tr : list effect) : list byte :=
  match tr with
  | [] => []
  | SysWritev fd' offered r :: tr =>
      (if (fd' =? fd) && (0 <? r) then take (Z.to_nat r) offered else [])
        ++ wire fd tr
  | _ :: tr => wire fd tr
  end.

(** The pairs (lock held, lock acquired) of a trace: every acquisition
    made while [held] is not empty, with the lock acquired last before. *)
Fixpoint nested_acquisitions (held : list lock_id) (tr : list effect)
  : list (lock_id * lock_id) :=
  match tr with
  | [] => []
  | Lock l :: tr =>
      match held with
      | [] => nested_acquisitions [l] tr
      | h :: _ => (h, l) :: nested_acquisitions (l :: held) tr
      end
  | Unlock l :: tr =>
      nested_acquisitions (filter (λ h, h ≠ l) held) tr
  | _ :: tr => nested_acquisitions held tr
  end.

(** The lock order of the core: the event-queue spinlock may be taken
    under the leader mutex or under one output lock, and nothing else
    nests. *)
Definition may_acquire (held : list lock_id) (l : lock_id) : bool :=
  match held with
  | [] => true
  | [leader_lock] | [output_lock _] => bool_decide (l = event_lock)
  | _ => false
  end.

(** Walks a trace from the locks [held]: the locks held at its end, or
    [None] when an acquisition is outside [may_acquire] or a release is not
    of the lock taken last. *)
Fixpoint lock_walk (held : list lock_id) (tr : list effect)
  : option (list lock_id) :=
  match tr with
  | [] => Some held
  | Lock l :: tr =>
      if may_acquire held l then lock_walk (l :: held) tr else None
  | Unlock l :: tr =>
      match held with
      | h :: held => if decide (h = l) then lock_walk held tr else None
      | [] => None
      end
  | _ :: tr => lock_walk held tr
  end.

(** [steps before after held held']: the call that led from [before] to
    [after] only appended to the trace, and what it appended follows the
    lock order from the locks [held] to the locks [held']. *)
Definition steps (before after : bloom_networking)
  (held held' : list lock_id) : Prop :=
  ∃ delta, trace after = trace before ++ delta
    ∧ lock_walk held delta = Some held'.

(** The call starts and ends with no lock held. *)
Definition disciplined (before after : bloom_networking) : Prop :=
  steps before after [] [].

Definition is_lock_op (e : effect) : bool :=
  match e with
  | Lock _ | Unlock _ => true
  | _ => false
  end.

(** A ring given by natural-number cursors over its allocation. *)
Definition ring (W R : nat) (mem : list byte) : circular_buffer :=
  mk_circbuf (Z.of_nat W) (Z.of_nat R) (Z.of_nat (length mem)) (Some mem).

(** A nested acquisition the lock order allows: the event-queue spinlock,
    taken under the leader mutex or under an output lock. *)
Definition nests_event_lock (p : lock_id * lock_id) : Prop :=
  p.2 = event_lock ∧ (p.1 = leader_lock ∨ ∃ conn, p.1 = output_lock conn).

(** The shapes the held locks go through on a walk that follows the lock
    order. *)
Definition ordered_held (held : list lock_id) : Prop :=
  held = [] ∨ (∃ l, held = [l])
  ∨ ∃ l, held = [event_lock; l] ∧ nests_event_lock (l, event_lock).

(** What a call appended to the trace starts and ends with no lock held,
    releases in the reverse order of taking, and nests only as
    [nests_event_lock] allows. *)
Definition keeps_lock_order (before after : bloom_networking) : Prop :=
  ∃ delta, trace after = trace before ++ delta
    ∧ lock_walk [] delta = Some []
    ∧ Forall nests_event_lock (nested_acquisitions [] delta).

(** What the loop of [handle_async_event] asks of libev for one command. *)
Definition async_effect (event : async_event) : list effect :=
  match event_type event, watcher event with
  | EXIT, _ => [EvBreak]
  | SCHEDULE_WATCHER, Some w => [EvIoStart w]
  | SCHEDULE_WATCHER, None => []
  end.

(** The write watcher of a connection firing once for each of the
    [answers] of [writev], in order. *)
Fixpoint write_ready (answers : list sysret) (conn : conn_info)
  (netconf : bloom_networking) : conn_info * bloom_networking :=
  match answers with
  | [] => (conn, netconf)
  | wv :: answers =>
      let '(_, conn, netconf) :=
        handle_client_writebuf (conn_write_client (conn_addr conn))
          (fd (write_client conn)) wv conn netconf in
      write_ready answers conn netconf
  end.

(** [extract_to_terminator] called until it answers -1, at most [fuel]
    times: the buffers it handed out, in order, and the connection
    afterwards. *)
Fixpoint extract_frames (fuel : nat) (conn : conn_info) (terminator : byte)
  : list frame * conn_info :=
  match fuel with
  | O => ([], conn)
  | S fuel =>
      let '(res, out, conn) := extract_to_terminator conn terminator in
      match out with
      | Some out =>
          let '(frames, conn) := extract_frames fuel conn terminator in
          (out :: frames, conn)
      | None => ([], conn)
      end
  end.

(** The descriptors a history has opened with [socket] and not closed,
    and the watchers it has started and not stopped. *)
Fixpoint open_sockets (log : list lifecycle_effect) (open : list Z) : list Z :=
  match log with
  | [] => open
  | SysSocket _ r :: log => open_sockets log (open ++ [r])
  | Core (SysClose fd) :: log => open_sockets log (filter (λ x, x ≠ fd) open)
  | _ :: log => open_sockets log open
  end.

Fixpoint active_watchers (log : list lifecycle_effect)
  (active : list ev_io_ref) : list ev_io_ref :=
  match log with
  | [] => active
  | Core (EvIoStart w) :: log => active_watchers log (active ++ [w])
  | Core (EvIoStop w) :: log =>
      active_watchers log (filter (λ x, x ≠ w) active)
  | _ :: log => active_watchers log active
  end.

(** The descriptors a history closes, in order. *)
Definition closed_descriptors (log : list lifecycle_effect) : list Z :=
  omap (λ e, match e with Core (SysClose fd) => Some fd | _ => None end) log.

(** The threads a history joins, in order. *)
Definition joined_threads (log : list lifecycle_effect) : list Z :=
  omap (λ e, match e with PthreadJoin t => Some t | _ => None end) log.


(** ** Sample states *)

(** The context as [init_networking] leaves it, listeners on descriptors
    3 and 4 and room for four workers. *)
Definition fresh_netconf : bloom_networking :=
  mk_netconf 1 (mk_ev_io 3 EV_READ None) (mk_ev_io 4 EV_READ None) []
    0 (replicate 4 0) 1024 (replicate 1024 None) [].

(** A connection accepted on descriptor 7, as [handle_new_client] leaves
    its record. *)
Definition fresh_conn : conn_info :=
  mk_conn 7 (mk_ev_io 7 EV_READ (Some 7)) 1 empty_ring 0
    (mk_ev_io 7 EV_WRITE (Some 7)) empty_ring.

(** A connection in the buffered state with two bytes queued. *)
Definition backlogged_conn : conn_info :=
  mk_conn 7 (mk_ev_io 7 EV_READ (Some 7)) 1 empty_ring 1
    (mk_ev_io 7 EV_WRITE (Some 7))
    (mk_circbuf 2 0 4096 (Some (memcpy (malloc 4096) 0 ["h"; "i"]%byte 2))).

(** A two-buffer response, and a ring filled to two bytes before its end
    of which 4090 bytes have been consumed. *)
Definition abc : list byte := ["a"; "b"; "c"]%byte.
Definition def : list byte := ["d"; "e"; "f"]%byte.
Definition abcd : list byte := ["a"; "b"; "c"; "d"]%byte.

Definition wrap_ops : list ring_op :=
  [write_bytes (replicate 4094 "x"%byte); advance_read 4090;
   write_bytes abcd; advance_read 8].

Definition exact_fit_ops : list ring_op :=
  [write_bytes (replicate 2 "a"%byte); advance_read 1;
   write_bytes (replicate 4094 "b"%byte)].

(** The context of the older file as its [init_networking] leaves it. *)
Definition legacy_fresh_netconf : Legacy.bloom_networking :=
  Legacy.mk_netconf 1 0 (replicate 4 0) [].

(** A context whose slot 7 holds the record of a closed connection that
    was left in the buffered state. *)
Definition stale_conn : conn_info :=
  (close_client_connection backlogged_conn fresh_netconf).1.

Definition netconf_with_stale_conn : bloom_networking :=
  store_conn stale_conn fresh_netconf.

(** A connection whose input ring has wrapped: "bb" in its last two bytes
    and "cc\n" in its first three, with the read cursor at 4094 and the
    write cursor at 3. *)
Definition wrapped_input : circular_buffer :=
  ring 3 4094 (["c"; "c"; x0a]%byte ++ replicate 4091 "a"%byte ++ ["b"; "b"]%byte).

Definition wrapped_conn : conn_info :=
  mk_conn 7 (mk_ev_io 7 EV_READ (Some 7)) 1 wrapped_input 0
    (mk_ev_io 7 EV_WRITE (Some 7)) empty_ring.

(** A connection whose input ring is empty with both cursors at 5. *)
Definition idle_conn : conn_info :=
  mk_conn 7 (mk_ev_io 7 EV_READ (Some 7)) 1
    (mk_circbuf 5 5 4096 (Some (malloc 4096))) 0
    (mk_ev_io 7 EV_WRITE (Some 7)) empty_ring.

(** A connection whose input ring holds "hi" without a terminator. *)
Definition partial_conn : conn_info :=
  mk_conn 7 (mk_ev_io 7 EV_READ (Some 7)) 1
    (mk_circbuf 2 0 4096 (Some (memcpy (malloc 4096) 0 ["h"; "i"]%byte 2))) 0
    (mk_ev_io 7 EV_WRITE (Some 7)) empty_ring.

(** A request handler that answers every complete line with itself. *)
Definition echo_handler (conn : conn_info) (netconf : bloom_networking)
  : option (Z * conn_info * bloom_networking) :=
  let '(res, out, conn) := extract_to_terminator conn x0a in
  match out with
  | Some line =>
      send_client_response conn [frame_buf line] [buf_len line] 1
        (mk_sysret (buf_len line) 0) netconf
  | None => Some (0, conn, netconf)
  end.

(** The context with the backlogged connection in its slot and the
    command to start its write watcher pending; and a turn in which the
    async watcher and then that write watcher fire, the socket taking one
    byte. *)
Definition backlogged_netconf : bloom_networking :=
  schedule_async SCHEDULE_WATCHER (Some (conn_write_client 7))
    (set_should_run 1 (store_conn backlogged_conn fresh_netconf)).

Definition write_ready_turn : turn :=
  mk_turn false [AsyncReady; IoReady (conn_write_client 7) EV_WRITE] (-1) 0 0
    (mk_sysret (-1) EAGAIN) [] (mk_sysret 1 0).

(** A connection whose input ring holds 3000 bytes, more than half of
    it. *)
Definition filling_conn : conn_info :=
  mk_conn 7 (mk_ev_io 7 EV_READ (Some 7)) 1
    (ring 3000 0 (replicate 4096 "a"%byte)) 0
    (mk_ev_io 7 EV_WRITE (Some 7)) empty_ring.

(** Two complete lines and the start of a third. *)
Definition ab_cd_ef : list byte :=
  ["a"; "b"; x0a; "c"; "d"; x0a; "e"; "f"]%byte.

(** A connection whose input ring holds them. *)
Definition two_lines_conn : conn_info :=
  mk_conn 7 (mk_ev_io 7 EV_READ (Some 7)) 1
    (mk_circbuf 8 0 4096 (Some (memcpy (malloc 4096) 0 ab_cd_ef 8))) 0
    (mk_ev_io 7 EV_WRITE (Some 7)) empty_ring.

(** A turn in which the UDP listener fires. *)
Definition udp_ready_turn : turn :=
  mk_turn false [IoReady udp_client EV_READ] (-1) 0 0
    (mk_sysret (-1) EAGAIN) [] (mk_sysret (-1) EAGAIN).

(** * Properties *)

(** ** Machine integers in range *)

Lemma to_u32_small z : 0 ≤ z < 2 ^ 32 → to_u32 z = z.
Proof. intros. unfold to_u32. by rewrite Z.mod_small. Qed.

Lemma to_u64_small z : 0 ≤ z < 2 ^ 64 → to_u64 z = z.
Proof. intros. unfold to_u64. by rewrite Z.mod_small. Qed.

Lemma to_int_small z : - 2 ^ 31 ≤ z < 2 ^ 31 → to_int z = z.
Proof. intros. unfold to_int. rewrite Z.mod_small; lia. Qed.

(** ** send_client_response with nothing to send *)

(** C9. [send_client_response] called with [num_bufs <= 0] answers 0 and
    leaves the connection record (both rings, [use_write_buf], watchers)
    and the context (the command queue and the trace of locks, libev
    calls and system calls, so no [writev]) exactly as they were. *)
Theorem send_client_response_no_bufs :
  ∀ conn response_buffers buf_sizes num_bufs wv netconf,
    num_bufs ≤ 0 →
    send_client_response conn response_buffers buf_sizes num_bufs wv netconf
    = Some (0, conn, netconf).
Proof.
  intros conn bufs sizes n wv netconf Hn. unfold send_client_response.
  by rewrite (proj2 (Z.leb_le n 0) Hn).
Qed.

Lemma send_client_response_no_bufs_witness :
  -1 ≤ 0 ∧
  send_client_response backlogged_conn [abc; def] [3; 3] (-1) (mk_sysret 6 0)
    fresh_netconf
  = Some (0, backlogged_conn, fresh_netconf).
Proof.
  split; [lia|].
  apply (send_client_response_no_bufs backlogged_conn [abc; def] [3; 3] (-1)
           (mk_sysret 6 0) fresh_netconf).
  lia.
Defined.

(** ** Short writes on the direct path *)

(** C1, at a short write that ends inside the second buffer.  The
    response is ["abc"; "def"] and [writev] reports 4 bytes sent, so the
    unsent suffix is "ef"; [send_client_response] queues "bcdef" instead
    (it steps back to the buffer before the one it left off in), switches
    to buffered writes and schedules the write watcher.  Once the ring is
    drained the descriptor has taken "abcd" followed by "bcdef". *)
Theorem send_client_response_short_write_requeues_sent_bytes :
  let offered := abc ++ def in
  drop 4 offered = ["e"; "f"]%byte ∧
  ∃ conn netconf,
    send_client_response fresh_conn [abc; def] [3; 3] 2 (mk_sysret 4 0)
      fresh_netconf = Some (0, conn, netconf)
    ∧ readable (output conn) = ["b"; "c"; "d"; "e"; "f"]%byte
    ∧ use_write_buf conn = 1
    ∧ events netconf
      = [mk_async_event SCHEDULE_WATCHER (Some (conn_write_client 7))]
    ∧ wire 7
        (trace (handle_client_writebuf (conn_write_client 7) 7
                  (mk_sysret 5 0) conn netconf).2)
      = ["a"; "b"; "c"; "d"; "b"; "c"; "d"; "e"; "f"]%byte.
Proof.
  split; [reflexivity|].
  eexists _, _. split; [vm_compute; reflexivity|].
  repeat split; vm_compute; reflexivity.
Qed.

(** ** Writes that reach the end of the ring *)

(** C2, at a piece that wraps past the end of the buffer.  4094 bytes "x"
    are written and 4090 of them consumed; "abcd" is then written, two
    bytes before the end of the 4096-byte ring.  Draining gives the four
    remaining "x" and then "abab", not "abcd": the part of the piece that
    goes to the start of the ring is copied from the start of the piece
    again. *)
Theorem circbuf_write_wrapped_piece_repeats_its_head :
  snd <$> run_ring wrap_ops empty_ring []
  = Some (replicate 4094 "x"%byte ++ ["a"; "b"; "a"; "b"]%byte).
Proof. vm_compute. reflexivity. Qed.

(** C3, at a write that fits the end of the ring exactly.  Two bytes
    are written, one consumed, and 4094 more written: the write cursor is
    left at 4096, the size of the ring, not wrapped to 0.  Consuming all
    4095 bytes then leaves the cursors at 0 and 4096, unequal, with
    [circbuf_avail_buf] at 2^32 - 1 and 4096 bytes described as readable. *)
Theorem circbuf_write_exact_fit_leaves_cursor_at_size :
  (λ r, (write_cursor r.1, read_cursor r.1, buf_size r.1))
    <$> run_ring exact_fit_ops empty_ring []
  = Some (4096, 1, 4096)
  ∧ (λ r, (write_cursor r.1, read_cursor r.1, buf_size r.1,
           circbuf_avail_buf r.1, circbuf_used r.1))
      <$> run_ring (exact_fit_ops ++ [advance_read 4095]) empty_ring []
    = Some (4096, 0, 4096, 4294967295, 4096).
Proof. split; vm_compute; reflexivity. Qed.

(** ** Traces and the lock order *)

Lemma lock_walk_app held t1 t2 :
  lock_walk held (t1 ++ t2) = lock_walk held t1 ≫= λ held', lock_walk held' t2.
Proof.
  revert held. induction t1 as [|e t1 IH]; intros held; [done|].
  destruct e; simpl; try apply IH.
  - destruct (may_acquire held l); [apply IH|done].
  - destruct held as [|h held]; [done|]. destruct (decide (h = l)); [apply IH|done].
Qed.

Lemma steps_here n n' held : trace n' = trace n → steps n n' held held.
Proof. intros Htr. exists []. by rewrite app_nil_r. Qed.

Lemma steps_trans n1 n2 n3 h1 h2 h3 :
  steps n1 n2 h1 h2 → steps n2 n3 h2 h3 → steps n1 n3 h1 h3.
Proof.
  intros (d1 & Ht1 & Hw1) (d2 & Ht2 & Hw2). exists (d1 ++ d2). split.
  - by rewrite Ht2, Ht1, app_assoc.
  - by rewrite lock_walk_app, Hw1.
Qed.

Lemma steps_lock n m h h1 l :
  steps n m h h1 → may_acquire h1 l = true →
  steps n (emit (Lock l) m) h (l :: h1).
Proof.
  intros Hs Hl. eapply steps_trans; [exact Hs|].
  exists [Lock l]. split; [done|]. simpl. by rewrite Hl.
Qed.

Lemma steps_unlock n m h h1 l :
  steps n m h (l :: h1) → steps n (emit (Unlock l) m) h h1.
Proof.
  intros Hs. eapply steps_trans; [exact Hs|].
  exists [Unlock l]. split; [done|]. simpl. by rewrite decide_True.
Qed.

Lemma steps_other n m h h1 e :
  steps n m h h1 → is_lock_op e = false → steps n (emit e m) h h1.
Proof.
  intros Hs He. eapply steps_trans; [exact Hs|].
  exists [e]. split; [done|]. by destruct e.
Qed.

Lemma steps_same_trace n m m' h h1 :
  steps n m h h1 → trace m' = trace m → steps n m' h h1.
Proof. intros (d & Ht & Hw) Htr. exists d. by rewrite Htr. Qed.

(** Peels the effects a term appends, last one first. *)
Ltac walk :=
  lazymatch goal with
  | H : steps ?n ?m ?h _ |- steps ?n ?m ?h _ => exact H
  | |- steps ?n ?n _ _ => by apply steps_here
  | |- steps _ (emit (Lock _) _) _ _ =>
      eapply steps_lock; [walk | reflexivity]
  | |- steps _ (emit (Unlock _) _) _ _ => eapply steps_unlock; walk
  | |- steps _ (emit _ _) _ _ => eapply steps_other; [walk | reflexivity]
  | |- steps _ (set_events _ ?m) _ _ =>
      eapply (steps_same_trace _ m); [walk | reflexivity]
  | |- steps _ (set_should_run _ ?m) _ _ =>
      eapply (steps_same_trace _ m); [walk | reflexivity]
  | |- steps _ (set_threads _ _ ?m) _ _ =>
      eapply (steps_same_trace _ m); [walk | reflexivity]
  | |- steps _ (set_conns _ _ ?m) _ _ =>
      eapply (steps_same_trace _ m); [walk | reflexivity]
  | |- steps _ (store_conn _ ?m) _ _ =>
      eapply (steps_same_trace _ m); [walk | reflexivity]
  end.

Lemma schedule_async_steps n m h h1 event_type watcher :
  steps n m h h1 → may_acquire h1 event_lock = true →
  steps n (schedule_async event_type watcher m) h h1.
Proof.
  intros Hs Hl. unfold schedule_async.
  eapply steps_other; [|done]. eapply steps_unlock.
  eapply steps_same_trace; [|reflexivity]. by eapply steps_lock.
Qed.

Lemma handle_async_events_steps n m h h1 l :
  steps n m h h1 → steps n (handle_async_events l m) h h1.
Proof.
  revert m. induction l as [|[[] [w|]] l IH]; intros m Hs; simpl; auto.
  all: apply IH; by eapply steps_other.
Qed.

Lemma handle_async_event_steps n m h h1 :
  steps n m h h1 → may_acquire h1 event_lock = true →
  steps n (handle_async_event m) h h1.
Proof.
  intros Hs Hl. unfold handle_async_event.
  eapply steps_unlock. eapply steps_same_trace; [|reflexivity].
  apply handle_async_events_steps. by eapply steps_lock.
Qed.

Lemma close_client_connection_steps n m h h1 conn :
  steps n m h h1 → steps n (close_client_connection conn m).2 h h1.
Proof. intros Hs. unfold close_client_connection. simpl.
  do 3 (eapply steps_other; [|done]). done. Qed.

Lemma set_client_sockopts_steps n m h h1 client_fd getfl setfl :
  steps n m h h1 →
  steps n (set_client_sockopts client_fd getfl setfl m).2 h h1.
Proof.
  intros Hs. unfold set_client_sockopts.
  repeat case_match; simpl; try done; by eapply steps_other.
Qed.

Lemma get_fd_conn_steps n m h client_fd conn m' :
  steps n m h [] → get_fd_conn client_fd m = Some (conn, m') →
  steps n m' h [].
Proof.
  intros Hs. unfold get_fd_conn. intros Hget.
  apply bind_Some in Hget as (m1 & Hm1 & Hget).
  assert (steps n m1 h []) as Hs1.
  { destruct (conn_list_size m <=? client_fd); [|by simplify_eq].
    apply bind_Some in Hm1 as (new_size & _ & [= <-]).
    eapply steps_unlock. eapply steps_same_trace; [|reflexivity].
    by eapply steps_lock. }
  destruct (mjoin (conns m1 !! Z.to_nat client_fd)); simplify_eq; [done|].
  by eapply steps_same_trace.
Qed.

Lemma handle_new_client_steps n m h listen_fd accepted getfl setfl m' :
  steps n m h [] →
  handle_new_client listen_fd accepted getfl setfl m = Some m' →
  steps n m' h [].
Proof.
  intros Hs. unfold handle_new_client.
  assert (steps n (emit (SysAccept listen_fd accepted) m) h []) as Hs1
    by (by eapply steps_other).
  destruct (accepted =? -1); [by intros [= <-]|].
  pose proof (set_client_sockopts_steps n _ h [] accepted getfl setfl Hs1) as Hs2.
  destruct (set_client_sockopts accepted getfl setfl _) as [res m2].
  simpl in Hs2. destruct (negb (res =? 0)); [by intros [= <-]|].
  intros Hget. apply bind_Some in Hget as ([conn m3] & Hget & [= <-]).
  apply schedule_async_steps; [|done].
  eapply (steps_same_trace _ m3); [|reflexivity].
  eapply get_fd_conn_steps; [exact Hs2|exact Hget].
Qed.

Lemma handle_client_data_steps n m h h1 watch_fd rv incoming conn :
  steps n m h h1 →
  steps n (handle_client_data watch_fd rv incoming conn m).2 h h1.
Proof.
  intros Hs. unfold handle_client_data. cbv zeta.
  set (conn1 := if _ <? _ then _ else conn). clearbody conn1.
  set (conn2 := set_input _ conn1). clearbody conn2.
  assert (steps n (emit (SysReadv watch_fd (ret rv)) m) h h1) as Hs1
    by (by eapply steps_other).
  repeat case_match; simpl; try done.
  all: match goal with
       | H : close_client_connection ?c ?m0 = (_, ?m1) |- _ =>
           pose proof (close_client_connection_steps n m0 h h1 c Hs1) as Hc;
           rewrite H in Hc; exact Hc
       end.
Qed.

Lemma handle_client_writebuf_steps n m h watch watch_fd wv conn :
  steps n m h [] →
  steps n (handle_client_writebuf watch watch_fd wv conn m).2 h [].
Proof.
  intros Hs.
  unfold handle_client_writebuf, close_client_connection, schedule_async.
  cbv zeta.
  destruct (ret wv =? 0); [|destruct (ret wv =? -1);
    [destruct (negb (errno wv =? EAGAIN) && negb (errno wv =? EINTR))|]];
    simpl; destruct (_ =? _); simpl; walk.
Qed.

Lemma send_client_response_direct_steps n m h r
    conn response_buffers buf_sizes num_bufs wv :
  steps n m h [] →
  send_client_response_direct conn response_buffers buf_sizes num_bufs wv m
  = Some r →
  steps n r.2 h [].
Proof.
  intros Hs. unfold send_client_response_direct. cbv zeta.
  set (m1 := emit (SysWritev _ _ _) m).
  assert (steps n m1 h []) as Hs1 by (subst m1; by eapply steps_other).
  clearbody m1.
  destruct (ret wv =? _); [by intros [= <-]|].
  destruct (_ && _).
  - pose proof (close_client_connection_steps n m1 h [] conn Hs1) as Hc.
    destruct (close_client_connection conn m1). by intros [= <-].
  - intros Hr. apply bind_Some in Hr as ([ok out] & _ & Hr). simpl in Hr.
    destruct ok; simplify_eq; simpl; [|done].
    by apply schedule_async_steps.
Qed.

Lemma send_client_response_buffered_steps n m h r
    conn response_buffers buf_sizes num_bufs wv :
  steps n m h [] →
  send_client_response_buffered conn response_buffers buf_sizes num_bufs wv m
  = Some r →
  steps n r.2 h [].
Proof.
  intros Hs. unfold send_client_response_buffered. cbv zeta.
  destruct (use_write_buf conn =? 0).
  - apply send_client_response_direct_steps.
    eapply steps_unlock. by eapply steps_lock.
  - intros Hr. apply bind_Some in Hr as ([res out] & _ & [= <-]). simpl.
    eapply steps_unlock. by eapply steps_lock.
Qed.

Lemma send_client_response_steps n m h r
    conn response_buffers buf_sizes num_bufs wv :
  steps n m h [] →
  send_client_response conn response_buffers buf_sizes num_bufs wv m = Some r →
  steps n r.2 h [].
Proof.
  intros Hs. unfold send_client_response.
  destruct (num_bufs <=? 0); [by intros [= <-]|].
  destruct (negb (use_write_buf conn =? 0));
    eauto using send_client_response_buffered_steps,
      send_client_response_direct_steps.
Qed.

Lemma ev_run_steps n m h ready data :
  steps n m h [leader_lock] →
  steps n (ev_run ready data m).2 h [leader_lock].
Proof.
  revert data m. induction ready as [|[w revents|] ready IH];
    intros data m Hs; simpl; [done| |].
  - apply IH. by eapply steps_other.
  - apply IH. by apply handle_async_event_steps.
Qed.

Lemma worker_turn_leader_steps n self registered t :
  steps n (worker_turn_leader self registered t n).2 [] [].
Proof.
  unfold worker_turn_leader. cbv zeta.
  set (n0 := if shutdown_while_waiting t then _ else n).
  assert (steps n n0 [] []) as Hs0.
  { subst n0. destruct (shutdown_while_waiting t); by apply steps_here. }
  clearbody n0.
  set (p := if registered =? 0 then _ else _).
  assert (steps n p.2 [] [leader_lock]) as Hs1.
  { subst p. destruct (registered =? 0); simpl.
    - eapply steps_same_trace; [|reflexivity]. by eapply steps_lock.
    - by eapply steps_lock. }
  clearbody p. destruct p as [registered' n1]. simpl in Hs1.
  destruct (should_run n1 =? 0); simpl; [by eapply steps_unlock|].
  pose proof (ev_run_steps n (emit EvRunOnce n1) [] (ev_ready t)
                (mk_userdata None 0)) as Hev.
  destruct (ev_run _ _ _) as [data n2]. simpl in *.
  eapply steps_unlock. apply Hev. by eapply steps_other.
Qed.

Section WorkerDiscipline.

Variable handle_client_connect :
  conn_info → bloom_networking → option (Z * conn_info * bloom_networking).

(** The request handler keeps the lock order: it starts and ends with no
    lock held. *)
Hypothesis handle_client_connect_disciplined :
  ∀ conn netconf r,
    handle_client_connect conn netconf = Some r → disciplined netconf r.2.

Lemma invoke_event_handler_steps n m data t m' :
  steps n m [] [] →
  invoke_event_handler handle_client_connect data t m = Some m' →
  steps n m' [] [].
Proof.
  intros Hs. unfold invoke_event_handler. intros Hinv.
  apply bind_Some in Hinv as (w & _ & Hinv).
  apply bind_Some in Hinv as (wfd & _ & Hinv).
  assert (∀ w',
    (conn ← watcher_conn w' m;
     if negb (Z.land (ready_events data) EV_WRITE =? 0)
     then let '(_, conn0, netconf) :=
            handle_client_writebuf w' wfd (k_writev t) conn m in
          Some (store_conn conn0 netconf)
     else let '(res, conn0, netconf) :=
            handle_client_data wfd (k_readv t) (k_incoming t) conn m in
          '(_, conn1, netconf0) ←
            (if res =? 0 then handle_client_connect conn0 netconf
             else Some (res, conn0, netconf));
          let netconf1 := store_conn conn1 netconf0 in
          if negb (should_schedule conn1 =? 0)
          then Some (schedule_async SCHEDULE_WATCHER (Some w') netconf1)
          else Some netconf1) = Some m' →
    steps n m' [] []) as Hconn.
  { intros w' Hc. apply bind_Some in Hc as (conn & _ & Hc).
    destruct (negb (Z.land _ _ =? 0)).
    - pose proof (handle_client_writebuf_steps n m [] w' wfd (k_writev t)
                    conn Hs) as Hw.
      destruct (handle_client_writebuf _ _ _ _ _) as [[res conn0] m0].
      simplify_eq. by eapply steps_same_trace.
    - pose proof (handle_client_data_steps n m [] [] wfd (k_readv t)
                    (k_incoming t) conn Hs) as Hd.
      destruct (handle_client_data _ _ _ _ _) as [[res conn0] m0].
      simpl in Hd. apply bind_Some in Hc as ([[res1 conn1] m1] & Hh & Hc).
      assert (steps n m1 [] []) as Hs1.
      { destruct (res =? 0); [|by simplify_eq].
        eapply steps_trans; [exact Hd|].
        exact (handle_client_connect_disciplined _ _ _ Hh). }
      cbv zeta in Hc.
      destruct (negb (should_schedule conn1 =? 0)); simplify_eq.
      + apply schedule_async_steps; [|done]. by eapply steps_same_trace.
      + by eapply steps_same_trace. }
  destruct w.
  - apply bind_Some in Hinv as (m1 & Hnew & [= <-]).
    apply schedule_async_steps; [|done].
    by eapply handle_new_client_steps.
  - by simplify_eq.
  - by apply (Hconn (conn_client conn)).
  - by apply (Hconn (conn_write_client conn)).
Qed.

Lemma worker_turn_steps n self registered t r :
  worker_turn handle_client_connect self registered t n = Some r →
  steps n r.2 [] [].
Proof.
  unfold worker_turn.
  pose proof (worker_turn_leader_steps n self registered t) as Hl.
  destruct (worker_turn_leader self registered t n)
    as [[[go_on registered'] data] n1]. simpl in Hl.
  destruct go_on; [|by intros [= <-]].
  destruct (ud_watcher data); [|by intros [= <-]].
  intros Hr. apply bind_Some in Hr as (n2 & Hinv & [= <-]). simpl.
  by eapply invoke_event_handler_steps.
Qed.

End WorkerDiscipline.

(** ** The recheck of should_run under the leader lock *)

(** The recheck in [networking.c]: the turn runs the event loop exactly
    when [should_run] is still set once the leader lock is held.  With the
    flag cleared it only takes and releases the lock and leaves the loop;
    with the flag set it enters [ev_run] under the lock and goes on. *)
Theorem worker_turn_leader_recheck self registered t netconf :
  let seen := if shutdown_while_waiting t then 0 else should_run netconf in
  let '(go_on, _, _, netconf') := worker_turn_leader self registered t netconf in
  (seen = 0 →
     go_on = false
     ∧ trace netconf' = trace netconf ++ [Lock leader_lock; Unlock leader_lock])
  ∧ (seen ≠ 0 →
     go_on = true
     ∧ ∃ callbacks,
         trace netconf'
         = trace netconf ++ [Lock leader_lock; EvRunOnce] ++ callbacks
             ++ [Unlock leader_lock]).
Proof.
  unfold worker_turn_leader. cbv zeta.
  set (n0 := if shutdown_while_waiting t then set_should_run 0 netconf
             else netconf).
  assert (Htr : trace n0 = trace netconf)
    by (subst n0; by destruct (shutdown_while_waiting t)).
  assert (Hrun : should_run n0
                 = if shutdown_while_waiting t then 0 else should_run netconf)
    by (subst n0; by destruct (shutdown_while_waiting t)).
  clearbody n0. rewrite <- Hrun.
  set (p := if registered =? 0 then _ else _).
  assert (Hp : should_run p.2 = should_run n0
               ∧ trace p.2 = trace netconf ++ [Lock leader_lock]).
  { subst p. destruct (registered =? 0); simpl; by rewrite Htr. }
  clearbody p. destruct p as [registered' n1]. simpl in Hp.
  destruct Hp as [Hrun1 Htr1]. rewrite Hrun1.
  destruct (should_run n0 =? 0) eqn:Hseen.
  - apply Z.eqb_eq in Hseen. split; [|done]. intros _. split; [done|].
    simpl. by rewrite Htr1, <- app_assoc.
  - apply Z.eqb_neq in Hseen.
    destruct (ev_run_steps (emit EvRunOnce n1) (emit EvRunOnce n1)
                [leader_lock] (ev_ready t) (mk_userdata None 0))
      as (callbacks & Hcb & _); [by apply steps_here|].
    destruct (ev_run _ _ _) as [data n2]. simpl in Hcb.
    split; [done|]. intros _. split; [done|]. exists callbacks.
    simpl. rewrite Hcb. simpl. rewrite Htr1. by rewrite <- !app_assoc.
Qed.

(** C6, in the older worker loop.  There the test after the lock is
    [if (netconf->should_run)]: with the flag set the worker releases the
    lock and leaves the loop without running the event loop, and with the
    flag cleared while it waited it runs the event loop and goes on.  At
    the context [init_networking] leaves ([should_run] is 1) the first
    turn ends the worker. *)
Theorem legacy_worker_turn_rechecks_inverted :
  (∀ self registered data (shutdown : bool) ready netconf,
     let seen := if shutdown then 0 else Legacy.should_run netconf in
     let '(go_on, _, _, netconf') :=
       Legacy.worker_turn self registered data shutdown ready netconf in
     (seen ≠ 0 →
        go_on = false
        ∧ Legacy.trace netconf'
          = Legacy.trace netconf ++ [Lock leader_lock; Unlock leader_lock])
     ∧ (seen = 0 →
        go_on = true
        ∧ take 2 (drop (length (Legacy.trace netconf)) (Legacy.trace netconf'))
          = [Lock leader_lock; EvRunOnce]))
  ∧ Legacy.worker_turn 1 0 (mk_userdata None 0) false [(tcp_client, EV_READ)]
      legacy_fresh_netconf
    = (false, 1, mk_userdata None 0,
       Legacy.mk_netconf 1 1 [1; 0; 0; 0]
         [Lock leader_lock; Unlock leader_lock]).
Proof.
  split; [|reflexivity].
  intros self registered data shutdown ready netconf.
  unfold Legacy.worker_turn. cbv zeta.
  set (n0 := if shutdown then Legacy.set_should_run 0 netconf else netconf).
  assert (Htr : Legacy.trace n0 = Legacy.trace netconf)
    by (subst n0; by destruct shutdown).
  assert (Hrun : Legacy.should_run n0
                 = if shutdown then 0 else Legacy.should_run netconf)
    by (subst n0; by destruct shutdown).
  clearbody n0. rewrite <- Hrun.
  set (p := if registered =? 0 then _ else _).
  assert (Hp : Legacy.should_run p.2 = Legacy.should_run n0
               ∧ Legacy.trace p.2 = Legacy.trace netconf ++ [Lock leader_lock]).
  { subst p. destruct (registered =? 0); simpl; by rewrite Htr. }
  clearbody p. destruct p as [registered' n1]. simpl in Hp.
  destruct Hp as [Hrun1 Htr1]. rewrite Hrun1.
  destruct (Legacy.should_run n0 =? 0) eqn:Hseen; simpl.
  - apply Z.eqb_eq in Hseen.
    assert (∀ ready d n, ∃ rest,
              Legacy.trace (Legacy.ev_run ready d n).2
              = Legacy.trace n ++ rest) as Hev.
    { clear. induction ready as [|[w rev] ready IH]; intros d n; simpl.
      - exists []. by rewrite app_nil_r.
      - destruct (IH (mk_userdata (Some w) rev) (Legacy.emit (EvIoStop w) n))
          as [rest Hrest].
        eexists. rewrite Hrest. simpl. by rewrite <- app_assoc. }
    destruct (Hev ready data (Legacy.emit EvRunOnce n1)) as [rest Hrest].
    destruct (Legacy.ev_run _ _ _) as [data' n2]. simpl in Hrest.
    split; [done|]. intros _. split; [done|].
    unfold Legacy.invoke_event_handler. simpl. rewrite Hrest. simpl.
    rewrite Htr1, <- !app_assoc. by rewrite drop_app_length.
  - apply Z.eqb_neq in Hseen. split; [|done]. intros _. split; [done|].
    simpl. by rewrite Htr1, <- app_assoc.
Qed.

(** ** Draining the output ring *)

(** C7. When the write watcher of a connection fires and [writev]
    reports [n > 0] bytes written, [handle_client_writebuf] moves the read
    cursor of the output ring forward by [n], modulo the size of the ring.
    If that makes the cursors meet (the ring is empty), both are reset to
    0, [use_write_buf] is cleared and the command queue is left as it was;
    otherwise the write cursor and [use_write_buf] are unchanged and one
    SCHEDULE_WATCHER command for the write watcher is put at the head of
    the queue.  This holds whatever [use_write_buf] was, in particular
    when it was set. *)
Theorem handle_client_writebuf_advances_read_cursor :
  ∀ conn netconf n e,
    0 < n < 2 ^ 63 →
    0 ≤ read_cursor (output conn) < 2 ^ 31 →
    0 < buf_size (output conn) ≤ 2 ^ 31 →
    let watch := conn_write_client (conn_addr conn) in
    let r' := (read_cursor (output conn) + n) mod buf_size (output conn) in
    ∃ conn' netconf',
      handle_client_writebuf watch (fd (write_client conn)) (mk_sysret n e)
        conn netconf = (0, conn', netconf')
      ∧ if decide (r' = write_cursor (output conn)) then
          read_cursor (output conn') = 0
          ∧ write_cursor (output conn') = 0
          ∧ use_write_buf conn' = 0
          ∧ events netconf' = events netconf
        else
          read_cursor (output conn') = r'
          ∧ write_cursor (output conn') = write_cursor (output conn)
          ∧ use_write_buf conn' = use_write_buf conn
          ∧ events netconf'
            = mk_async_event SCHEDULE_WATCHER (Some watch) :: events netconf.
Proof.
  intros conn netconf n e Hn Hr Hsize watch r'.
  unfold handle_client_writebuf. cbv zeta. simpl ret.
  assert ((n =? 0) = false) as -> by lia.
  assert ((n =? -1) = false) as -> by lia.
  assert (0 ≤ r' < buf_size (output conn)) as Hr'
    by (apply Z.mod_pos_bound; lia).
  assert (to_int (to_u64 (read_cursor (output conn) + to_u64 n)
                  mod buf_size (output conn)) = r') as Hcur.
  { rewrite (to_u64_small n) by lia. rewrite to_u64_small by lia.
    apply to_int_small. lia. }
  unfold circbuf_advance_read. cbv zeta. rewrite Hcur.
  destruct (decide (r' = write_cursor (output conn))) as [Heq|Hne].
  - rewrite (proj2 (Z.eqb_eq _ _) Heq). simpl.
    eexists _, _. split; [reflexivity|]. done.
  - rewrite (proj2 (Z.eqb_neq _ _) Hne). simpl.
    rewrite (proj2 (Z.eqb_neq _ _) Hne). simpl.
    eexists _, _. split; [reflexivity|]. done.
Qed.

Lemma handle_client_writebuf_advances_read_cursor_witness :
  (0 < 1 < 2 ^ 63
   ∧ 0 ≤ read_cursor (output backlogged_conn) < 2 ^ 31
   ∧ 0 < buf_size (output backlogged_conn) ≤ 2 ^ 31)
  ∧ ∃ conn' netconf',
      handle_client_writebuf (conn_write_client 7) 7 (mk_sysret 1 0)
        backlogged_conn fresh_netconf = (0, conn', netconf')
      ∧ read_cursor (output conn') = 1
      ∧ write_cursor (output conn') = 2
      ∧ use_write_buf conn' = 1
      ∧ events netconf'
        = [mk_async_event SCHEDULE_WATCHER (Some (conn_write_client 7))].
Proof.
  split; [vm_compute; intuition congruence|].
  apply (handle_client_writebuf_advances_read_cursor backlogged_conn
           fresh_netconf 1 0); vm_compute; intuition congruence.
Defined.

(** ** Reuse of a connection record *)

Lemma init_circular_buffer_cursors buf :
  read_cursor (init_circular_buffer buf) = 0
  ∧ write_cursor (init_circular_buffer buf) = 0.
Proof. unfold init_circular_buffer. by destruct (buffer buf). Qed.

Lemma init_circular_buffer_allocation buf :
  match buffer buf with
  | Some mem =>
      buffer (init_circular_buffer buf) = Some mem
      ∧ buf_size (init_circular_buffer buf) = buf_size buf
  | None =>
      buffer (init_circular_buffer buf) = Some (malloc INIT_CONN_BUF_SIZE)
      ∧ buf_size (init_circular_buffer buf) = INIT_CONN_BUF_SIZE
  end.
Proof. unfold init_circular_buffer. by destruct (buffer buf). Qed.

(** C10. When [accept] hands out a descriptor whose slot of the table
    already holds a record, [handle_new_client] sets the cursors of both
    rings to 0, keeps each allocation that is still there (with its size)
    and allocates the initial 4096 bytes where it was freed, and marks the
    record schedulable; [use_write_buf] is what it was before, and
    [close_client_connection] does not change it either.  So a connection
    accepted on the descriptor of one that was closed in the buffered state
    starts in the buffered state. *)
Theorem handle_new_client_keeps_use_write_buf :
  (∀ conn netconf,
     use_write_buf (close_client_connection conn netconf).1
     = use_write_buf conn)
  ∧ ∀ listen_fd client_fd getfl conn netconf,
      0 ≤ client_fd < conn_list_size netconf →
      0 ≤ getfl →
      conns netconf !! Z.to_nat client_fd = Some (Some conn) →
      conn_addr conn = client_fd →
      ∃ conn' netconf',
        handle_new_client listen_fd client_fd getfl 0 netconf = Some netconf'
        ∧ conns netconf' !! Z.to_nat client_fd = Some (Some conn')
        ∧ use_write_buf conn' = use_write_buf conn
        ∧ should_schedule conn' = 1
        ∧ (∀ ring_of : conn_info → circular_buffer,
             ring_of = input ∨ ring_of = output →
             read_cursor (ring_of conn') = 0
             ∧ write_cursor (ring_of conn') = 0
             ∧ match buffer (ring_of conn) with
               | Some mem =>
                   buffer (ring_of conn') = Some mem
                   ∧ buf_size (ring_of conn') = buf_size (ring_of conn)
               | None =>
                   buffer (ring_of conn') = Some (malloc INIT_CONN_BUF_SIZE)
                   ∧ buf_size (ring_of conn') = INIT_CONN_BUF_SIZE
               end).
Proof.
  split; [done|].
  intros listen_fd client_fd getfl conn netconf Hfd Hgetfl Hslot Haddr.
  unfold handle_new_client. cbv zeta.
  assert ((client_fd =? -1) = false) as -> by lia.
  unfold set_client_sockopts.
  assert ((getfl <? 0) = false) as -> by lia. simpl.
  unfold get_fd_conn. cbn [conn_list_size emit].
  assert ((conn_list_size netconf <=? client_fd) = false) as -> by lia.
  simpl. rewrite Hslot. simpl.
  eexists _, _. split; [reflexivity|]. simpl. rewrite Haddr.
  split.
  { apply list_lookup_insert_eq. by eapply lookup_lt_Some. }
  split; [done|]. split; [done|].
  intros ring_of [-> | ->]; simpl;
    (split; [apply init_circular_buffer_cursors|]);
    (split; [apply init_circular_buffer_cursors|]);
    apply init_circular_buffer_allocation.
Qed.

Lemma handle_new_client_keeps_use_write_buf_witness :
  (0 ≤ 7 < conn_list_size netconf_with_stale_conn
   ∧ 0 ≤ 2
   ∧ conns netconf_with_stale_conn !! Z.to_nat 7 = Some (Some stale_conn)
   ∧ conn_addr stale_conn = 7)
  ∧ ∃ conn' netconf',
      handle_new_client 3 7 2 0 netconf_with_stale_conn = Some netconf'
      ∧ conns netconf' !! Z.to_nat 7 = Some (Some conn')
      ∧ use_write_buf conn' = 1
      ∧ should_schedule conn' = 1
      ∧ readable (output conn') = []
      ∧ buf_size (output conn') = 4096.
Proof.
  assert (0 ≤ 7 < conn_list_size netconf_with_stale_conn) as H1
    by (vm_compute; split; congruence).
  assert (conns netconf_with_stale_conn !! Z.to_nat 7 = Some (Some stale_conn))
    as H2 by (vm_compute; reflexivity).
  assert (conn_addr stale_conn = 7) as H3 by reflexivity.
  split; [repeat split; try assumption; try apply H1; lia|].
  destruct (proj2 handle_new_client_keeps_use_write_buf 3 7 2 stale_conn
              netconf_with_stale_conn H1 ltac:(lia) H2 H3)
    as (conn' & netconf' & Hnew & Hslot & Hbuf & Hsched & Hrings).
  destruct (Hrings output (or_intror eq_refl)) as (Hr & Hw & Halloc).
  exists conn', netconf'. repeat split; try assumption.
  - unfold readable, circbuf_setup_writev_iovec. by rewrite Hr, Hw.
  - by destruct Halloc as [_ ->].
Defined.

(** ** Framing on a terminator *)

Lemma ring_ok_ring buf :
  ring_ok buf →
  ∃ W R mem, buf = ring W R mem
    ∧ (R ≤ length mem)%nat ∧ (W ≤ length mem)%nat
    ∧ (0 < length mem)%nat ∧ Z.of_nat (length mem) ≤ INT_MAX.
Proof.
  intros (mem & Hbuf & Hlen & Hsize & Hr & Hw).
  exists (Z.to_nat (write_cursor buf)), (Z.to_nat (read_cursor buf)), mem.
  destruct buf as [w r size b]. simpl in *. subst b. unfold ring.
  rewrite !Z2Nat.id by lia. rewrite Hlen. repeat split; try lia.
Qed.

Lemma mem_read_nat mem (off n : nat) :
  mem_read mem (Z.of_nat off) (Z.of_nat n) = take n (drop off mem).
Proof. unfold mem_read. by rewrite !Nat2Z.id. Qed.

Lemma readable_nowrap W R mem :
  (R ≤ W)%nat → Z.of_nat W ≤ INT_MAX →
  readable (ring W R mem) = take (W - R) (drop R mem).
Proof.
  intros HRW HW. unfold readable, circbuf_setup_writev_iovec, ring. simpl.
  assert ((Z.of_nat W <? Z.of_nat R) = false) as -> by lia.
  unfold gather. simpl. rewrite app_nil_r.
  unfold INT_MAX in HW.
  rewrite to_int_small, to_u64_small by lia.
  replace (Z.of_nat W - Z.of_nat R) with (Z.of_nat (W - R)) by lia.
  apply mem_read_nat.
Qed.

Lemma readable_wrap W R mem :
  (W < R)%nat → (R ≤ length mem)%nat → Z.of_nat (length mem) ≤ INT_MAX →
  readable (ring W R mem) = drop R mem ++ take W mem.
Proof.
  intros HWR HR HL. unfold readable, circbuf_setup_writev_iovec, ring. simpl.
  assert ((Z.of_nat W <? Z.of_nat R) = true) as -> by lia.
  unfold gather. simpl. rewrite app_nil_r.
  unfold INT_MAX in HL.
  rewrite to_u32_small, !to_u64_small by lia.
  replace (Z.of_nat (length mem) - Z.of_nat R)
    with (Z.of_nat (length mem - R)) by lia.
  rewrite mem_read_nat. unfold mem_read, buf_mem. rewrite Nat2Z.id. simpl.
  by rewrite take_ge by (rewrite length_drop; lia).
Qed.

Lemma memchr_nat mem (off n : nat) c :
  memchr mem (Z.of_nat off) c (Z.of_nat n)
  = (λ hit, Z.of_nat (off + hit.1))
      <$> list_find (λ b, b = c) (take n (drop off mem)).
Proof.
  unfold memchr. rewrite mem_read_nat.
  destruct (list_find _ _) as [[k x]|]; simpl; [|done]. f_equal. lia.
Qed.

Lemma insert_take_S {A} (l : list A) p x y :
  l !! p = Some x → <[p := y]> (take (S p) l) = take p l ++ [y].
Proof.
  intros Hp. rewrite (take_S_r _ _ _ Hp).
  assert (length (take p l) = p) as Hlen.
  { apply length_take_le. apply lookup_lt_Some in Hp. lia. }
  rewrite insert_app_r_alt by lia. by rewrite Hlen, Nat.sub_diag.
Qed.

Lemma first_occurrence (l : list byte) p c :
  l !! p = Some c → c ∉ take p l →
  list_find (λ b, b = c) l = Some (p, c).
Proof.
  intros Hp Hpre. apply list_find_Some. split_and!; [done..|].
  intros j y Hj Hlt ->. apply Hpre. apply elem_of_take. eauto.
Qed.
Lemma store_byte_ring W R mem (a : nat) b :
  store_byte (ring W R mem) (Z.of_nat a) b = ring W R (<[a := b]> mem).
Proof.
  unfold store_byte, with_mem, ring. simpl.
  by rewrite Nat2Z.id, length_insert.
Qed.

Lemma set_read_cursor_ring W R mem (R' : nat) :
  set_read_cursor (Z.of_nat R') (ring W R mem) = ring W R' mem.
Proof. done. Qed.

Lemma reset_if_caught_up_ring W R mem :
  reset_if_caught_up (ring W R mem)
  = if decide (R = W) then ring 0 0 mem else ring W R mem.
Proof.
  unfold reset_if_caught_up, ring. simpl.
  destruct (decide (R = W)) as [->|Hne].
  - by rewrite Z.eqb_refl.
  - by assert ((Z.of_nat R =? Z.of_nat W) = false) as -> by lia.
Qed.

Lemma extract_nowrap W R mem T p :
  (R ≤ W ≤ length mem)%nat → Z.of_nat (length mem) ≤ INT_MAX →
  list_find (λ b, b = T) (take (W - R) (drop R mem)) = Some (p, T) →
  extract_to_terminator_input (ring W R mem) T
  = (0, Some (mk_frame (take p (drop R mem) ++ [x00]) (Z.of_nat p + 1) 0),
     if decide (R + p + 1 = W)%nat then ring 0 0 (<[(R + p)%nat := x00]> mem)
     else ring W (R + p + 1) (<[(R + p)%nat := x00]> mem)).
Proof.
  intros HRW HL Hfind. unfold INT_MAX in HL.
  pose proof Hfind as (Hp & _ & _)%list_find_Some.
  apply lookup_take_Some in Hp as [Hp HpW].
  unfold extract_to_terminator_input.
  change (read_cursor (ring W R mem)) with (Z.of_nat R).
  change (write_cursor (ring W R mem)) with (Z.of_nat W).
  change (buf_mem (ring W R mem)) with mem.
  assert ((Z.of_nat W <? Z.of_nat R) = false) as -> by lia.
  rewrite to_int_small, to_u64_small by lia.
  replace (Z.of_nat W - Z.of_nat R) with (Z.of_nat (W - R)) by lia.
  rewrite memchr_nat, Hfind. cbn [fmap option_fmap option_map fst].
  replace (Z.of_nat (R + p) - Z.of_nat R + 1) with (Z.of_nat (S p)) by lia.
  replace (Z.of_nat (R + p) + 1) with (Z.of_nat (R + p + 1)) by lia.
  rewrite !to_int_small by lia.
  rewrite store_byte_ring, set_read_cursor_ring, reset_if_caught_up_ring.
  change (buf_mem (ring W R (<[(R + p)%nat:=x00]> mem)))
    with (<[(R + p)%nat:=x00]> mem).
  rewrite mem_read_nat.
  rewrite drop_insert_ge by lia. rewrite take_insert_lt by lia.
  replace (R + p - R)%nat with p by lia.
  rewrite (insert_take_S _ _ _ _ Hp).
  repeat f_equal. lia.
Qed.

Lemma memchr_nat0 mem (n : nat) c :
  memchr mem 0 c (Z.of_nat n)
  = (λ hit, Z.of_nat hit.1) <$> list_find (λ b, b = c) (take n mem).
Proof. exact (memchr_nat mem 0 n c). Qed.

Lemma extract_tail W R mem T p :
  (W < R ≤ length mem)%nat → Z.of_nat (length mem) ≤ INT_MAX →
  list_find (λ b, b = T) (drop R mem) = Some (p, T) →
  extract_to_terminator_input (ring W R mem) T
  = (0, Some (mk_frame (take p (drop R mem) ++ [x00]) (Z.of_nat p + 1) 0),
     ring W (R + p + 1) (<[(R + p)%nat := x00]> mem)).
Proof.
  intros HWR HL Hfind. unfold INT_MAX in HL.
  pose proof Hfind as (Hp & _ & _)%list_find_Some.
  pose proof (lookup_lt_Some _ _ _ Hp) as HpL. rewrite length_drop in HpL.
  unfold extract_to_terminator_input.
  change (read_cursor (ring W R mem)) with (Z.of_nat R).
  change (write_cursor (ring W R mem)) with (Z.of_nat W).
  change (buf_size (ring W R mem)) with (Z.of_nat (length mem)).
  change (buf_mem (ring W R mem)) with mem.
  assert ((Z.of_nat W <? Z.of_nat R) = true) as -> by lia.
  rewrite to_u32_small, to_u64_small by lia.
  replace (Z.of_nat (length mem) - Z.of_nat R)
    with (Z.of_nat (length mem - R)) by lia.
  rewrite memchr_nat.
  rewrite (take_ge (drop R mem)) by (rewrite length_drop; lia).
  rewrite Hfind. cbn [fmap option_fmap option_map fst].
  replace (Z.of_nat (R + p) - Z.of_nat R + 1) with (Z.of_nat (S p)) by lia.
  replace (Z.of_nat (R + p) + 1) with (Z.of_nat (R + p + 1)) by lia.
  rewrite !to_int_small by lia.
  rewrite store_byte_ring, set_read_cursor_ring.
  change (buf_mem (ring W R (<[(R + p)%nat:=x00]> mem)))
    with (<[(R + p)%nat:=x00]> mem).
  rewrite mem_read_nat.
  rewrite drop_insert_ge by lia. rewrite take_insert_lt by lia.
  replace (R + p - R)%nat with p by lia.
  rewrite (insert_take_S _ _ _ _ Hp).
  repeat f_equal. lia.
Qed.

Lemma extract_head W R mem T k :
  (W < R ≤ length mem)%nat → Z.of_nat (length mem) ≤ INT_MAX →
  list_find (λ b, b = T) (drop R mem) = None →
  list_find (λ b, b = T) (take W mem) = Some (k, T) →
  extract_to_terminator_input (ring W R mem) T
  = (0,
     Some (mk_frame (drop R mem ++ take k mem ++ [x00])
             (Z.of_nat (length mem - R + k) + 1) 1),
     if decide (k + 1 = W)%nat then ring 0 0 (<[k := x00]> mem)
     else ring W (k + 1) (<[k := x00]> mem)).
Proof.
  intros HWR HL Htail Hfind. unfold INT_MAX in HL.
  pose proof Hfind as (Hk & _ & _)%list_find_Some.
  apply lookup_take_Some in Hk as [Hk HkW].
  unfold extract_to_terminator_input.
  change (read_cursor (ring W R mem)) with (Z.of_nat R).
  change (write_cursor (ring W R mem)) with (Z.of_nat W).
  change (buf_size (ring W R mem)) with (Z.of_nat (length mem)).
  change (buf_mem (ring W R mem)) with mem.
  assert ((Z.of_nat W <? Z.of_nat R) = true) as -> by lia.
  rewrite to_u32_small, !to_u64_small by lia.
  replace (Z.of_nat (length mem) - Z.of_nat R)
    with (Z.of_nat (length mem - R)) by lia.
  rewrite memchr_nat.
  rewrite (take_ge (drop R mem)) by (rewrite length_drop; lia).
  rewrite Htail. cbn [fmap option_fmap option_map].
  rewrite memchr_nat0, Hfind.
  cbn [fmap option_fmap option_map fst].
  replace (Z.of_nat k + 1) with (Z.of_nat (k + 1)) by lia.
  rewrite (to_int_small (Z.of_nat (k + 1))) by lia.
  rewrite (to_int_small (Z.of_nat (length mem - R))) by lia.
  rewrite store_byte_ring, set_read_cursor_ring, reset_if_caught_up_ring.
  change (buf_mem (ring W R (<[k:=x00]> mem))) with (<[k:=x00]> mem).
  replace (Z.of_nat (k + 1) + Z.of_nat (length mem - R))
    with (Z.of_nat ((length mem - R) + (k + 1))) by lia.
  rewrite !to_int_small by lia.
  unfold malloc, memcpy. rewrite !Nat2Z.id.
  rewrite replicate_add.
  rewrite (take_ge (drop R mem)) by (rewrite length_drop; lia).
  rewrite list_inserts_0_r
    by (rewrite length_drop, length_replicate; lia).
  replace (length mem - R)%nat with (length (drop R mem) + 0)%nat at 1
    by (rewrite length_drop; lia).
  rewrite list_inserts_app_r.
  rewrite <- (app_nil_r (replicate (k + 1) x00)).
  rewrite list_inserts_0_r.
  2:{ rewrite length_take, length_insert, length_replicate. lia. }
  rewrite app_nil_r.
  replace (k + 1)%nat with (S k) by lia.
  rewrite take_insert_lt by lia. rewrite (insert_take_S _ _ _ _ Hk).
  repeat f_equal. lia.
Qed.

Lemma extract_none W R mem T :
  (R ≤ length mem)%nat → (W ≤ length mem)%nat →
  Z.of_nat (length mem) ≤ INT_MAX →
  T ∉ readable (ring W R mem) →
  extract_to_terminator_input (ring W R mem) T
  = (-1, None, if decide (R = W) then ring 0 0 mem else ring W R mem).
Proof.
  intros HR HW HL Habs. pose proof HL as HL'. unfold INT_MAX in HL.
  assert (∀ l : list byte, T ∉ l → list_find (λ b, b = T) l = None) as Hnone.
  { intros l Hl. apply list_find_None, Forall_forall.
    intros x Hx Heq. apply Hl, list_elem_of_In. by subst. }
  unfold extract_to_terminator_input.
  change (read_cursor (ring W R mem)) with (Z.of_nat R).
  change (write_cursor (ring W R mem)) with (Z.of_nat W).
  change (buf_size (ring W R mem)) with (Z.of_nat (length mem)).
  change (buf_mem (ring W R mem)) with mem.
  destruct (decide (W < R)%nat) as [HWR|HWR].
  - rewrite readable_wrap in Habs by (done || lia).
    apply not_elem_of_app in Habs as [Htail Hhead].
    assert ((Z.of_nat W <? Z.of_nat R) = true) as -> by lia.
    rewrite to_u32_small, !to_u64_small by lia.
    replace (Z.of_nat (length mem) - Z.of_nat R)
      with (Z.of_nat (length mem - R)) by lia.
    rewrite memchr_nat.
    rewrite (take_ge (drop R mem)) by (rewrite length_drop; lia).
    rewrite (Hnone _ Htail). cbn [fmap option_fmap option_map].
    rewrite memchr_nat0, (Hnone _ Hhead).
    cbn [fmap option_fmap option_map].
    by rewrite reset_if_caught_up_ring.
  - rewrite readable_nowrap in Habs by lia.
    assert ((Z.of_nat W <? Z.of_nat R) = false) as -> by lia.
    rewrite to_int_small, to_u64_small by lia.
    replace (Z.of_nat W - Z.of_nat R) with (Z.of_nat (W - R)) by lia.
    rewrite memchr_nat, (Hnone _ Habs). cbn [fmap option_fmap option_map].
    by rewrite reset_if_caught_up_ring.
Qed.

Lemma extract_found_ring W R mem T p :
  (R ≤ length mem)%nat → (W ≤ length mem)%nat → (0 < length mem)%nat →
  Z.of_nat (length mem) ≤ INT_MAX →
  readable (ring W R mem) !! p = Some T →
  T ∉ take p (readable (ring W R mem)) →
  ∃ out inp',
    extract_to_terminator_input (ring W R mem) T = (0, Some out, inp')
    ∧ buf_len out = Z.of_nat p + 1
    ∧ frame_buf out = take p (readable (ring W R mem)) ++ [x00]
    ∧ readable inp' = drop (S p) (readable (ring W R mem))
    ∧ ((read_cursor inp' mod Z.of_nat (length mem)
        = (Z.of_nat R + Z.of_nat p + 1) mod Z.of_nat (length mem)
        ∧ write_cursor inp' = Z.of_nat W)
       ∨ (read_cursor inp' = 0 ∧ write_cursor inp' = 0
          ∧ drop (S p) (readable (ring W R mem)) = [])).
Proof.
  intros HR HW HL0 HL Hp Hpre.
  pose proof (first_occurrence _ _ _ Hp Hpre) as Hfind.
  assert (∀ i (m : list byte),
            length (<[i := x00]> m) = length m) as Hlen
    by (intros; apply length_insert).
  destruct (decide (W < R)%nat) as [HWR|HWR].
  - rewrite readable_wrap in * by (done || lia).
    apply list_find_app_Some in Hfind as [Htail|(Hge & Htail & Hhead)].
    + pose proof Htail as (Hpt & _ & _)%list_find_Some.
      pose proof (lookup_lt_Some _ _ _ Hpt) as HpL. rewrite length_drop in HpL.
      eexists _, _. split; [by apply extract_tail|]. cbn [buf_len frame_buf].
      split; [done|]. split.
      { by rewrite take_app_le by (rewrite length_drop; lia). }
      split.
      { rewrite readable_wrap by (rewrite ?Hlen; lia || done).
        rewrite drop_insert_lt by lia. rewrite take_insert_ge by lia.
        rewrite drop_app_le by (rewrite length_drop; lia).
        rewrite drop_drop. do 2 f_equal; lia. }
      left. split; [|done]. simpl. f_equal. lia.
    + rewrite length_drop in Hge, Hhead.
      pose proof Hhead as (Hk & _ & _)%list_find_Some.
      apply lookup_take_Some in Hk as [Hk HkW].
      set (k := (p - (length mem - R))%nat) in *.
      eexists _, _. split; [by apply extract_head|]. cbn [buf_len frame_buf].
      split; [lia|]. split.
      { rewrite take_app_ge by (rewrite length_drop; lia).
        rewrite length_drop, take_take. fold k.
        rewrite Nat.min_l by lia. by rewrite <- app_assoc. }
      rewrite drop_app_ge by (rewrite length_drop; lia). rewrite length_drop.
      replace (S p - (length mem - R))%nat with (S k) by lia.
      destruct (decide (k + 1 = W)%nat) as [Heq|Hne].
      * assert (drop (S k) (take W mem) = []) as Hempty
          by (apply drop_ge; rewrite length_take; lia).
        split; [|by right].
        rewrite readable_nowrap by (simpl; lia). by rewrite Hempty.
      * split.
        { rewrite readable_nowrap by (unfold INT_MAX in *; lia).
          rewrite drop_insert_lt by lia.
          rewrite take_drop_commute. do 2 f_equal; lia. }
        left. split; [|done]. simpl.
        replace (Z.of_nat R + Z.of_nat p + 1)
          with (Z.of_nat (k + 1) + 1 * Z.of_nat (length mem)) by lia.
        by rewrite Z_mod_plus_full.
  - rewrite readable_nowrap in * by (unfold INT_MAX in *; lia).
    pose proof Hfind as (Hpt & _ & _)%list_find_Some.
    apply lookup_take_Some in Hpt as [Hpt HpW].
    eexists _, _. split; [apply extract_nowrap; done || lia|].
    cbn [buf_len frame_buf].
    split; [done|]. split.
    { rewrite take_take. by rewrite Nat.min_l by lia. }
    destruct (decide (R + p + 1 = W)%nat) as [Heq|Hne].
    + assert (drop (S p) (take (W - R) (drop R mem)) = []) as Hempty
        by (apply drop_ge; rewrite length_take, length_drop; lia).
      split; [|by right].
      rewrite readable_nowrap by (simpl; lia). by rewrite Hempty.
    + split.
      { rewrite readable_nowrap by (unfold INT_MAX in *; lia).
        rewrite drop_insert_lt by lia.
        replace (R + p + 1)%nat with (R + S p)%nat by lia.
        rewrite <- drop_drop, take_drop_commute. do 2 f_equal; lia. }
      left. split; [|done]. simpl. f_equal. lia.
Qed.

(** C4. If the readable content of the input ring holds the terminator
    [T] first at offset [p] from the read cursor, wrapped or not,
    [extract_to_terminator] answers 0, sets [*buf_len] to [p + 1], and the
    buffer it hands out holds the [p] bytes before the terminator followed
    by a null byte.  Afterwards the readable content is what followed the
    terminator, so the next extraction starts at offset [p + 1]: the read
    cursor is there (modulo the size of the ring) with the write cursor
    where it was, or, when nothing is left, both cursors are 0. *)
Theorem extract_to_terminator_first_frame :
  ∀ conn T (p : nat),
    ring_ok (input conn) →
    readable (input conn) !! p = Some T →
    T ∉ take p (readable (input conn)) →
    ∃ out conn',
      extract_to_terminator conn T = (0, Some out, conn')
      ∧ buf_len out = Z.of_nat p + 1
      ∧ frame_buf out = take p (readable (input conn)) ++ [x00]
      ∧ readable (input conn') = drop (S p) (readable (input conn))
      ∧ ((read_cursor (input conn') mod buf_size (input conn)
          = (read_cursor (input conn) + Z.of_nat p + 1)
              mod buf_size (input conn)
          ∧ write_cursor (input conn') = write_cursor (input conn))
         ∨ (read_cursor (input conn') = 0 ∧ write_cursor (input conn') = 0
            ∧ drop (S p) (readable (input conn)) = [])).
Proof.
  intros conn T p Hok Hp Hpre.
  destruct (ring_ok_ring _ Hok) as (W & R & mem & Hring & HR & HW & HL0 & HL).
  rewrite Hring in Hp, Hpre.
  destruct (extract_found_ring W R mem T p HR HW HL0 HL Hp Hpre)
    as (out & inp' & Hex & Hlen & Hbuf & Hrest & Hcur).
  exists out, (set_input inp' conn).
  unfold extract_to_terminator. rewrite Hring, Hex. done.
Qed.

Lemma extract_to_terminator_first_frame_witness :
  (ring_ok (input wrapped_conn)
   ∧ readable (input wrapped_conn) !! 4%nat = Some x0a
   ∧ x0a ∉ take 4 (readable (input wrapped_conn)))
  ∧ ∃ out conn',
      extract_to_terminator wrapped_conn x0a = (0, Some out, conn')
      ∧ buf_len out = 5
      ∧ frame_buf out = ["b"; "b"; "c"; "c"; x00]%byte
      ∧ readable (input conn') = [].
Proof.
  assert (ring_ok (input wrapped_conn)) as Hok.
  { eexists. split; [reflexivity|]. vm_compute. intuition congruence. }
  assert (readable (input wrapped_conn) !! 4%nat = Some x0a) as Hp
    by (vm_compute; reflexivity).
  assert (x0a ∉ take 4 (readable (input wrapped_conn))) as Hpre.
  { apply (bool_decide_unpack _). vm_compute. exact I. }
  split; [done|].
  destruct (extract_to_terminator_first_frame wrapped_conn x0a 4 Hok Hp Hpre)
    as (out & conn' & Hex & Hlen & Hbuf & Hrest & _).
  exists out, conn'. repeat split; try assumption.
Defined.

(** ** A terminator that is not there *)

(** C5 as stated fails on the empty ring whose cursors are both 5: no
    terminator is found, -1 is returned, and both cursors are moved to 0. *)
Lemma extract_to_terminator_absent_moves_idle_cursors :
  ring_ok (input idle_conn)
  ∧ (x0a ∉ readable (input idle_conn))
  ∧ ¬ (let '(res, _, conn') := extract_to_terminator idle_conn x0a in
       res = -1
       ∧ read_cursor (input conn') = read_cursor (input idle_conn)
       ∧ write_cursor (input conn') = write_cursor (input idle_conn)).
Proof.
  split; [|split].
  - eexists. split; [reflexivity|]. vm_compute. intuition congruence.
  - apply (bool_decide_unpack _). vm_compute. exact I.
  - vm_compute. intros (_ & Hr & _). discriminate Hr.
Qed.

(** C5, amended.  If the readable content of the input ring does not
    hold the terminator, [extract_to_terminator] answers -1, sets no
    output, and leaves the allocation, its size and the readable content as
    they were; the cursors are unchanged when they differ, and both are
    set to 0 when they are equal (the ring is empty). *)
Theorem extract_to_terminator_absent :
  ∀ conn T,
    ring_ok (input conn) →
    T ∉ readable (input conn) →
    ∃ conn',
      extract_to_terminator conn T = (-1, None, conn')
      ∧ buffer (input conn') = buffer (input conn)
      ∧ buf_size (input conn') = buf_size (input conn)
      ∧ readable (input conn') = readable (input conn)
      ∧ if decide (read_cursor (input conn) = write_cursor (input conn))
        then read_cursor (input conn') = 0 ∧ write_cursor (input conn') = 0
        else read_cursor (input conn') = read_cursor (input conn)
             ∧ write_cursor (input conn') = write_cursor (input conn).
Proof.
  intros conn T Hok Habs.
  destruct (ring_ok_ring _ Hok) as (W & R & mem & Hring & HR & HW & HL0 & HL).
  rewrite Hring in Habs.
  pose proof (extract_none W R mem T HR HW HL Habs) as Hex.
  eexists. unfold extract_to_terminator. rewrite Hring, Hex.
  split; [reflexivity|]. cbn [input set_input].
  destruct (decide (R = W)) as [->|Hne].
  - rewrite decide_True by done. repeat split.
    rewrite !readable_nowrap by (unfold INT_MAX in *; simpl; lia).
    by rewrite (Nat.sub_diag W).
  - rewrite decide_False by (simpl; lia). done.
Qed.

Lemma extract_to_terminator_absent_witness :
  (ring_ok (input partial_conn) ∧ x0a ∉ readable (input partial_conn))
  ∧ ∃ conn',
      extract_to_terminator partial_conn x0a = (-1, None, conn')
      ∧ readable (input conn') = ["h"; "i"]%byte
      ∧ read_cursor (input conn') = 0 ∧ write_cursor (input conn') = 2.
Proof.
  assert (ring_ok (input partial_conn)) as Hok.
  { eexists. split; [reflexivity|]. vm_compute. intuition congruence. }
  assert (x0a ∉ readable (input partial_conn)) as Habs.
  { apply (bool_decide_unpack _). vm_compute. exact I. }
  split; [done|].
  destruct (extract_to_terminator_absent partial_conn x0a Hok Habs)
    as (conn' & Hex & _ & _ & Hrest & Hcur).
  exists conn'. split; [exact Hex|]. split; [by rewrite Hrest|].
  exact Hcur.
Defined.

(** ** Nested locking *)

Lemma lock_walk_nested held tr held' :
  ordered_held held → lock_walk held tr = Some held' →
  Forall nests_event_lock (nested_acquisitions held tr).
Proof.
  revert held. induction tr as [|e tr IH]; intros held Hheld Hwalk;
    [constructor|].
  destruct e as [l|l| | | | | | | | |]; simpl in *; try by apply IH.
  - destruct (may_acquire held l) eqn:Hmay; [|done].
    destruct Hheld as [->|[[h ->]|(h & -> & Hh)]].
    + apply (IH [l]); [|done]. right; left. eauto.
    + assert (l = event_lock ∧ nests_event_lock (h, event_lock))
        as [-> Hh].
      { destruct h; simpl in Hmay; try done;
          apply bool_decide_eq_true in Hmay as ->;
          (split; [done|]); split; simpl; eauto. }
      constructor; [done|]. apply (IH [event_lock; h]); [|done].
      right; right. eauto.
    + by destruct h.
  - destruct held as [|h held]; [done|].
    destruct (decide (h = l)) as [->|]; [|done].
    rewrite filter_cons_False by naive_solver.
    destruct Hheld as [?|[[h ?]|(h & ? & Hh)]]; simplify_eq.
    + apply (IH []); [by left|done].
    + rewrite filter_cons_True, filter_nil.
      * apply (IH [h]); [|done]. right; left. eauto.
      * destruct Hh as [_ [Hh|[c Hh]]]; simpl in Hh; by subst.
Qed.

Lemma disciplined_keeps_lock_order before after :
  disciplined before after → keeps_lock_order before after.
Proof.
  intros (delta & Htr & Hwalk). exists delta. split_and!; [done..|].
  eapply lock_walk_nested; [by left|done].
Qed.

(** C8 as stated fails in [handle_client_writebuf]: with two bytes
    queued and [writev] taking one, it schedules the write watcher again
    before it releases the output lock, so the event-queue spinlock is
    taken while the output lock of the connection is held. *)
Lemma handle_client_writebuf_nests_event_lock :
  nested_acquisitions []
    (trace (handle_client_writebuf (conn_write_client 7) 7 (mk_sysret 1 0)
              backlogged_conn fresh_netconf).2)
  = [(output_lock 7, event_lock)].
Proof. vm_compute. reflexivity. Qed.

(** C8, amended.  A thread takes a lock of the core while it holds
    another one only in this way: the event-queue spinlock is taken under
    the leader mutex (the async callback inside the loop iteration) or
    under the output lock of a connection ([handle_client_writebuf]
    scheduling the write watcher again).  Nothing is taken while the
    event-queue spinlock or the connection-table mutex is held, locks are
    released in the reverse order of taking, and every call ends with no
    lock held.  This holds for a whole turn of the worker loop, whatever
    watcher fires, given a request handler that keeps the same order, for
    [send_client_response], and for the start of [shutdown_networking]. *)
Theorem nested_locking_takes_only_event_lock :
  ∀ handle_client_connect,
    (∀ conn netconf r,
       handle_client_connect conn netconf = Some r →
       disciplined netconf r.2) →
    (∀ self registered t netconf r,
       worker_turn handle_client_connect self registered t netconf = Some r →
       keeps_lock_order netconf r.2)
    ∧ (∀ conn response_buffers buf_sizes num_bufs wv netconf r,
         send_client_response conn response_buffers buf_sizes num_bufs wv
           netconf = Some r →
         keeps_lock_order netconf r.2)
    ∧ (∀ netconf, keeps_lock_order netconf (shutdown_networking_begin netconf)).
Proof.
  intros handler Hhandler. split_and!.
  - intros self registered t netconf r Hr.
    apply disciplined_keeps_lock_order. by eapply worker_turn_steps.
  - intros conn bufs sizes n wv netconf r Hr.
    apply disciplined_keeps_lock_order.
    eapply send_client_response_steps; [|exact Hr]. by apply steps_here.
  - intros netconf. apply disciplined_keeps_lock_order.
    unfold shutdown_networking_begin.
    apply schedule_async_steps; [|done]. by apply steps_here.
Qed.

Lemma echo_handler_disciplined conn netconf r :
  echo_handler conn netconf = Some r → disciplined netconf r.2.
Proof.
  unfold echo_handler.
  destruct (extract_to_terminator conn x0a) as [[res [line|]] conn'].
  - intros Hr. eapply send_client_response_steps; [|exact Hr].
    by apply steps_here.
  - intros [= <-]. by apply steps_here.
Qed.

Lemma nested_locking_takes_only_event_lock_witness :
  ∃ r,
    worker_turn echo_handler 1 0 write_ready_turn backlogged_netconf = Some r
    ∧ keeps_lock_order backlogged_netconf r.2
    ∧ nested_acquisitions []
        (drop (length (trace backlogged_netconf)) (trace r.2))
      = [(leader_lock, event_lock); (output_lock 7, event_lock)].
Proof.
  destruct (worker_turn echo_handler 1 0 write_ready_turn backlogged_netconf)
    as [r|] eqn:Hturn; [|vm_compute in Hturn; discriminate Hturn].
  exists r. split; [reflexivity|]. split.
  - exact (proj1 (nested_locking_takes_only_event_lock echo_handler
                    echo_handler_disciplined)
             1 0 write_ready_turn backlogged_netconf r Hturn).
  - vm_compute in Hturn. injection Hturn as <-. vm_compute. reflexivity.
Defined.

(** ** Space accounting and consumption on well-formed rings *)

Lemma ring_strict_ring buf :
  ring_strict buf →
  ∃ W R mem, buf = ring W R mem
    ∧ (R < length mem)%nat ∧ (W < length mem)%nat
    ∧ Z.of_nat (length mem) ≤ INT_MAX.
Proof.
  intros (Hok & Hr & Hw).
  destruct (ring_ok_ring _ Hok) as (W & R & mem & -> & HR & HW & HL0 & HL).
  exists W, R, mem. simpl in *. repeat split; try done; lia.
Qed.

Lemma circbuf_used_ring W R mem :
  (W ≤ length mem)%nat → (R ≤ length mem)%nat →
  Z.of_nat (length mem) ≤ INT_MAX →
  circbuf_used (ring W R mem)
  = if decide (W < R)%nat then Z.of_nat (length mem - R + W)
    else Z.of_nat (W - R).
Proof.
  intros HW HR HL. unfold INT_MAX in HL.
  unfold circbuf_used, circbuf_setup_writev_iovec, ring. simpl.
  destruct (decide (W < R)%nat).
  - assert ((Z.of_nat W <? Z.of_nat R) = true) as -> by lia. simpl.
    rewrite to_u32_small, !to_u64_small by lia. lia.
  - assert ((Z.of_nat W <? Z.of_nat R) = false) as -> by lia. simpl.
    rewrite to_int_small, to_u64_small by lia. lia.
Qed.

Lemma length_readable W R mem :
  (W ≤ length mem)%nat → (R ≤ length mem)%nat →
  Z.of_nat (length mem) ≤ INT_MAX →
  Z.of_nat (length (readable (ring W R mem))) = circbuf_used (ring W R mem).
Proof.
  intros HW HR HL. rewrite circbuf_used_ring by done.
  destruct (decide (W < R)%nat).
  - rewrite readable_wrap by (done || lia).
    rewrite length_app, length_drop, length_take. lia.
  - rewrite readable_nowrap by (unfold INT_MAX in *; lia).
    rewrite length_take, length_drop. lia.
Qed.

(** The space accounting of a well-formed ring is exact:
    [circbuf_avail_buf] and the length of the readable content add up to
    the size of the ring less the one slot kept free. *)
Theorem circbuf_avail_buf_exact :
  ∀ buf,
    ring_strict buf →
    circbuf_avail_buf buf + circbuf_used buf = buf_size buf - 1
    ∧ circbuf_used buf = Z.of_nat (length (readable buf)).
Proof.
  intros buf Hbuf.
  destruct (ring_strict_ring _ Hbuf) as (W & R & mem & -> & HR & HW & HL).
  rewrite length_readable by lia. split; [|done].
  rewrite circbuf_used_ring by lia.
  unfold circbuf_avail_buf, ring. simpl. unfold INT_MAX in HL.
  destruct (decide (W < R)%nat).
  - assert ((Z.of_nat W <? Z.of_nat R) = true) as -> by lia.
    rewrite to_int_small, to_u64_small by lia. lia.
  - assert ((Z.of_nat W <? Z.of_nat R) = false) as -> by lia.
    rewrite to_u32_small, to_u64_small by lia. lia.
Qed.

Lemma circbuf_avail_buf_exact_witness :
  ring_strict (output backlogged_conn)
  ∧ circbuf_avail_buf (output backlogged_conn)
    + circbuf_used (output backlogged_conn) = 4095
  ∧ circbuf_used (output backlogged_conn) = 2.
Proof.
  assert (ring_strict (output backlogged_conn)) as Hok.
  { split; [|vm_compute; done].
    eexists. split; [reflexivity|]. vm_compute. intuition congruence. }
  split; [done|].
  destruct (circbuf_avail_buf_exact (output backlogged_conn) Hok) as [Hsum _].
  split; [exact Hsum|reflexivity].
Defined.

Lemma circbuf_advance_read_ring W R mem (n : nat) :
  (R ≤ length mem)%nat → (n ≤ length mem)%nat →
  (0 < length mem)%nat → Z.of_nat (length mem) ≤ INT_MAX →
  circbuf_advance_read (ring W R mem) (Z.of_nat n)
  = if decide ((R + n) `mod` length mem = W)%nat then ring 0 0 mem
    else ring W ((R + n) `mod` length mem) mem.
Proof.
  intros HR Hn HL0 HL. unfold INT_MAX in HL.
  unfold circbuf_advance_read, ring. simpl.
  rewrite to_u64_small by lia.
  replace (Z.of_nat R + Z.of_nat n) with (Z.of_nat (R + n)) by lia.
  rewrite <- Nat2Z.inj_mod.
  pose proof (Nat.mod_upper_bound (R + n) (length mem)) as Hmod.
  rewrite to_int_small by lia.
  destruct (decide (_ = W)) as [Heq|Hne].
  - rewrite Heq. by rewrite Z.eqb_refl.
  - by assert ((Z.of_nat ((R + n) `mod` length mem) =? Z.of_nat W) = false)
      as -> by lia.
Qed.

(** [circbuf_advance_read] on a well-formed ring consumes exactly the
    first [n] bytes of the readable content, for every [n] up to its
    length. *)
Theorem circbuf_advance_read_consumes :
  ∀ buf (n : nat),
    ring_strict buf →
    (n ≤ length (readable buf))%nat →
    readable (circbuf_advance_read buf (Z.of_nat n)) = drop n (readable buf).
Proof.
  intros buf n Hbuf Hn.
  destruct (ring_strict_ring _ Hbuf) as (W & R & mem & -> & HR & HW & HL).
  assert (n ≤ length mem)%nat as HnL.
  { pose proof (length_readable W R mem) as Hlen.
    rewrite circbuf_used_ring in Hlen by lia.
    destruct (decide (W < R)%nat); lia. }
  rewrite circbuf_advance_read_ring by lia.
  assert (Z.of_nat (length mem) ≤ INT_MAX → Z.of_nat W ≤ INT_MAX) as HWmax
    by lia.
  destruct (decide (W < R)%nat) as [HWR|HWR].
  - rewrite readable_wrap in * by (done || lia).
    rewrite length_app, length_drop, length_take in Hn.
    destruct (decide (R + n < length mem)%nat) as [Hlt|Hge].
    + rewrite Nat.mod_small by lia. rewrite decide_False by lia.
      rewrite readable_wrap by (done || lia).
      rewrite drop_app_le by (rewrite length_drop; lia).
      rewrite drop_drop. done.
    + assert ((R + n) `mod` length mem = R + n - length mem)%nat as ->.
      { symmetry. apply (Nat.mod_unique _ _ 1); lia. }
      rewrite drop_app_ge by (rewrite length_drop; lia). rewrite length_drop.
      destruct (decide (_ = W)) as [Heq|Hne].
      * rewrite readable_nowrap by (simpl; unfold INT_MAX; lia).
        simpl. symmetry. apply drop_ge. rewrite length_take. lia.
      * rewrite readable_nowrap; [|lia|unfold INT_MAX in *; lia].
        rewrite take_drop_commute. f_equal; [lia|f_equal; lia].
  - rewrite readable_nowrap in * by (unfold INT_MAX in *; lia).
    rewrite length_take, length_drop in Hn.
    rewrite Nat.mod_small by lia.
    destruct (decide (_ = W)) as [Heq|Hne].
    + rewrite readable_nowrap by (simpl; unfold INT_MAX; lia).
      simpl. symmetry. apply drop_ge. rewrite length_take, length_drop. lia.
    + rewrite readable_nowrap by (unfold INT_MAX in *; lia).
      rewrite <- drop_drop, take_drop_commute. do 2 f_equal; lia.
Qed.

Lemma circbuf_advance_read_consumes_witness :
  (ring_strict wrapped_input ∧ (3 ≤ length (readable wrapped_input))%nat)
  ∧ readable (circbuf_advance_read wrapped_input 3) = ["c"; x0a]%byte.
Proof.
  assert (ring_strict wrapped_input) as Hok.
  { split; [|vm_compute; done].
    eexists. split; [reflexivity|]. vm_compute. intuition congruence. }
  assert (3 ≤ length (readable wrapped_input))%nat as Hn
    by (vm_compute; lia).
  split; [done|].
  exact (circbuf_advance_read_consumes wrapped_input 3 Hok Hn).
Defined.

(** ** Growing and writing *)

Lemma list_inserts_take_drop {A} (i : nat) (k l : list A) :
  (i + length k ≤ length l)%nat →
  list_inserts i k l = take i l ++ k ++ drop (i + length k) l.
Proof.
  intros Hle.
  rewrite <- (take_drop i l) at 1.
  replace i with (length (take i l) + 0)%nat at 1
    by (rewrite length_take; lia).
  rewrite list_inserts_app_r. f_equal.
  rewrite <- (take_drop (length k) (drop i l)).
  rewrite list_inserts_0_r by (rewrite length_take, length_drop; lia).
  by rewrite drop_drop.
Qed.

Lemma memcpy_all dst (off : nat) (src : list byte) :
  (off + length src ≤ length dst)%nat →
  memcpy dst (Z.of_nat off) src (Z.of_nat (length src))
  = take off dst ++ src ++ drop (off + length src) dst.
Proof.
  intros Hle. unfold memcpy. rewrite !Nat2Z.id, firstn_all.
  by apply list_inserts_take_drop.
Qed.

Lemma circbuf_grow_buf_ring W R mem :
  (R ≤ length mem)%nat → (W ≤ length mem)%nat → (0 < length mem)%nat →
  Z.of_nat (length mem) * 8 ≤ INT_MAX →
  let content := readable (ring W R mem) in
  circbuf_grow_buf (ring W R mem)
  = ring (length content) 0
      (content ++ replicate (8 * length mem - length content) x00).
Proof.
  intros HR HW HL0 HL content. unfold INT_MAX in HL.
  assert (Z.of_nat (length (content
            ++ replicate (8 * length mem - length content) x00))
          = Z.of_nat (length mem) * 8) as Hlen.
  { rewrite length_app, length_replicate.
    pose proof (length_readable W R mem HW HR) as Hc.
    rewrite circbuf_used_ring in Hc by (done || unfold INT_MAX; lia).
    fold content in Hc. destruct (decide (W < R)%nat); unfold INT_MAX in Hc; lia. }
  unfold ring at 2. rewrite Hlen. clear Hlen.
  unfold circbuf_grow_buf, CONN_BUF_MULTIPLIER.
  change (read_cursor (ring W R mem)) with (Z.of_nat R).
  change (write_cursor (ring W R mem)) with (Z.of_nat W).
  change (buf_size (ring W R mem)) with (Z.of_nat (length mem)).
  change (buf_mem (ring W R mem)) with mem.
  rewrite Z.mul_1_r.
  rewrite (to_u32_small (Z.of_nat (length mem) * 8)) by lia.
  rewrite (to_int_small (Z.of_nat (length mem) * 8)) by lia.
  rewrite (to_u32_small (Z.of_nat (length mem) * 8)) by lia.
  unfold malloc.
  replace (Z.to_nat (Z.of_nat (length mem) * 8)) with (8 * length mem)%nat
    by lia.
  rewrite Nat2Z.id. subst content.
  destruct (decide (W < R)%nat) as [HWR|HWR].
  - assert ((Z.of_nat W <? Z.of_nat R) = true) as -> by lia.
    rewrite readable_wrap by (done || unfold INT_MAX; lia).
    rewrite to_u32_small by lia.
    replace (Z.of_nat (length mem) - Z.of_nat R)
      with (Z.of_nat (length mem - R)) by lia.
    rewrite (to_int_small (Z.of_nat (length mem - R))) by lia.
    replace (Z.of_nat (length mem - R) + Z.of_nat W)
      with (Z.of_nat (length mem - R + W)) by lia.
    rewrite to_int_small by lia.
    rewrite length_app, length_drop, length_take, Nat.min_l by lia.
    f_equal. f_equal.
    unfold memcpy. rewrite !Nat2Z.id. simpl Z.to_nat.
    rewrite (take_ge (drop R mem)) by (rewrite length_drop; lia).
    replace (8 * length mem)%nat
      with ((length mem - R) + (W + (8 * length mem - (length mem - R + W))))%nat
      by lia.
    rewrite replicate_add.
    rewrite list_inserts_0_r by (rewrite length_drop, length_replicate; lia).
    replace (length mem - R)%nat with (length (drop R mem) + 0)%nat at 1
      by (rewrite length_drop; lia).
    rewrite list_inserts_app_r, replicate_add.
    rewrite list_inserts_0_r by (rewrite length_take, length_replicate; lia).
    rewrite <- app_assoc. do 3 f_equal. lia.
  - assert ((Z.of_nat W <? Z.of_nat R) = false) as -> by lia.
    rewrite readable_nowrap by (unfold INT_MAX; lia).
    replace (Z.of_nat W - Z.of_nat R) with (Z.of_nat (W - R)) by lia.
    rewrite to_int_small by lia.
    rewrite length_take, length_drop, Nat.min_l by lia.
    f_equal. f_equal.
    unfold memcpy. rewrite !Nat2Z.id. simpl Z.to_nat.
    replace (8 * length mem)%nat
      with ((W - R) + (8 * length mem - (W - R)))%nat by lia.
    rewrite replicate_add.
    rewrite list_inserts_0_r
      by (rewrite length_take, length_drop, length_replicate; lia).
    do 2 f_equal. lia.
Qed.

(** Growth preserves content: [circbuf_grow_buf] multiplies the size of
    the ring by eight and moves the readable content, unchanged and in
    order, to the start of the new buffer, with the cursors at 0 and at its
    length. *)
Theorem circbuf_grow_buf_keeps_content :
  ∀ buf,
    ring_ok buf →
    buf_size buf * 8 ≤ INT_MAX →
    readable (circbuf_grow_buf buf) = readable buf
    ∧ read_cursor (circbuf_grow_buf buf) = 0
    ∧ write_cursor (circbuf_grow_buf buf) = Z.of_nat (length (readable buf))
    ∧ buf_size (circbuf_grow_buf buf) = buf_size buf * 8
    ∧ ring_ok (circbuf_grow_buf buf).
Proof.
  intros buf Hok Hsize.
  destruct (ring_ok_ring _ Hok) as (W & R & mem & -> & HR & HW & HL0 & HL).
  change (buf_size (ring W R mem)) with (Z.of_nat (length mem)) in *.
  rewrite circbuf_grow_buf_ring by done. cbv zeta.
  set (content := readable (ring W R mem)).
  assert (length content ≤ length mem)%nat as Hc.
  { pose proof (length_readable W R mem HW HR HL) as Hc.
    rewrite circbuf_used_ring in Hc by done. fold content in Hc.
    destruct (decide (W < R)%nat); lia. }
  set (mem' := content ++ replicate (8 * length mem - length content) x00).
  assert (length mem' = 8 * length mem)%nat as Hlen.
  { subst mem'. rewrite length_app, length_replicate. lia. }
  split_and!.
  - rewrite readable_nowrap by (unfold INT_MAX in *; lia).
    rewrite Nat.sub_0_r. change (drop 0 mem') with mem'.
    subst mem'. apply take_app_length.
  - done.
  - done.
  - unfold ring. simpl. lia.
  - exists mem'. unfold ring. simpl. unfold INT_MAX in *.
    split_and!; try done; lia.
Qed.

Lemma circbuf_grow_buf_keeps_content_witness :
  (ring_ok wrapped_input ∧ buf_size wrapped_input * 8 ≤ INT_MAX)
  ∧ readable (circbuf_grow_buf wrapped_input) = ["b"; "b"; "c"; "c"; x0a]%byte
  ∧ write_cursor (circbuf_grow_buf wrapped_input) = 5
  ∧ buf_size (circbuf_grow_buf wrapped_input) = 32768.
Proof.
  assert (ring_ok wrapped_input) as Hok.
  { eexists. split; [reflexivity|]. vm_compute. intuition congruence. }
  assert (buf_size wrapped_input * 8 ≤ INT_MAX) as Hsize
    by (vm_compute; congruence).
  split; [done|].
  destruct (circbuf_grow_buf_keeps_content wrapped_input Hok Hsize)
    as (Hc & _ & Hw & Hs & _).
  split; [by rewrite Hc|]. split; [by rewrite Hw|by rewrite Hs].
Defined.

Lemma circbuf_write_grow_enough fuel buf bytes :
  bytes ≤ circbuf_avail_buf buf →
  circbuf_write_grow fuel buf bytes = Some buf.
Proof.
  intros Hle.
  assert ((circbuf_avail_buf buf <? bytes) = false) as Hlt by lia.
  destruct fuel.
  - change (circbuf_write_grow 0 buf bytes)
      with (if circbuf_avail_buf buf <? bytes then None else Some buf).
    by rewrite Hlt.
  - change (circbuf_write_grow (S fuel) buf bytes)
      with (if circbuf_avail_buf buf <? bytes
            then circbuf_write_grow fuel (circbuf_grow_buf buf) bytes
            else Some buf).
    by rewrite Hlt.
Qed.

Lemma circbuf_write_fits buf data rem :
  room buf rem →
  Z.of_nat (length data) ≤ rem →
  ∃ buf',
    circbuf_write buf data (Z.of_nat (length data)) = Some (0, buf')
    ∧ readable buf' = readable buf ++ data
    ∧ read_cursor buf' = read_cursor buf
    ∧ write_cursor buf' = write_cursor buf + Z.of_nat (length data)
    ∧ buf_size buf' = buf_size buf
    ∧ room buf' (rem - Z.of_nat (length data)).
Proof.
  intros (Hok & Havail & Hfit) Hrem.
  destruct (ring_ok_ring _ Hok) as (W & R & mem & -> & HR & HW & HL0 & HL).
  unfold circbuf_write. rewrite circbuf_write_grow_enough by lia.
  cbn [mbind option_bind].
  change (read_cursor (ring W R mem)) with (Z.of_nat R) in *.
  change (write_cursor (ring W R mem)) with (Z.of_nat W) in *.
  change (buf_size (ring W R mem)) with (Z.of_nat (length mem)) in *.
  set (b := length data) in *.
  pose proof HL as HL'. unfold INT_MAX in HL'.
  unfold room, ring_ok.
  destruct (decide (W < R)%nat) as [HWR|HWR].
  - assert ((Z.of_nat W <? Z.of_nat R) = true) as HltWR by lia.
    unfold circbuf_avail_buf in Havail. simpl in Havail.
    rewrite HltWR in Havail.
    rewrite to_int_small, to_u64_small in Havail by lia.
    rewrite HltWR.
    eexists. split; [reflexivity|].
    unfold with_mem. cbn [read_cursor write_cursor buf_size buffer ring].
    replace (Z.of_nat W + Z.of_nat b) with (Z.of_nat (W + b)) by lia.
    rewrite to_u64_small, to_int_small by lia.
    cbn [fmap option_fmap option_map]. subst b.
    rewrite memcpy_all by lia.
    set (mem' := take W mem ++ data ++ drop (W + length data) mem).
    assert (length mem' = length mem) as Hlen.
    { subst mem'. rewrite !length_app, length_take, length_drop. lia. }
    rewrite <- Hlen. fold (ring (W + length data) R mem').
    split.
    { rewrite !readable_wrap by (rewrite ?Hlen; done || lia).
      subst mem'. rewrite <- app_assoc. f_equal.
      + rewrite drop_app_ge by (rewrite length_take; lia).
        rewrite length_take, Nat.min_l by lia.
        rewrite drop_app_ge by lia. rewrite drop_drop. f_equal. lia.
      + rewrite take_app_ge by (rewrite length_take; lia).
        rewrite length_take, Nat.min_l by lia. f_equal.
        rewrite take_app_ge by lia.
        replace (W + length data - W - length data)%nat with 0%nat by lia.
        by rewrite take_0, app_nil_r. }
    split; [done|]. split; [simpl; lia|]. split; [by rewrite Hlen|].
    split_and!.
    + exists mem'. unfold ring. simpl. split_and!; try done; lia.
    + lia.
    + unfold circbuf_avail_buf, ring. simpl.
      assert ((Z.of_nat (W + length data) <? Z.of_nat R) = true) as ->
        by (apply Z.ltb_lt; lia).
      rewrite to_int_small, to_u64_small by lia. lia.
    + left. simpl. lia.
  - assert ((Z.of_nat W <? Z.of_nat R) = false) as HltWR by lia.
    destruct Hfit as [Hfit|Hfit]; [lia|].
    unfold circbuf_avail_buf in Havail. simpl in Havail.
    rewrite HltWR in Havail.
    rewrite HltWR.
    rewrite (to_u32_small (Z.of_nat (length mem) - Z.of_nat W)),
      (to_u64_small (Z.of_nat (length mem) - Z.of_nat W)) by lia.
    assert ((Z.of_nat b <=? Z.of_nat (length mem) - Z.of_nat W) = true)
      as -> by lia.
    eexists. split; [reflexivity|].
    unfold with_mem. cbn [read_cursor write_cursor buf_size buffer ring].
    replace (Z.of_nat W + Z.of_nat b) with (Z.of_nat (W + b)) by lia.
    rewrite to_u64_small, to_int_small by lia.
    cbn [fmap option_fmap option_map]. subst b.
    rewrite memcpy_all by lia.
    set (mem' := take W mem ++ data ++ drop (W + length data) mem).
    assert (length mem' = length mem) as Hlen.
    { subst mem'. rewrite !length_app, length_take, length_drop. lia. }
    rewrite <- Hlen. fold (ring (W + length data) R mem').
    split.
    { rewrite !readable_nowrap by lia.
      subst mem'.
      rewrite drop_app_le by (rewrite length_take; lia).
      rewrite take_app_ge by (rewrite length_drop, length_take; lia).
      rewrite length_drop, length_take, Nat.min_l by lia.
      rewrite take_drop_commute. f_equal; [do 2 f_equal; lia|].
      rewrite take_app_ge by lia.
      replace (W + length data - R - (W - R) - length data)%nat with 0%nat
        by lia.
      by rewrite take_0, app_nil_r. }
    split; [done|]. split; [simpl; lia|]. split; [by rewrite Hlen|].
    split_and!.
    + exists mem'. unfold ring. simpl. split_and!; try done; lia.
    + lia.
    + unfold circbuf_avail_buf, ring. simpl.
      assert ((Z.of_nat (W + length data) <? Z.of_nat R) = false) as ->
        by (apply Z.ltb_ge; lia).
      rewrite Hlen.
      destruct (decide (0 ≤ Z.of_nat (length mem) - Z.of_nat W
                            + Z.of_nat R - 1)) as [Hpos|Hneg].
      * rewrite to_u32_small, to_u64_small in Havail by lia.
        rewrite to_u32_small, to_u64_small by lia. lia.
      * assert (length data = 0%nat) as -> by lia.
        rewrite Nat.add_0_r. change (Z.of_nat 0) with 0. rewrite Z.sub_0_r.
        apply Havail.
    + right. simpl. lia.
Qed.

(** A piece that needs no growth and does not wrap is appended: after
    [circbuf_write] the readable content is the old content followed by
    the piece, and only the write cursor has moved, by the length of the
    piece. *)
Theorem circbuf_write_appends :
  ∀ buf data,
    ring_ok buf →
    Z.of_nat (length data) ≤ circbuf_avail_buf buf →
    write_cursor buf < read_cursor buf
    ∨ write_cursor buf + Z.of_nat (length data) ≤ buf_size buf →
    ∃ buf',
      circbuf_write buf data (Z.of_nat (length data)) = Some (0, buf')
      ∧ readable buf' = readable buf ++ data
      ∧ read_cursor buf' = read_cursor buf
      ∧ write_cursor buf' = write_cursor buf + Z.of_nat (length data)
      ∧ buf_size buf' = buf_size buf.
Proof.
  intros buf data Hok Havail Hfit.
  destruct (circbuf_write_fits buf data (Z.of_nat (length data)))
    as (buf' & Hw & Hc & Hr & Hcur & Hs & _); [|lia|by exists buf'].
  split_and!; [done|lia|done|done].
Qed.

Lemma circbuf_write_appends_witness :
  (ring_ok (output backlogged_conn)
   ∧ Z.of_nat (length abc) ≤ circbuf_avail_buf (output backlogged_conn)
   ∧ (write_cursor (output backlogged_conn)
        < read_cursor (output backlogged_conn)
      ∨ write_cursor (output backlogged_conn) + Z.of_nat (length abc)
        ≤ buf_size (output backlogged_conn)))
  ∧ ∃ buf',
      circbuf_write (output backlogged_conn) abc 3 = Some (0, buf')
      ∧ readable buf' = ["h"; "i"; "a"; "b"; "c"]%byte
      ∧ write_cursor buf' = 5.
Proof.
  assert (ring_ok (output backlogged_conn)) as Hok.
  { eexists. split; [reflexivity|]. vm_compute. intuition congruence. }
  assert (Z.of_nat (length abc) ≤ circbuf_avail_buf (output backlogged_conn))
    as Havail by (vm_compute; congruence).
  assert (write_cursor (output backlogged_conn)
            < read_cursor (output backlogged_conn)
          ∨ write_cursor (output backlogged_conn) + Z.of_nat (length abc)
            ≤ buf_size (output backlogged_conn)) as Hfit
    by (right; vm_compute; congruence).
  split; [done|].
  destruct (circbuf_write_appends (output backlogged_conn) abc Hok Havail Hfit)
    as (buf' & Hw & Hc & _ & Hcur & _).
  exists buf'. split; [exact Hw|]. split; [by rewrite Hc|by rewrite Hcur].
Defined.

(** ** Short writes that end in the first buffer *)

Lemma room_bound buf rem : room buf rem → rem ≤ INT_MAX.
Proof.
  intros (Hok & Havail & Hfit).
  destruct (ring_ok_ring _ Hok) as (W & R & mem & -> & HR & HW & HL0 & HL).
  unfold circbuf_avail_buf, ring in *. simpl in *. unfold INT_MAX in *.
  destruct Hfit as [Hfit|Hfit]; [|lia].
  assert ((Z.of_nat W <? Z.of_nat R) = true) as Hlt by lia.
  rewrite Hlt in Havail.
  rewrite to_int_small, to_u64_small in Havail by lia. lia.
Qed.

Lemma response_buffer_nat bufs (i : nat) b :
  bufs !! i = Some b → response_buffer bufs (Z.of_nat i) = b.
Proof.
  intros Hb. unfold response_buffer.
  assert ((0 <=? Z.of_nat i) = true) as -> by (apply Z.leb_le; lia).
  by rewrite Nat2Z.id, Hb.
Qed.

Lemma buf_size_at_nat bufs (i : nat) b :
  bufs !! i = Some b →
  buf_size_at (sizes_of bufs) (Z.of_nat i) = Z.of_nat (length b).
Proof.
  intros Hb. unfold buf_size_at, sizes_of.
  assert ((0 <=? Z.of_nat i) = true) as -> by (apply Z.leb_le; lia).
  by rewrite Nat2Z.id, list_lookup_fmap, Hb.
Qed.

Lemma total_bytes_from bufs n k a :
  (k + n ≤ length bufs)%nat →
  foldl (λ acc i, acc + buf_size_at (sizes_of bufs) (Z.of_nat i)) a (seq k n)
  = a + Z.of_nat (length (concat (take n (drop k bufs)))).
Proof.
  revert k a. induction n as [|n IH]; intros k a Hle; simpl.
  - lia.
  - destruct (lookup_lt_is_Some_2 bufs k) as [b Hb]; [lia|].
    rewrite IH by lia. rewrite (buf_size_at_nat _ _ _ Hb).
    rewrite (drop_S _ _ _ Hb). simpl. rewrite length_app. lia.
Qed.

Lemma total_bytes_sizes_of bufs :
  total_bytes (sizes_of bufs) (Z.of_nat (length bufs))
  = Z.of_nat (length (concat bufs)).
Proof.
  unfold total_bytes. rewrite Nat2Z.id, total_bytes_from by lia.
  by rewrite drop_0, firstn_all.
Qed.

Lemma copy_unsent_rest bufs rest :
  ∀ (i : nat) out rem index skip_bytes sent,
    index < Z.of_nat i →
    drop i bufs = rest →
    room out rem →
    Z.of_nat (length (concat rest)) ≤ rem →
    ∃ out',
      copy_unsent (length rest) (Z.of_nat i) index skip_bytes sent out bufs
        (sizes_of bufs) = Some (true, out')
      ∧ readable out' = readable out ++ concat rest.
Proof.
  induction rest as [|b rest IH];
    intros i out rem index skip_bytes sent Hi Hdrop Hroom Hrem.
  { exists out. by rewrite app_nil_r. }
  assert (bufs !! i = Some b) as Hb.
  { rewrite <- (Nat.add_0_r i), <- lookup_drop, Hdrop. done. }
  assert (drop (S i) bufs = rest) as Hdrop'.
  { rewrite (drop_S _ _ _ Hb) in Hdrop. by simplify_eq. }
  simpl in Hrem. rewrite length_app in Hrem.
  pose proof (room_bound _ _ Hroom) as Hmax. unfold INT_MAX in Hmax.
  destruct (circbuf_write_fits out b rem Hroom) as
    (out1 & Hw & Hc & _ & _ & _ & Hroom1); [lia|].
  destruct (IH (S i) out1 (rem - Z.of_nat (length b)) index skip_bytes sent)
    as (out' & Hcopy & Hc'); [lia|done|done|lia|].
  exists out'. split.
  - simpl length. cbn [copy_unsent].
    assert ((Z.of_nat i =? index) = false) as -> by lia.
    cbn [andb Z.to_nat drop].
    rewrite (response_buffer_nat _ _ _ Hb), (buf_size_at_nat _ _ _ Hb).
    rewrite Z.sub_0_r, to_int_small, to_u64_small by lia.
    change (Z.to_nat 0) with 0%nat. rewrite drop_0.
    rewrite Hw. cbn [mbind option_bind Z.eqb negb].
    replace (Z.of_nat i + 1) with (Z.of_nat (S i)) by lia. done.
  - rewrite Hc', Hc. simpl. by rewrite <- app_assoc.
Qed.

(** When a short write ends inside the first buffer, or [writev] fails
    with a transient error, and the output ring has room for what is left
    without growing or wrapping, [send_client_response_direct] appends
    exactly the unsent suffix of the response to the ring, switches to
    buffered writes and puts one SCHEDULE_WATCHER command for the write
    watcher on the queue. *)
Theorem send_client_response_direct_first_buffer :
  ∀ conn b0 rest sent e netconf,
    let response_buffers := b0 :: rest in
    let unsent := drop (Z.to_nat sent) (concat response_buffers) in
    Z.of_nat (length (concat response_buffers)) ≤ INT_MAX →
    (0 ≤ sent < Z.of_nat (length b0)
     ∨ (sent = -1 ∧ (e = EAGAIN ∨ e = EINTR ∨ e = EWOULDBLOCK))) →
    room (output conn) (Z.of_nat (length unsent)) →
    ∃ conn' netconf',
      send_client_response_direct conn response_buffers
        (sizes_of response_buffers) (Z.of_nat (length response_buffers))
        (mk_sysret sent e) netconf = Some (0, conn', netconf')
      ∧ readable (output conn') = readable (output conn) ++ unsent
      ∧ use_write_buf conn' = 1
      ∧ events netconf'
        = mk_async_event SCHEDULE_WATCHER
            (Some (conn_write_client (conn_addr conn))) :: events netconf.
Proof.
  intros conn b0 rest sent e netconf bufs unsent Htotal Hsent Hroom.
  pose proof (room_bound _ _ Hroom) as Hmax. unfold INT_MAX in Hmax, Htotal.
  set (s := Z.to_nat sent) in *.
  assert (s ≤ length b0)%nat as Hs by lia.
  assert (unsent = drop s b0 ++ concat rest) as Hunsent.
  { subst unsent bufs. simpl. by rewrite drop_app_le. }
  assert (Z.of_nat (length b0) ≤ 2 ^ 31 - 1) as Hb0.
  { subst bufs. simpl in Htotal. rewrite length_app in Htotal. lia. }
  unfold send_client_response_direct. cbv zeta. simpl ret. simpl errno.
  rewrite total_bytes_sizes_of.
  assert ((sent =? Z.of_nat (length (concat bufs))) = false) as ->.
  { subst bufs. simpl. rewrite length_app. apply Z.eqb_neq. lia. }
  assert (((sent =? -1)
           && (negb (e =? EAGAIN) && negb (e =? EINTR)
               && negb (e =? EWOULDBLOCK))) = false) as ->.
  { destruct Hsent as [Hsent|(Hminus & He)].
    - by assert ((sent =? -1) = false) as -> by (apply Z.eqb_neq; lia).
    - destruct He as [He|[He|He]]; rewrite He; simpl;
        by rewrite ?andb_false_r. }
  assert (left_off (Z.to_nat (Z.of_nat (length bufs))) 0 0 (sizes_of bufs) sent
          = (0, 0)) as ->.
  { rewrite Nat2Z.id. subst bufs. simpl length. cbn [left_off].
    change 0 with (Z.of_nat 0) at 2.
    rewrite (buf_size_at_nat (b0 :: rest) 0 b0) by done.
    rewrite Z.add_0_l.
    rewrite to_int_small by lia.
    by assert ((sent <? Z.of_nat (length b0)) = true) as ->
      by (apply Z.ltb_lt; lia). }
  cbn [fst snd]. rewrite Z.sub_0_r, Nat2Z.id.
  subst bufs. simpl length. cbn [copy_unsent].
  change (0 =? 0) with true. cbn [andb].
  assert ((if 0 <? sent then to_int (sent - 0) else 0) = Z.of_nat s) as ->.
  { destruct (0 <? sent) eqn:Hpos.
    - rewrite Z.sub_0_r, to_int_small by lia. lia.
    - lia. }
  rewrite Nat2Z.id.
  change (response_buffer (b0 :: rest) 0) with b0.
  change (buf_size_at (sizes_of (b0 :: rest)) 0) with (Z.of_nat (length b0)).
  replace (Z.of_nat (length b0) - Z.of_nat s)
    with (Z.of_nat (length (drop s b0))) by (rewrite length_drop; lia).
  assert (Z.of_nat (length (drop s b0)) ≤ Z.of_nat (length unsent)) as Hfirst
    by (rewrite Hunsent, length_app; lia).
  rewrite to_int_small, to_u64_small by lia.
  destruct (circbuf_write_fits (output conn) (drop s b0) _ Hroom Hfirst)
    as (out1 & Hw & Hc & _ & _ & _ & Hroom1).
  rewrite Hw. cbn [mbind option_bind Z.eqb negb].
  destruct (copy_unsent_rest (b0 :: rest) rest 1 out1
              (Z.of_nat (length unsent) - Z.of_nat (length (drop s b0)))
              0 0 sent) as (out' & Hcopy & Hc');
    [lia|done|done|rewrite Hunsent, length_app; lia|].
  change (0 + 1) with (Z.of_nat 1). rewrite Hcopy.
  cbn [mbind option_bind fst snd].
  eexists _, _. split; [reflexivity|]. cbn.
  split; [|done]. by rewrite Hc', Hc, Hunsent, <- app_assoc.
Qed.

Lemma send_client_response_direct_first_buffer_witness :
  (Z.of_nat (length (concat [abc; def])) ≤ INT_MAX
   ∧ (0 ≤ 1 < Z.of_nat (length abc)
      ∨ (1 = -1 ∧ (0 = EAGAIN ∨ 0 = EINTR ∨ 0 = EWOULDBLOCK)))
   ∧ room (output fresh_conn)
       (Z.of_nat (length (drop (Z.to_nat 1) (concat [abc; def])))))
  ∧ ∃ conn' netconf',
      send_client_response_direct fresh_conn [abc; def] [3; 3] 2
        (mk_sysret 1 0) fresh_netconf = Some (0, conn', netconf')
      ∧ readable (output conn') = ["b"; "c"; "d"; "e"; "f"]%byte
      ∧ use_write_buf conn' = 1
      ∧ events netconf'
        = [mk_async_event SCHEDULE_WATCHER (Some (conn_write_client 7))].
Proof.
  assert (Z.of_nat (length (concat [abc; def])) ≤ INT_MAX) as Htotal
    by (vm_compute; congruence).
  assert (0 ≤ 1 < Z.of_nat (length abc)
          ∨ (1 = -1 ∧ (0 = EAGAIN ∨ 0 = EINTR ∨ 0 = EWOULDBLOCK))) as Hsent
    by (left; vm_compute; intuition congruence).
  assert (room (output fresh_conn)
            (Z.of_nat (length (drop (Z.to_nat 1) (concat [abc; def])))))
    as Hroom.
  { split_and!.
    - eexists. split; [reflexivity|]. vm_compute. intuition congruence.
    - vm_compute. congruence.
    - vm_compute. congruence.
    - right. vm_compute. congruence. }
  split; [done|].
  exact (send_client_response_direct_first_buffer fresh_conn abc [def] 1 0
           fresh_netconf Htotal Hsent Hroom).
Defined.

(** ** The command queue *)

Lemma handle_async_events_trace l n :
  trace (handle_async_events l n) = trace n ++ concat (async_effect <$> l)
  ∧ events (handle_async_events l n) = events n.
Proof.
  revert n. induction l as [|[[] [w|]] l IH]; intros n; simpl.
  - by rewrite app_nil_r.
  - destruct (IH (emit EvBreak n)) as [-> ->]. simpl.
    by rewrite <- app_assoc.
  - destruct (IH (emit EvBreak n)) as [-> ->]. simpl.
    by rewrite <- app_assoc.
  - destruct (IH (emit (EvIoStart w) n)) as [-> ->]. simpl.
    by rewrite <- app_assoc.
  - apply IH.
Qed.

(** The command queue is a stack that the async callback empties:
    [schedule_async] puts its command at the head of the list, under the
    event-queue spinlock, and signals the async watcher;
    [handle_async_event] takes the spinlock, goes through the commands
    from the head (the one scheduled last comes first), breaking the loop
    for EXIT and starting the watcher for SCHEDULE_WATCHER, leaves the
    list empty and releases the spinlock. *)
Theorem async_queue_is_drained_in_lifo_order :
  ∀ netconf,
    (∀ event_type watcher,
       events (schedule_async event_type watcher netconf)
       = mk_async_event event_type watcher :: events netconf
       ∧ trace (schedule_async event_type watcher netconf)
         = trace netconf ++ [Lock event_lock; Unlock event_lock; EvAsyncSend])
    ∧ events (handle_async_event netconf) = []
    ∧ trace (handle_async_event netconf)
      = trace netconf ++ [Lock event_lock]
          ++ concat (async_effect <$> events netconf)
          ++ [Unlock event_lock].
Proof.
  intros netconf. split_and!.
  - intros event_type watcher. unfold schedule_async. simpl.
    by rewrite <- !app_assoc.
  - done.
  - unfold handle_async_event. simpl.
    destruct (handle_async_events_trace (events netconf)
                (emit (Lock event_lock) netconf)) as [-> _].
    simpl. by rewrite <- !app_assoc.
Qed.

(** ** Growth of the connection table *)

Lemma double_until_ends fuel new_size client_fd :
  0 < new_size → client_fd < 2 ^ 30 →
  client_fd < new_size * 2 ^ Z.of_nat fuel →
  ∃ r, double_until fuel new_size client_fd = Some r
    ∧ client_fd < r ∧ new_size ≤ r ∧ r ≤ Z.max new_size (2 * client_fd).
Proof.
  revert new_size. induction fuel as [|fuel IH]; intros new_size Hpos Hfd Hlt.
  - change (double_until 0 new_size client_fd)
      with (if new_size <=? client_fd then None else Some new_size).
    simpl in Hlt. assert ((new_size <=? client_fd) = false) as ->
      by (apply Z.leb_gt; lia).
    exists new_size. split_and!; [done|lia..].
  - change (double_until (S fuel) new_size client_fd)
      with (if new_size <=? client_fd
            then double_until fuel (to_int (new_size * 2)) client_fd
            else Some new_size).
    destruct (new_size <=? client_fd) eqn:Hle.
    + apply Z.leb_le in Hle.
      rewrite to_int_small by lia.
      destruct (IH (new_size * 2)) as (r & Hr & ? & ? & ?); [lia|done| |].
      { rewrite Nat2Z.inj_succ, Z.pow_succ_r in Hlt by lia. lia. }
      exists r. split_and!; [done|lia..].
    + apply Z.leb_gt in Hle. exists new_size. split_and!; [done|lia..].
Qed.



(** ** Rings with both cursors inside the buffer *)

Lemma circbuf_avail_buf_ring W R mem :
  (R < length mem)%nat → (W < length mem)%nat →
  Z.of_nat (length mem) ≤ INT_MAX →
  circbuf_avail_buf (ring W R mem)
  = Z.of_nat (length mem) - 1 - circbuf_used (ring W R mem).
Proof.
  intros HR HW HL. rewrite circbuf_used_ring by lia.
  unfold circbuf_avail_buf, ring. simpl. unfold INT_MAX in HL.
  destruct (decide (W < R)%nat).
  - assert ((Z.of_nat W <? Z.of_nat R) = true) as -> by lia.
    rewrite to_int_small, to_u64_small by lia. lia.
  - assert ((Z.of_nat W <? Z.of_nat R) = false) as -> by lia.
    rewrite to_u32_small, to_u64_small by lia. lia.
Qed.

Lemma ring_strict_intro W R mem :
  (R < length mem)%nat → (W < length mem)%nat →
  Z.of_nat (length mem) ≤ INT_MAX →
  ring_strict (ring W R mem).
Proof.
  intros HR HW HL. split; [|simpl; lia].
  exists mem. unfold ring. simpl. split_and!; try done; lia.
Qed.

(** ** Writes that make the ring grow *)

Lemma circbuf_grow_buf_strict buf :
  ring_strict buf →
  buf_size buf * 8 ≤ INT_MAX →
  ring_strict (circbuf_grow_buf buf)
  ∧ readable (circbuf_grow_buf buf) = readable buf
  ∧ buf_size (circbuf_grow_buf buf) = buf_size buf * 8
  ∧ read_cursor (circbuf_grow_buf buf) = 0
  ∧ write_cursor (circbuf_grow_buf buf) = Z.of_nat (length (readable buf)).
Proof.
  intros Hbuf Hsize.
  destruct (ring_strict_ring _ Hbuf) as (W & R & mem & -> & HR & HW & HL).
  change (buf_size (ring W R mem)) with (Z.of_nat (length mem)) in *.
  rewrite circbuf_grow_buf_ring by (unfold INT_MAX in *; lia).
  cbv zeta. set (content := readable (ring W R mem)).
  assert (Z.of_nat (length content) = circbuf_used (ring W R mem)) as Hc
    by (apply length_readable; lia).
  assert (length content < length mem)%nat as Hcl.
  { rewrite circbuf_used_ring in Hc by lia.
    destruct (decide (W < R)%nat); lia. }
  set (mem' := content ++ replicate (8 * length mem - length content) x00).
  assert (length mem' = 8 * length mem)%nat as Hlen.
  { subst mem'. rewrite length_app, length_replicate. lia. }
  split_and!.
  - apply ring_strict_intro; rewrite Hlen; lia.
  - rewrite readable_nowrap by (unfold INT_MAX in *; lia).
    rewrite Nat.sub_0_r. change (drop 0 mem') with mem'.
    subst mem'. apply take_app_length.
  - unfold ring. simpl. lia.
  - done.
  - done.
Qed.

Lemma circbuf_avail_buf_strict buf :
  ring_strict buf →
  circbuf_avail_buf buf
  = buf_size buf - 1 - Z.of_nat (length (readable buf)).
Proof.
  intros Hbuf.
  destruct (ring_strict_ring _ Hbuf) as (W & R & mem & -> & HR & HW & HL).
  rewrite circbuf_avail_buf_ring, length_readable by lia. done.
Qed.

Lemma circbuf_write_grow_until (k : nat) :
  ∀ fuel buf bytes,
    (k ≤ fuel)%nat →
    ring_strict buf →
    let used := Z.of_nat (length (readable buf)) in
    buf_size buf * 8 ^ Z.of_nat k ≤ INT_MAX →
    0 ≤ bytes ≤ buf_size buf * 8 ^ Z.of_nat k - 1 - used →
    ∃ (j : nat) buf',
      circbuf_write_grow fuel buf bytes = Some buf'
      ∧ (j ≤ k)%nat
      ∧ ring_strict buf'
      ∧ readable buf' = readable buf
      ∧ buf_size buf' = buf_size buf * 8 ^ Z.of_nat j
      ∧ bytes ≤ circbuf_avail_buf buf'
      ∧ (∀ i : nat, (i < j)%nat →
           buf_size buf * 8 ^ Z.of_nat i - 1 - used < bytes)
      ∧ (j = 0%nat → buf' = buf)
      ∧ ((0 < j)%nat → read_cursor buf' = 0 ∧ write_cursor buf' = used).
Proof.
  induction k as [|k IH]; intros fuel buf bytes Hfuel Hbuf used Hsize Hbytes.
  - assert (bytes ≤ circbuf_avail_buf buf) as Hfits.
    { rewrite circbuf_avail_buf_strict by done. simpl in *. lia. }
    exists 0%nat, buf. rewrite Z.pow_0_r, Z.mul_1_r.
    split_and!; try done; try lia.
    by apply circbuf_write_grow_enough.
  - destruct (decide (bytes ≤ circbuf_avail_buf buf)) as [Hfits|Hshort].
    + exists 0%nat, buf. rewrite Z.pow_0_r, Z.mul_1_r.
      split_and!; try done; try lia.
      by apply circbuf_write_grow_enough.
    + destruct fuel as [|fuel]; [lia|].
      change (circbuf_write_grow (S fuel) buf bytes)
        with (if circbuf_avail_buf buf <? bytes
              then circbuf_write_grow fuel (circbuf_grow_buf buf) bytes
              else Some buf).
      assert ((circbuf_avail_buf buf <? bytes) = true) as -> by lia.
      assert (0 < buf_size buf) as Hpos.
      { destruct Hbuf as [(mem & _ & _ & ? & _) _]. lia. }
      assert (buf_size buf * 8 ^ Z.of_nat (S k)
              = buf_size buf * 8 * 8 ^ Z.of_nat k) as Hpow.
      { rewrite Nat2Z.inj_succ, Z.pow_succ_r by lia. lia. }
      assert (buf_size buf * 8 ≤ INT_MAX) as Hsize8.
      { rewrite Hpow in Hsize.
        assert (1 ≤ 8 ^ Z.of_nat k) by (apply Z.lt_pred_le, Z.pow_pos_nonneg; lia).
        nia. }
      destruct (circbuf_grow_buf_strict buf Hbuf Hsize8)
        as (Hg & Hc & Hs & Hr & Hw).
      destruct (IH fuel (circbuf_grow_buf buf) bytes)
        as (j & buf' & Hloop & Hj & Hok & Hread & Hsz & Hav & Hmin & Hj0 & Hcur).
      * lia.
      * done.
      * rewrite Hs, <- Hpow. done.
      * rewrite Hs, Hc, <- Hpow. done.
      * exists (S j), buf'. rewrite Hc, Hs in *.
        split_and!; try done; try lia.
        -- rewrite Hsz, Nat2Z.inj_succ, Z.pow_succ_r by lia. lia.
        -- intros [|i] Hi.
           ++ rewrite Z.pow_0_r, Z.mul_1_r.
              rewrite circbuf_avail_buf_strict in Hshort by done.
              fold used in Hshort. lia.
           ++ specialize (Hmin i ltac:(lia)).
              rewrite Nat2Z.inj_succ, Z.pow_succ_r by lia.
              fold used. lia.
        -- intros _. destruct (decide (j = 0%nat)) as [Hz|Hnz].
           ++ rewrite (Hj0 Hz). done.
           ++ apply Hcur. lia.
Qed.

(** A piece that does not fit makes the ring grow, by a factor of eight
    at a time and no further than needed, and is then appended: after
    [circbuf_write] the readable content is the old content followed by
    the piece, in a ring that is well formed.  This holds as long as the
    size that is needed stays within the range of [int]. *)
Theorem circbuf_write_grows_to_fit :
  ∀ buf data (k : nat),
    let used := Z.of_nat (length (readable buf)) in
    let len := Z.of_nat (length data) in
    ring_strict buf →
    circbuf_avail_buf buf < len →
    buf_size buf * 8 ^ Z.of_nat k ≤ INT_MAX →
    len ≤ buf_size buf * 8 ^ Z.of_nat k - 1 - used →
    ∃ buf' (j : nat),
      circbuf_write buf data len = Some (0, buf')
      ∧ readable buf' = readable buf ++ data
      ∧ (0 < j ≤ k)%nat
      ∧ buf_size buf' = buf_size buf * 8 ^ Z.of_nat j
      ∧ buf_size buf * 8 ^ Z.of_nat (j - 1) - 1 - used < len
      ∧ ring_strict buf'.
Proof.
  intros buf data k used len Hbuf Hshort Hsize Hlen.
  assert (0 < buf_size buf) as Hpos.
  { destruct Hbuf as [(mem & _ & _ & ? & _) _]. lia. }
  assert (k ≤ GROW_FUEL)%nat as Hfuel.
  { unfold GROW_FUEL. destruct (decide (k ≤ 16)%nat) as [|Hbig]; [done|].
    exfalso. assert (8 ^ 17 ≤ 8 ^ Z.of_nat k)
      by (apply Z.pow_le_mono_r; lia).
    unfold INT_MAX in Hsize. nia. }
  destruct (circbuf_write_grow_until k GROW_FUEL buf len Hfuel Hbuf Hsize)
    as (j & buf1 & Hloop & Hj & Hok & Hread & Hsz & Hav & Hmin & Hj0 & Hcur).
  { subst len. fold used. lia. }
  fold used in Hmin.
  assert (0 < j)%nat as Hjpos.
  { destruct (decide (j = 0%nat)) as [Hz|]; [|lia].
    rewrite (Hj0 Hz) in Hav. lia. }
  destruct (Hcur Hjpos) as [Hr Hw]. fold used in Hw.
  rewrite circbuf_avail_buf_strict in Hav by done. rewrite Hread in Hav.
  fold used in Hav.
  assert (room buf1 len) as Hroom.
  { split; [apply Hok|]. rewrite circbuf_avail_buf_strict, Hread by done.
    fold used. subst len. split; [lia|]. right. lia. }
  destruct (circbuf_write_fits buf1 data len Hroom)
    as (buf' & Hwrite & Hc & Hr' & Hw' & Hs' & Hroom'); [done|].
  exists buf', j. split_and!.
  - unfold circbuf_write in *. rewrite Hloop.
    rewrite circbuf_write_grow_enough in Hwrite; [done|].
    rewrite circbuf_avail_buf_strict, Hread by done. fold used. lia.
  - by rewrite Hc, Hread.
  - done.
  - done.
  - by rewrite Hs'.
  - apply (Hmin (j - 1)%nat). lia.
  - split; [apply Hroom'|]. rewrite Hr', Hw', Hs', Hr, Hw. subst len. lia.
Qed.

Lemma circbuf_write_grows_to_fit_witness :
  (ring_strict (output backlogged_conn)
   ∧ circbuf_avail_buf (output backlogged_conn)
     < Z.of_nat (length (replicate 5000 "x"%byte))
   ∧ buf_size (output backlogged_conn) * 8 ^ Z.of_nat 1 ≤ INT_MAX
   ∧ Z.of_nat (length (replicate 5000 "x"%byte))
     ≤ buf_size (output backlogged_conn) * 8 ^ Z.of_nat 1 - 1
       - Z.of_nat (length (readable (output backlogged_conn))))
  ∧ ∃ buf',
      circbuf_write (output backlogged_conn) (replicate 5000 "x"%byte) 5000
      = Some (0, buf')
      ∧ readable buf' = ["h"; "i"]%byte ++ replicate 5000 "x"%byte
      ∧ buf_size buf' = 32768.
Proof.
  assert (ring_strict (output backlogged_conn)) as Hok.
  { split; [|vm_compute; done].
    eexists. split; [reflexivity|]. vm_compute. intuition congruence. }
  assert (circbuf_avail_buf (output backlogged_conn)
          < Z.of_nat (length (replicate 5000 "x"%byte))) as Hshort
    by (vm_compute; congruence).
  assert (buf_size (output backlogged_conn) * 8 ^ Z.of_nat 1 ≤ INT_MAX)
    as Hsize by (vm_compute; congruence).
  assert (Z.of_nat (length (replicate 5000 "x"%byte))
          ≤ buf_size (output backlogged_conn) * 8 ^ Z.of_nat 1 - 1
            - Z.of_nat (length (readable (output backlogged_conn)))) as Hlen
    by (vm_compute; congruence).
  split; [done|].
  destruct (circbuf_write_grows_to_fit (output backlogged_conn)
              (replicate 5000 "x"%byte) 1 Hok Hshort Hsize Hlen)
    as (buf' & j & Hwrite & Hread & Hj & Hsz & _).
  exists buf'. split; [exact Hwrite|]. split; [exact Hread|].
  assert (j = 1%nat) as -> by lia. exact Hsz.
Defined.
(** ** Receiving into the input ring *)

Lemma circbuf_setup_readv_iovec_ring W R mem :
  (R < length mem)%nat → (W < length mem)%nat →
  Z.of_nat (length mem) ≤ INT_MAX →
  circbuf_setup_readv_iovec (ring W R mem)
  = if decide (W < R)%nat then [mk_iovec (Z.of_nat W) (Z.of_nat (R - W - 1))]
    else if decide (0 < R)%nat then
      [mk_iovec (Z.of_nat W) (Z.of_nat (length mem - W));
       mk_iovec 0 (Z.of_nat (R - 1))]
    else [mk_iovec (Z.of_nat W) (Z.of_nat (length mem - W - 1))].
Proof.
  intros HR HW HL. unfold INT_MAX in HL.
  unfold circbuf_setup_readv_iovec, ring. simpl.
  destruct (decide (W < R)%nat).
  - assert ((Z.of_nat W <? Z.of_nat R) = true) as -> by lia.
    rewrite to_int_small, to_u64_small by lia. do 2 f_equal. lia.
  - assert ((Z.of_nat W <? Z.of_nat R) = false) as -> by lia.
    rewrite (to_u32_small (Z.of_nat (length mem) - Z.of_nat W - 1)) by lia.
    rewrite (to_u64_small (Z.of_nat (length mem) - Z.of_nat W - 1)) by lia.
    destruct (decide (0 < R)%nat).
    + assert ((0 <? Z.of_nat R) = true) as -> by lia.
      rewrite to_int_small by lia. rewrite !to_u64_small by lia.
      f_equal; [f_equal; lia|]. do 2 f_equal. lia.
    + assert ((0 <? Z.of_nat R) = false) as -> by lia.
      do 2 f_equal. lia.
Qed.

Lemma scatter_advance_ring W R mem (data : list byte) :
  (R < length mem)%nat → (W < length mem)%nat →
  Z.of_nat (length mem) ≤ INT_MAX →
  Z.of_nat (length data) ≤ circbuf_avail_buf (ring W R mem) →
  ∃ W' mem',
    circbuf_advance_write
      (with_mem (ring W R mem)
         (λ m, scatter m (circbuf_setup_readv_iovec (ring W R mem)) data)
         (Z.of_nat W))
      (to_u64 (Z.of_nat (length data)))
    = ring W' R mem'
    ∧ length mem' = length mem ∧ (W' < length mem)%nat
    ∧ readable (ring W' R mem') = readable (ring W R mem) ++ data.
Proof.
  intros HR HW HL Havail. pose proof HL as HL'. unfold INT_MAX in HL'.
  rewrite circbuf_setup_readv_iovec_ring by done.
  unfold circbuf_avail_buf in Havail. simpl in Havail.
  set (n := length data) in *.
  assert (n < length mem)%nat as Hn.
  { destruct (Z.of_nat W <? Z.of_nat R) eqn:Hlt.
    - rewrite to_int_small, to_u64_small in Havail by lia. lia.
    - rewrite to_u32_small, to_u64_small in Havail by lia. lia. }
  assert (∀ mem', length mem' = length mem →
    circbuf_advance_write
      (with_mem (ring W R mem) (λ _, mem') (Z.of_nat W)) (to_u64 (Z.of_nat n))
    = ring ((W + n) `mod` length mem) R mem') as Hadv.
  { intros mem' Hlen. unfold circbuf_advance_write, with_mem, ring. simpl.
    rewrite (to_u64_small (Z.of_nat n)) by lia.
    replace (Z.of_nat W + Z.of_nat n) with (Z.of_nat (W + n)) by lia.
    rewrite to_u64_small by lia.
    rewrite <- Nat2Z.inj_mod.
    pose proof (Nat.mod_upper_bound (W + n) (length mem)).
    rewrite to_int_small by lia. by rewrite Hlen. }
  assert (∀ f mem', f mem = mem' →
    with_mem (ring W R mem) f (Z.of_nat W)
    = with_mem (ring W R mem) (λ _, mem') (Z.of_nat W)) as Hwith.
  { intros f mem' <-. done. }
  destruct (decide (W < R)%nat) as [HWR|HWR].
  - assert ((Z.of_nat W <? Z.of_nat R) = true) as Hlt by lia.
    rewrite Hlt in Havail. rewrite to_int_small, to_u64_small in Havail by lia.
    set (mem' := take W mem ++ data ++ drop (W + n) mem).
    assert (length mem' = length mem) as Hlen.
    { subst mem'. rewrite !length_app, length_take, length_drop. lia. }
    exists (W + n)%nat, mem'.
    erewrite Hwith; [rewrite (Hadv mem' Hlen)|].
    + rewrite Nat.mod_small by lia. split_and!; [done|done|lia|].
      rewrite !readable_wrap by (rewrite ?Hlen; lia).
      subst mem'. rewrite <- app_assoc. f_equal.
      * rewrite drop_app_ge by (rewrite length_take; lia).
        rewrite length_take, Nat.min_l by lia.
        rewrite drop_app_ge by lia. rewrite drop_drop. f_equal. lia.
      * rewrite take_app_ge by (rewrite length_take; lia).
        rewrite length_take, Nat.min_l by lia. f_equal.
        rewrite take_app_ge by lia.
        replace (W + n - W - length data)%nat with 0%nat by lia.
        by rewrite take_0, app_nil_r.
    + simpl. unfold memcpy. rewrite !Nat2Z.id.
      rewrite take_ge by lia. apply list_inserts_take_drop. lia.
  - assert ((Z.of_nat W <? Z.of_nat R) = false) as Hlt by lia.
    rewrite Hlt in Havail. rewrite to_u32_small, to_u64_small in Havail by lia.
    destruct (decide (n ≤ length mem - W)%nat) as [Hfit|Hspill].
    + set (mem' := take W mem ++ data ++ drop (W + n) mem).
      assert (length mem' = length mem) as Hlen.
      { subst mem'. rewrite !length_app, length_take, length_drop. lia. }
      exists ((W + n) `mod` length mem)%nat, mem'.
      erewrite Hwith; [rewrite (Hadv mem' Hlen)|].
      * split_and!; [done|done|apply Nat.mod_upper_bound; lia|].
        rewrite (readable_nowrap W R mem) by lia.
        destruct (decide (n = length mem - W)%nat) as [Heq|Hne].
        -- assert ((W + n) `mod` length mem = 0)%nat as ->.
           { replace (W + n)%nat with (length mem) by lia.
             apply Nat.Div0.mod_same. }
           destruct (decide (R = 0)%nat) as [->|HR0]; [lia|].
           rewrite readable_wrap by (rewrite ?Hlen; lia).
           rewrite take_0, app_nil_r. subst mem'.
           rewrite (drop_ge mem) by lia. rewrite app_nil_r.
           rewrite drop_app_le by (rewrite length_take; lia).
           f_equal. rewrite take_drop_commute. do 2 f_equal. lia.
        -- rewrite Nat.mod_small by lia.
           rewrite readable_nowrap by lia. subst mem'.
           rewrite drop_app_le by (rewrite length_take; lia).
           rewrite take_app_ge by (rewrite length_drop, length_take; lia).
           rewrite length_drop, length_take, Nat.min_l by lia.
           rewrite take_drop_commute. f_equal; [do 2 f_equal; lia|].
           rewrite take_app_ge by lia.
           replace (W + n - R - (W - R) - length data)%nat with 0%nat by lia.
           by rewrite take_0, app_nil_r.
      * destruct (decide (0 < R)%nat); simpl; unfold memcpy;
          rewrite ?Nat2Z.id.
        -- rewrite (take_ge data) by lia.
           rewrite (drop_ge data) by lia. rewrite take_nil. simpl.
           apply list_inserts_take_drop. lia.
        -- rewrite take_ge by lia. apply list_inserts_take_drop. lia.
    + destruct (decide (0 < R)%nat) as [HR0|HR0]; [|lia].
      set (k := (length mem - W)%nat).
      set (mem' := drop k data ++ drop (n - k) (take W mem) ++ take k data).
      assert (length mem' = length mem) as Hlen.
      { subst mem'. rewrite !length_app, !length_drop, !length_take. lia. }
      exists (W + n - length mem)%nat, mem'.
      erewrite Hwith; [rewrite (Hadv mem' Hlen)|].
      * assert ((W + n) `mod` length mem = W + n - length mem)%nat as ->.
        { symmetry. apply (Nat.mod_unique _ _ 1); lia. }
        split_and!; [done|done|lia|].
        rewrite (readable_nowrap W R mem) by lia.
        rewrite readable_wrap by (rewrite ?Hlen; lia).
        assert (take (W + n - length mem) mem' = drop k data) as ->.
        { subst mem'. apply take_app_length'. rewrite length_drop. lia. }
        assert (drop R mem' = drop R (take W mem) ++ take k data) as ->.
        { subst mem'. rewrite drop_app_ge by (rewrite length_drop; lia).
          rewrite length_drop.
          rewrite drop_app_le by (rewrite length_drop, length_take; lia).
          rewrite drop_drop. do 2 f_equal. lia. }
        rewrite <- app_assoc, take_drop. f_equal.
        rewrite take_drop_commute. do 2 f_equal. lia.
      * simpl. unfold memcpy. rewrite !Nat2Z.id. fold k.
        rewrite (take_ge (drop k data)) by (rewrite length_drop; lia).
        assert (list_inserts W (take k data) mem = take W mem ++ take k data)
          as ->.
        { rewrite list_inserts_take_drop by (rewrite length_take; lia).
          rewrite length_take, Nat.min_l by lia.
          rewrite (drop_ge mem) by lia. by rewrite app_nil_r. }
        change (Z.to_nat 0) with 0%nat.
        rewrite list_inserts_take_drop
          by (rewrite length_app, !length_take, length_drop; lia).
        rewrite take_0, length_drop. simpl. subst mem'. f_equal.
        rewrite drop_app_le by (rewrite length_take; lia). done.
Qed.

(** What [handle_client_data] does to the ring it reads into, for a
    [readv] that stored the first [n] bytes of [incoming]. *)
Lemma receive_ring buf (n : nat) incoming :
  ring_strict buf →
  (n ≤ length incoming)%nat →
  Z.of_nat n ≤ circbuf_avail_buf buf →
  let buf' :=
    circbuf_advance_write
      (with_mem buf
         (λ m, scatter m (circbuf_setup_readv_iovec buf) (take n incoming))
         (write_cursor buf))
      (to_u64 (Z.of_nat n)) in
  readable buf' = readable buf ++ take n incoming
  ∧ ring_strict buf'
  ∧ buf_size buf' = buf_size buf
  ∧ read_cursor buf' = read_cursor buf.
Proof.
  intros Hbuf Hn Havail.
  destruct (ring_strict_ring _ Hbuf) as (W & R & mem & -> & HR & HW & HL).
  assert (length (take n incoming) = n) as Hlen by (rewrite length_take; lia).
  destruct (scatter_advance_ring W R mem (take n incoming))
    as (W' & mem' & Heq & Hmem' & HW' & Hread); [done..|by rewrite Hlen|].
  rewrite Hlen in Heq. cbv zeta.
  change (write_cursor (ring W R mem)) with (Z.of_nat W).
  rewrite Heq. split_and!.
  - done.
  - apply ring_strict_intro; rewrite ?Hmem'; done.
  - unfold ring. simpl. by rewrite Hmem'.
  - done.
Qed.

Lemma scatter_nothing vectors mem : scatter mem vectors [] = mem.
Proof.
  revert mem. induction vectors as [|v vectors IH]; intros mem; [done|].
  simpl. unfold memcpy. rewrite take_nil, drop_nil. simpl. apply IH.
Qed.

Lemma with_mem_nothing buf vectors :
  with_mem buf (λ m, scatter m vectors []) (write_cursor buf) = buf.
Proof.
  destruct buf as [w r size [mem|]]; unfold with_mem; simpl; [|done].
  by rewrite scatter_nothing.
Qed.

(** The ring [handle_client_data] hands to [readv]: the input ring,
    grown when less than half of it was free. *)
Lemma handle_client_data_grows inp :
  let grows := circbuf_avail_buf inp <? buf_size inp / 2 in
  let size' := if grows then buf_size inp * 8 else buf_size inp in
  ring_strict inp →
  size' ≤ INT_MAX →
  let inp' :=
    if to_u32 (to_int (circbuf_avail_buf inp)) <? buf_size inp / 2
    then circbuf_grow_buf inp else inp in
  ring_strict inp' ∧ readable inp' = readable inp ∧ buf_size inp' = size'
  ∧ circbuf_avail_buf inp' = size' - 1 - circbuf_used inp.
Proof.
  intros grows size' Hbuf Hsize.
  destruct (ring_strict_ring _ Hbuf) as (W & R & mem & Hinp & HR & HW & HL).
  pose proof HL as HL'. unfold INT_MAX in HL'.
  assert (0 ≤ circbuf_avail_buf inp < Z.of_nat (length mem)) as Havail.
  { rewrite Hinp, circbuf_avail_buf_ring, circbuf_used_ring by lia.
    destruct (decide (W < R)%nat); lia. }
  rewrite (to_int_small (circbuf_avail_buf inp)) by lia.
  rewrite (to_u32_small (circbuf_avail_buf inp)) by lia.
  fold grows. destruct grows eqn:Hgrows; subst size'; cbv zeta.
  - destruct (circbuf_grow_buf_strict inp Hbuf Hsize) as (Hg & Hc & Hs & Hr & Hw).
    split_and!; [done..|].
    rewrite circbuf_avail_buf_strict, Hc, Hs by done.
    rewrite Hinp, length_readable by lia. done.
  - split_and!; [done..|].
    rewrite Hinp. rewrite circbuf_avail_buf_ring by lia. done.
Qed.

(** [circbuf_setup_readv_iovec] hands [readv] exactly the free space of a
    well-formed ring: the lengths of its vectors add up to
    [circbuf_avail_buf], and every vector lies inside the allocation. *)
Theorem circbuf_setup_readv_iovec_offers_free_space :
  ∀ buf,
    ring_strict buf →
    foldr (λ v acc, iov_len v + acc) 0 (circbuf_setup_readv_iovec buf)
    = circbuf_avail_buf buf
    ∧ Forall (λ v, 0 ≤ iov_base v ∧ 0 ≤ iov_len v
                   ∧ iov_base v + iov_len v ≤ buf_size buf)
        (circbuf_setup_readv_iovec buf).
Proof.
  intros buf Hbuf.
  destruct (ring_strict_ring _ Hbuf) as (W & R & mem & -> & HR & HW & HL).
  rewrite circbuf_setup_readv_iovec_ring by done.
  unfold circbuf_avail_buf, ring. simpl. unfold INT_MAX in HL.
  destruct (decide (W < R)%nat).
  - assert ((Z.of_nat W <? Z.of_nat R) = true) as -> by lia.
    rewrite to_int_small, to_u64_small by lia. simpl.
    split; [lia|]. repeat constructor; simpl; lia.
  - assert ((Z.of_nat W <? Z.of_nat R) = false) as -> by lia.
    rewrite to_u32_small, to_u64_small by lia.
    destruct (decide (0 < R)%nat); simpl.
    + split; [lia|]. repeat constructor; simpl; lia.
    + split; [lia|]. repeat constructor; simpl; lia.
Qed.

Lemma circbuf_setup_readv_iovec_offers_free_space_witness :
  ring_strict wrapped_input
  ∧ circbuf_setup_readv_iovec wrapped_input = [mk_iovec 3 4090]
  ∧ circbuf_avail_buf wrapped_input = 4090.
Proof.
  assert (ring_strict wrapped_input) as Hok.
  { split; [|vm_compute; done].
    eexists. split; [reflexivity|]. vm_compute. intuition congruence. }
  split; [done|].
  destruct (circbuf_setup_readv_iovec_offers_free_space wrapped_input Hok)
    as [Hsum _].
  split; [reflexivity|]. rewrite <- Hsum. reflexivity.
Defined.

Lemma client_data_appended :
  ∀ watch_fd (n : nat) e incoming conn netconf,
    let inp := input conn in
    let grows := circbuf_avail_buf inp <? buf_size inp / 2 in
    let size' := if grows then buf_size inp * 8 else buf_size inp in
    ring_strict inp →
    size' ≤ INT_MAX →
    (0 < n ≤ length incoming)%nat →
    Z.of_nat n ≤ size' - 1 - circbuf_used inp →
    ∃ inp',
      handle_client_data watch_fd (mk_sysret (Z.of_nat n) e) incoming conn
        netconf
      = (0, set_input inp' conn, emit (SysReadv watch_fd (Z.of_nat n)) netconf)
      ∧ readable inp' = readable inp ++ take n incoming
      ∧ ring_strict inp'
      ∧ buf_size inp' = size'.
Proof.
  intros watch_fd n e incoming conn netconf inp grows size' Hbuf Hsize Hn Hroom.
  destruct (handle_client_data_grows inp Hbuf Hsize) as (Hg & Hc & Hs & Ha).
  unfold handle_client_data. cbn [ret].
  rewrite Nat2Z.id.
  assert ((Z.of_nat n =? 0) = false) as -> by lia.
  assert ((Z.of_nat n =? -1) = false) as -> by lia.
  fold inp.
  set (inp1 := if to_u32 (to_int (circbuf_avail_buf inp)) <? buf_size inp / 2
               then circbuf_grow_buf inp else inp) in *.
  assert (∃ conn1,
    (if to_u32 (to_int (circbuf_avail_buf inp)) <? buf_size inp / 2
     then set_input (circbuf_grow_buf inp) conn else conn) = conn1
    ∧ input conn1 = inp1 ∧ ∀ v, set_input v conn1 = set_input v conn)
    as (conn1 & -> & Hin1 & Hset).
  { subst inp1. destruct (to_u32 _ <? _); eexists; split_and!; done. }
  rewrite !Hin1, !Hset.
  destruct (receive_ring inp1 n incoming Hg) as (Hread & Hok & Hsz & _);
    [lia|rewrite Ha; exact Hroom|].
  eexists. split; [reflexivity|]. cbn [input set_input].
  split_and!; [by rewrite Hread, Hc|done|by rewrite Hsz].
Qed.

(** A [readv] that delivers [n] bytes appends them to the input ring:
    after [handle_client_data] the readable content is the old content
    followed by the first [n] bytes the socket held, the ring is well
    formed again, and nothing else of the connection has changed.  The
    ring is grown first, to eight times its size, when less than half of
    it was free. *)
Theorem handle_client_data_appends :
  ∀ watch_fd (n : nat) e incoming conn netconf,
    let inp := input conn in
    let grows := circbuf_avail_buf inp <? buf_size inp / 2 in
    let size' := if grows then buf_size inp * 8 else buf_size inp in
    ring_strict inp →
    size' ≤ INT_MAX →
    (0 < n ≤ length incoming)%nat →
    Z.of_nat n ≤ size' - 1 - circbuf_used inp →
    ∃ inp',
      handle_client_data watch_fd (mk_sysret (Z.of_nat n) e) incoming conn
        netconf
      = (0, set_input inp' conn, emit (SysReadv watch_fd (Z.of_nat n)) netconf)
      ∧ readable inp' = readable inp ++ take n incoming
      ∧ ring_strict inp'
      ∧ buf_size inp' = size'.
Proof.
  intros watch_fd n e incoming conn netconf inp grows size' Hbuf Hsize Hn Hroom.
  destruct (client_data_appended watch_fd n e incoming conn netconf
              Hbuf Hsize Hn Hroom) as (inp' & Hdata & Hread & Hok & Hsz).
  exists inp'. split; [exact Hdata|]. split; [exact Hread|].
  split; [exact Hok|exact Hsz].
Qed.

Lemma handle_client_data_appends_witness :
  (ring_strict (input filling_conn)
   ∧ buf_size (input filling_conn) * 8 ≤ INT_MAX
   ∧ (0 < 3 ≤ length ab_cd_ef)%nat
   ∧ 3 ≤ buf_size (input filling_conn) * 8 - 1
         - circbuf_used (input filling_conn))
  ∧ ∃ inp',
      handle_client_data 7 (mk_sysret 3 0) ab_cd_ef filling_conn fresh_netconf
      = (0, set_input inp' filling_conn, emit (SysReadv 7 3) fresh_netconf)
      ∧ readable inp' = replicate 3000 "a"%byte ++ ["a"; "b"; x0a]%byte
      ∧ buf_size inp' = 32768.
Proof.
  assert (ring_strict (input filling_conn)) as Hok.
  { split; [|vm_compute; done].
    eexists. split; [reflexivity|]. vm_compute. intuition congruence. }
  assert (buf_size (input filling_conn) * 8 ≤ INT_MAX) as Hsize
    by (vm_compute; congruence).
  assert (0 < 3 ≤ length ab_cd_ef)%nat as Hn by (vm_compute; lia).
  assert (3 ≤ buf_size (input filling_conn) * 8 - 1
              - circbuf_used (input filling_conn)) as Hroom
    by (vm_compute; congruence).
  split; [done|].
  destruct (handle_client_data_appends 7 3 0 ab_cd_ef filling_conn
              fresh_netconf Hok Hsize Hn Hroom)
    as (inp' & Hdata & Hread & _ & Hsz).
  exists inp'. split; [exact Hdata|]. split; [exact Hread|exact Hsz].
Defined.

Lemma handle_client_data_conn inp conn :
  ∃ conn1,
    (if to_u32 (to_int (circbuf_avail_buf inp)) <? buf_size inp / 2
     then set_input (circbuf_grow_buf inp) conn else conn) = conn1
    ∧ (inp = input conn →
       input conn1
       = if to_u32 (to_int (circbuf_avail_buf inp)) <? buf_size inp / 2
         then circbuf_grow_buf inp else inp)
    ∧ (∀ v, set_input v conn1 = set_input v conn)
    ∧ conn_addr conn1 = conn_addr conn ∧ client conn1 = client conn
    ∧ output conn1 = output conn.
Proof. destruct (to_u32 _ <? _); eexists; split_and!; by try intros ->. Qed.

(** A [readv] that fails leaves the connection as it was when the call
    would have blocked or was interrupted, and closes it on any other
    error; the answer is 1 either way, and the content of the input ring
    is kept (the ring may have been grown before the read). *)
Theorem handle_client_data_read_error :
  ∀ watch_fd e incoming conn netconf,
    let inp := input conn in
    let grows := circbuf_avail_buf inp <? buf_size inp / 2 in
    let size' := if grows then buf_size inp * 8 else buf_size inp in
    ring_strict inp →
    size' ≤ INT_MAX →
    ∃ inp',
      readable inp' = readable inp ∧ ring_strict inp' ∧ buf_size inp' = size'
      ∧ let conn1 := set_input inp' conn in
        let netconf1 := emit (SysReadv watch_fd (-1)) netconf in
        handle_client_data watch_fd (mk_sysret (-1) e) incoming conn netconf
        = if decide (e = EAGAIN ∨ e = EINTR) then (1, conn1, netconf1)
          else (1, (close_client_connection conn1 netconf1).1,
                (close_client_connection conn1 netconf1).2).
Proof.
  intros watch_fd e incoming conn netconf inp grows size' Hbuf Hsize.
  destruct (handle_client_data_grows inp Hbuf Hsize) as (Hg & Hc & Hs & _).
  destruct (handle_client_data_conn inp conn)
    as (conn1 & Hconn1 & Hin1 & Hset & _).
  specialize (Hin1 eq_refl).
  eexists. split_and!; [exact Hc|exact Hg|exact Hs|].
  unfold handle_client_data. cbn [ret errno].
  fold inp. rewrite Hconn1, <- Hin1.
  change (Z.to_nat (-1)) with 0%nat. rewrite take_0, with_mem_nothing.
  change (-1 =? 0) with false. change (-1 =? -1) with true. cbv iota zeta.
  rewrite <- Hset.
  assert (set_input (input conn1) conn1 = conn1) as -> by (by destruct conn1).
  destruct (decide (e = EAGAIN ∨ e = EINTR)) as [[->| ->]|Hne].
  - reflexivity.
  - reflexivity.
  - assert ((e =? EAGAIN) = false) as -> by (apply Z.eqb_neq; tauto).
    assert ((e =? EINTR) = false) as -> by (apply Z.eqb_neq; tauto).
    cbn [negb andb]. by destruct (close_client_connection conn1 _).
Qed.

Lemma handle_client_data_read_error_witness :
  (ring_strict (input two_lines_conn)
   ∧ buf_size (input two_lines_conn) ≤ INT_MAX)
  ∧ ∃ inp',
      readable inp' = ab_cd_ef
      ∧ handle_client_data 7 (mk_sysret (-1) EAGAIN) [] two_lines_conn
          fresh_netconf
        = (1, set_input inp' two_lines_conn,
           emit (SysReadv 7 (-1)) fresh_netconf).
Proof.
  assert (ring_strict (input two_lines_conn)) as Hok.
  { split; [|vm_compute; done].
    eexists. split; [reflexivity|]. vm_compute. intuition congruence. }
  assert (buf_size (input two_lines_conn) ≤ INT_MAX) as Hsize
    by (vm_compute; congruence).
  split; [done|].
  destruct (handle_client_data_read_error 7 EAGAIN [] two_lines_conn
              fresh_netconf Hok Hsize) as (inp' & Hread & _ & _ & Hdata).
  exists inp'. split; [exact Hread|exact Hdata].
Defined.

(** End of file on a connection whose input ring has the initial size
    and was not grown by this call: [handle_client_data] closes the
    connection exactly as [close_client_connection] does and still answers
    0, the answer of a successful read.  The record is left unscheduled,
    with an empty input ring over the allocation it had. *)
Theorem handle_client_data_eof_closes_and_answers_0 :
  ∀ watch_fd e incoming conn netconf,
    ring_strict (input conn) →
    buf_size (input conn) ≤ INIT_CONN_BUF_SIZE →
    buf_size (input conn) / 2 ≤ circbuf_avail_buf (input conn) →
    let closed :=
      close_client_connection conn (emit (SysReadv watch_fd 0) netconf) in
    handle_client_data watch_fd (mk_sysret 0 e) incoming conn netconf
    = (0, closed.1, closed.2)
    ∧ should_schedule closed.1 = 0
    ∧ readable (input closed.1) = []
    ∧ buffer (input closed.1) = buffer (input conn)
    ∧ trace closed.2
      = trace netconf
          ++ [SysReadv watch_fd 0;
              EvIoStop (conn_client (conn_addr conn));
              EvIoStop (conn_write_client (conn_addr conn));
              SysClose (fd (client conn))].
Proof.
  intros watch_fd e incoming conn netconf Hbuf Hsize Hhalf closed.
  destruct (ring_strict_ring _ Hbuf) as (W & R & mem & Hinp & HR & HW & HL).
  pose proof HL as HL'. unfold INT_MAX in HL'.
  assert (0 ≤ circbuf_avail_buf (input conn) < Z.of_nat (length mem))
    as Havail.
  { rewrite Hinp, circbuf_avail_buf_ring, circbuf_used_ring by lia.
    destruct (decide (W < R)%nat); lia. }
  assert (circbuf_reset (input conn) = ring 0 0 mem) as Hreset.
  { unfold circbuf_reset. rewrite Hinp in *.
    change (buf_size (ring W R mem)) with (Z.of_nat (length mem)) in *.
    by assert ((INIT_CONN_BUF_SIZE <? Z.of_nat (length mem)) = false) as ->
      by lia. }
  split_and!.
  - unfold handle_client_data. cbn [ret].
    rewrite (to_int_small (circbuf_avail_buf (input conn))) by lia.
    rewrite (to_u32_small (circbuf_avail_buf (input conn))) by lia.
    assert ((circbuf_avail_buf (input conn) <? buf_size (input conn) / 2)
            = false) as -> by lia.
    change (Z.to_nat 0) with 0%nat. rewrite take_0, with_mem_nothing.
    change (0 =? 0) with true. cbv iota.
    assert (set_input (input conn) conn = conn) as -> by (by destruct conn).
    subst closed. unfold close_client_connection.
    cbn [input set_input set_output set_should_schedule fst snd].
    rewrite Hreset. unfold circbuf_advance_write, ring. simpl.
    rewrite Z.mod_0_l by lia. reflexivity.
  - done.
  - subst closed. unfold close_client_connection. cbn [fst input set_input set_output].
    cbn [input set_should_schedule]. rewrite Hreset.
    by rewrite readable_nowrap by (simpl; unfold INT_MAX; lia).
  - subst closed. unfold close_client_connection. cbn [fst input set_input set_output].
    cbn [input set_should_schedule]. by rewrite Hreset, Hinp.
  - subst closed. unfold close_client_connection, emit. simpl.
    by rewrite <- !app_assoc.
Qed.

Lemma handle_client_data_eof_closes_and_answers_0_witness :
  (ring_strict (input two_lines_conn)
   ∧ buf_size (input two_lines_conn) ≤ INIT_CONN_BUF_SIZE
   ∧ buf_size (input two_lines_conn) / 2
     ≤ circbuf_avail_buf (input two_lines_conn))
  ∧ ∃ closed netconf',
      handle_client_data 7 (mk_sysret 0 0) [] two_lines_conn fresh_netconf
      = (0, closed, netconf')
      ∧ should_schedule closed = 0
      ∧ readable (input closed) = []
      ∧ trace netconf'
        = [SysReadv 7 0; EvIoStop (conn_client 7);
           EvIoStop (conn_write_client 7); SysClose 7].
Proof.
  assert (ring_strict (input two_lines_conn)) as Hok.
  { split; [|vm_compute; done].
    eexists. split; [reflexivity|]. vm_compute. intuition congruence. }
  assert (buf_size (input two_lines_conn) ≤ INIT_CONN_BUF_SIZE) as Hsize
    by (vm_compute; congruence).
  assert (buf_size (input two_lines_conn) / 2
          ≤ circbuf_avail_buf (input two_lines_conn)) as Hhalf
    by (vm_compute; congruence).
  split; [done|].
  destruct (handle_client_data_eof_closes_and_answers_0 7 0 [] two_lines_conn
              fresh_netconf Hok Hsize Hhalf)
    as (Hdata & Hsched & Hread & _ & Htrace).
  eexists _, _. split; [exact Hdata|]. split; [exact Hsched|].
  split; [exact Hread|exact Htrace].
Defined.




(** ** Draining the output ring to the socket *)

Lemma circbuf_advance_read_drops W R mem (n : nat) :
  (R < length mem)%nat → (W < length mem)%nat →
  Z.of_nat (length mem) ≤ INT_MAX →
  (n ≤ length (readable (ring W R mem)))%nat →
  ∃ W' R',
    circbuf_advance_read (ring W R mem) (Z.of_nat n) = ring W' R' mem
    ∧ (R' < length mem)%nat ∧ (W' < length mem)%nat
    ∧ readable (ring W' R' mem) = drop n (readable (ring W R mem))
    ∧ (R' = W' ↔ n = length (readable (ring W R mem))).
Proof.
  intros HR HW HL Hn. pose proof HL as HL'. unfold INT_MAX in HL'.
  assert (Z.of_nat (length (readable (ring W R mem)))
          = if decide (W < R)%nat then Z.of_nat (length mem - R + W)
            else Z.of_nat (W - R)) as Hused.
  { rewrite length_readable by lia. apply circbuf_used_ring; lia. }
  assert (n < length mem)%nat as HnL
    by (destruct (decide (W < R)%nat); lia).
  rewrite circbuf_advance_read_ring by lia.
  destruct (decide (R + n < length mem)%nat) as [Hlt|Hge].
  - rewrite Nat.mod_small by lia.
    destruct (decide (R + n = W)%nat) as [Heq|Hne].
    + exists 0%nat, 0%nat. split_and!; [done|lia|lia| |].
      * rewrite readable_nowrap by (simpl; unfold INT_MAX; lia).
        simpl. symmetry. apply drop_ge.
        destruct (decide (W < R)%nat); lia.
      * destruct (decide (W < R)%nat); lia.
    + exists W, (R + n)%nat. split_and!; [done|lia|lia| |].
      * destruct (decide (W < R)%nat) as [HWR|HWR].
        -- rewrite !readable_wrap by lia.
           rewrite drop_app_le by (rewrite length_drop; lia).
           by rewrite drop_drop.
        -- rewrite !readable_nowrap by lia.
           rewrite <- drop_drop, take_drop_commute. do 2 f_equal; lia.
      * destruct (decide (W < R)%nat); lia.
  - assert (W < R)%nat as HWR by (destruct (decide (W < R)%nat); lia).
    rewrite decide_True in Hused by done.
    assert ((R + n) `mod` length mem = R + n - length mem)%nat as ->.
    { symmetry. apply (Nat.mod_unique _ _ 1); lia. }
    assert (drop n (readable (ring W R mem))
            = drop (n - (length mem - R)) (take W mem)) as Hdrop.
    { rewrite (readable_wrap W R mem) by lia.
      rewrite drop_app_ge by (rewrite length_drop; lia).
      by rewrite length_drop. }
    destruct (decide (R + n - length mem = W)%nat) as [Heq|Hne].
    + exists 0%nat, 0%nat. split_and!; [done|lia|lia| |lia].
      rewrite Hdrop, readable_nowrap by (simpl; unfold INT_MAX; lia).
      simpl. symmetry. apply drop_ge. rewrite length_take. lia.
    + exists W, (R + n - length mem)%nat. split_and!; [done|lia|lia| |lia].
      rewrite Hdrop, readable_nowrap by lia.
      rewrite take_drop_commute. f_equal; [lia|f_equal; lia].
Qed.

Lemma wire_app fd t1 t2 : wire fd (t1 ++ t2) = wire fd t1 ++ wire fd t2.
Proof.
  induction t1 as [|e t1 IH]; [done|].
  destruct e; simpl; rewrite ?IH; try done. by rewrite app_assoc.
Qed.

Lemma writebuf_drains watch watch_fd (n : nat) e conn netconf :
  let content := readable (output conn) in
  ring_strict (output conn) →
  (0 < n ≤ length content)%nat →
  ∃ out' netconf' delta,
    handle_client_writebuf watch watch_fd (mk_sysret (Z.of_nat n) e) conn
      netconf
    = (0,
       (if decide (n = length content)
        then set_use_write_buf 0 (set_output out' conn)
        else set_output out' conn),
       netconf')
    ∧ trace netconf' = trace netconf ++ delta
    ∧ wire watch_fd delta = take n content
    ∧ events netconf'
      = (if decide (n = length content) then events netconf
         else mk_async_event SCHEDULE_WATCHER (Some watch) :: events netconf)
    ∧ readable out' = drop n content
    ∧ ring_strict out'.
Proof.
  intros content Hbuf Hn.
  destruct (ring_strict_ring _ Hbuf) as (W & R & mem & Hout & HR & HW & HL).
  subst content. rewrite Hout in *.
  destruct (circbuf_advance_read_drops W R mem n)
    as (W' & R' & Hadv & HR' & HW' & Hread & Hiff); [done..|lia|].
  assert (n < length mem)%nat as HnL.
  { pose proof (length_readable W R mem) as Hlen.
    rewrite circbuf_used_ring in Hlen by lia.
    destruct (decide (W < R)%nat); lia. }
  unfold handle_client_writebuf. cbn [ret].
  assert ((Z.of_nat n =? 0) = false) as -> by lia.
  assert ((Z.of_nat n =? -1) = false) as -> by lia.
  cbn [output set_output]. rewrite Hout.
  rewrite (to_u64_small (Z.of_nat n)) by (unfold INT_MAX in HL; lia).
  rewrite Hadv. cbn [read_cursor write_cursor ring].
  fold (readable (ring W R mem)).
  assert ((0 <? Z.of_nat n) = true) as Hpos by lia.
  exists (ring W' R' mem).
  destruct (decide (n = length (readable (ring W R mem)))) as [Hall|Hpart].
  - assert ((Z.of_nat R' =? Z.of_nat W') = true) as ->
      by (apply Z.eqb_eq; f_equal; tauto).
    eexists _, _. split_and!.
    + reflexivity.
    + unfold emit. simpl. rewrite <- !app_assoc. reflexivity.
    + simpl. rewrite Z.eqb_refl, Hpos. simpl.
      by rewrite Nat2Z.id, app_nil_r.
    + done.
    + done.
    + by apply ring_strict_intro.
  - assert ((Z.of_nat R' =? Z.of_nat W') = false) as ->
      by (apply Z.eqb_neq; intros ?; apply Hpart, Hiff; lia).
    eexists _, _. split_and!.
    + reflexivity.
    + unfold schedule_async, emit. simpl. rewrite <- !app_assoc. reflexivity.
    + simpl. rewrite Z.eqb_refl, Hpos. simpl.
      by rewrite Nat2Z.id, app_nil_r.
    + done.
    + done.
    + by apply ring_strict_intro.
Qed.

(** A [writev] that takes [n] bytes of the output ring: the socket has
    been given the first [n] bytes of the readable content, in order, and
    the ring, well formed again, holds the rest.  The connection leaves
    the buffered state exactly when the ring has been drained, and the
    write watcher is scheduled again exactly when it has not. *)
Theorem handle_client_writebuf_drains_in_order :
  ∀ watch watch_fd (n : nat) e conn netconf,
    let content := readable (output conn) in
    ring_strict (output conn) →
    (0 < n ≤ length content)%nat →
    ∃ conn' netconf',
      handle_client_writebuf watch watch_fd (mk_sysret (Z.of_nat n) e) conn
        netconf = (0, conn', netconf')
      ∧ wire watch_fd (drop (length (trace netconf)) (trace netconf'))
        = take n content
      ∧ readable (output conn') = drop n content
      ∧ ring_strict (output conn')
      ∧ input conn' = input conn
      ∧ if decide (n = length content) then
          use_write_buf conn' = 0 ∧ events netconf' = events netconf
        else
          use_write_buf conn' = use_write_buf conn
          ∧ events netconf'
            = mk_async_event SCHEDULE_WATCHER (Some watch) :: events netconf.
Proof.
  intros watch watch_fd n e conn netconf content Hbuf Hn.
  destruct (writebuf_drains watch watch_fd n e conn netconf Hbuf Hn)
    as (out' & netconf' & delta & Heq & Htrace & Hwire & Hev & Hread & Hok).
  fold content in Heq, Hwire, Hread, Hev.
  eexists _, _. split; [exact Heq|].
  rewrite Htrace, drop_app_length.
  destruct (decide (n = length content)); done.
Qed.

Lemma handle_client_writebuf_drains_in_order_witness :
  (ring_strict (output backlogged_conn)
   ∧ (0 < 2 ≤ length (readable (output backlogged_conn)))%nat)
  ∧ ∃ conn' netconf',
      handle_client_writebuf (conn_write_client 7) 7 (mk_sysret 2 0)
        backlogged_conn fresh_netconf = (0, conn', netconf')
      ∧ wire 7 (trace netconf') = ["h"; "i"]%byte
      ∧ readable (output conn') = []
      ∧ use_write_buf conn' = 0
      ∧ events netconf' = [].
Proof.
  assert (ring_strict (output backlogged_conn)) as Hok.
  { split; [|vm_compute; done].
    eexists. split; [reflexivity|]. vm_compute. intuition congruence. }
  assert (0 < 2 ≤ length (readable (output backlogged_conn)))%nat as Hn
    by (vm_compute; lia).
  split; [done|].
  destruct (handle_client_writebuf_drains_in_order (conn_write_client 7) 7 2 0
              backlogged_conn fresh_netconf Hok Hn)
    as (conn' & netconf' & Hwb & Hwire & Hread & _ & _ & Huse & Hev).
  exists conn', netconf'. split; [exact Hwb|]. split; [exact Hwire|].
  split; [exact Hread|]. split; [exact Huse|exact Hev].
Defined.

Lemma readable_circbuf_reset buf : readable (circbuf_reset buf) = [].
Proof. unfold circbuf_reset. by destruct (_ <? _). Qed.

Lemma circbuf_reset_cursors buf :
  read_cursor (circbuf_reset buf) = 0 ∧ write_cursor (circbuf_reset buf) = 0.
Proof. unfold circbuf_reset. by destruct (_ <? _). Qed.

(** A [writev] on the output ring that writes nothing or fails.  When the
    call would have blocked or was interrupted, the connection stays as it
    is and the write watcher is scheduled again while the ring holds
    bytes.  In every other case the connection is closed under the output
    lock: it is left unscheduled, out of the buffered state and with empty
    rings, and its write watcher is not scheduled again. *)
Theorem handle_client_writebuf_failed_write :
  ∀ watch watch_fd n e conn netconf,
    n = 0 ∨ n = -1 →
    let lock := output_lock (conn_addr conn) in
    let offered := readable (output conn) in
    ∃ conn' netconf',
      handle_client_writebuf watch watch_fd (mk_sysret n e) conn netconf
      = (0, conn', netconf')
      ∧ if decide (n = -1 ∧ (e = EAGAIN ∨ e = EINTR)) then
          (if decide (read_cursor (output conn) = write_cursor (output conn))
           then conn' = set_use_write_buf 0 conn
                ∧ events netconf' = events netconf
           else conn' = conn
                ∧ events netconf'
                  = mk_async_event SCHEDULE_WATCHER (Some watch)
                      :: events netconf)
          ∧ SysClose (fd (client conn))
            ∉ drop (length (trace netconf)) (trace netconf')
        else
          should_schedule conn' = 0
          ∧ use_write_buf conn' = 0
          ∧ readable (input conn') = []
          ∧ readable (output conn') = []
          ∧ events netconf' = events netconf
          ∧ trace netconf'
            = trace netconf
                ++ [Lock lock; SysWritev watch_fd offered n;
                    EvIoStop (conn_client (conn_addr conn));
                    EvIoStop (conn_write_client (conn_addr conn));
                    SysClose (fd (client conn)); Unlock lock].
Proof.
  intros watch watch_fd n e conn netconf Hn lock offered.
  unfold handle_client_writebuf. cbn [ret errno].
  fold (readable (output conn)). fold offered. fold lock.
  assert (∀ conn0 netconf0 netconf1,
    close_client_connection conn netconf0 = (conn0, netconf1) →
    (read_cursor (output conn0) =? write_cursor (output conn0)) = true)
    as Hreset.
  { intros conn0 netconf0 netconf1 [= <- <-]. cbn [output set_output].
    destruct (circbuf_reset_cursors (output conn)) as [-> ->]. done. }
  assert (∃ conn' netconf',
    (let '(conn0, netconf0) :=
       close_client_connection conn
         (emit (SysWritev watch_fd offered n) (emit (Lock lock) netconf)) in
     let '(conn1, netconf1) :=
       if read_cursor (output conn0) =? write_cursor (output conn0)
       then (set_use_write_buf 0 conn0, netconf0)
       else if negb (0 =? 0)
            then (conn0, schedule_async SCHEDULE_WATCHER (Some watch) netconf0)
            else (conn0, netconf0) in
     (0, conn1, emit (Unlock (output_lock (conn_addr conn1))) netconf1))
    = (0, conn', netconf')
    ∧ should_schedule conn' = 0 ∧ use_write_buf conn' = 0
    ∧ readable (input conn') = [] ∧ readable (output conn') = []
    ∧ events netconf' = events netconf
    ∧ trace netconf'
      = trace netconf
          ++ [Lock lock; SysWritev watch_fd offered n;
              EvIoStop (conn_client (conn_addr conn));
              EvIoStop (conn_write_client (conn_addr conn));
              SysClose (fd (client conn)); Unlock lock]) as Hclosed.
  { destruct (close_client_connection conn _) as [conn0 netconf0] eqn:Hclose.
    rewrite (Hreset _ _ _ Hclose).
    eexists _, _. split; [reflexivity|].
    injection Hclose as <- <-.
    cbn [should_schedule use_write_buf set_use_write_buf set_output set_input
         set_should_schedule input output].
    rewrite !readable_circbuf_reset.
    split_and!; try done.
    unfold emit. simpl. by rewrite <- !app_assoc. }
  destruct Hn as [-> | ->].
  - destruct (decide (0 = -1 ∧ (e = EAGAIN ∨ e = EINTR))) as [[? _]|_];
      [lia|exact Hclosed].
  - change (-1 =? 0) with false. change (-1 =? -1) with true. cbv iota.
    destruct (decide (-1 = -1 ∧ (e = EAGAIN ∨ e = EINTR)))
      as [[_ Hretry]|Hfatal].
    + assert (negb (e =? EAGAIN) && negb (e =? EINTR) = false) as ->.
      { destruct Hretry as [-> | ->]; done. }
      destruct (decide (read_cursor (output conn) = write_cursor (output conn)))
        as [Heq|Hne].
      * rewrite Heq, Z.eqb_refl.
        eexists _, _. split; [reflexivity|]. split; [done|].
        unfold emit. simpl. rewrite <- !app_assoc, drop_app_length.
        simpl. rewrite !elem_of_cons, elem_of_nil. intros Hin.
        repeat destruct Hin as [Hin|Hin]; done.
      * assert ((read_cursor (output conn) =? write_cursor (output conn))
                = false) as -> by lia.
        eexists _, _. split; [reflexivity|]. split; [done|].
        unfold schedule_async, emit. simpl.
        rewrite <- !app_assoc, drop_app_length.
        simpl. rewrite !elem_of_cons, elem_of_nil. intros Hin.
        repeat destruct Hin as [Hin|Hin]; done.
    + assert (negb (e =? EAGAIN) && negb (e =? EINTR) = true) as ->.
      { apply andb_true_intro.
        split; apply negb_true_iff, Z.eqb_neq; intros ->; tauto. }
      exact Hclosed.
Qed.

Lemma handle_client_writebuf_failed_write_witness :
  (0 = 0 ∨ 0 = -1)
  ∧ ∃ conn' netconf',
      handle_client_writebuf (conn_write_client 7) 7 (mk_sysret 0 0)
        backlogged_conn fresh_netconf = (0, conn', netconf')
      ∧ should_schedule conn' = 0
      ∧ use_write_buf conn' = 0
      ∧ readable (output conn') = []
      ∧ events netconf' = []
      ∧ trace netconf'
        = [Lock (output_lock 7); SysWritev 7 ["h"; "i"]%byte 0;
           EvIoStop (conn_client 7); EvIoStop (conn_write_client 7);
           SysClose 7; Unlock (output_lock 7)].
Proof.
  assert (0 = 0 ∨ 0 = -1) as Hn by (left; reflexivity).
  split; [done|].
  destruct (handle_client_writebuf_failed_write (conn_write_client 7) 7 0 0
              backlogged_conn fresh_netconf Hn)
    as (conn' & netconf' & Hwb & Hsched & Huse & _ & Hout & Hev & Htrace).
  exists conn', netconf'. split; [exact Hwb|]. split; [exact Hsched|].
  split; [exact Huse|]. split; [exact Hout|]. split; [exact Hev|exact Htrace].
Defined.

(** ** Responses that are queued or written whole *)

Lemma circbuf_write_room out b rem :
  room out rem →
  Z.of_nat (length b) ≤ rem →
  ∃ out',
    circbuf_write out b (to_u64 (Z.of_nat (length b))) = Some (0, out')
    ∧ readable out' = readable out ++ b
    ∧ read_cursor out' = read_cursor out
    ∧ write_cursor out' = write_cursor out + Z.of_nat (length b)
    ∧ buf_size out' = buf_size out
    ∧ room out' (rem - Z.of_nat (length b)).
Proof.
  intros Hroom Hrem.
  pose proof (room_bound _ _ Hroom) as Hmax. unfold INT_MAX in Hmax.
  rewrite to_u64_small by lia. by apply circbuf_write_fits.
Qed.

Lemma copy_buffers_all bufs rest :
  ∀ (i : nat) out rem,
    drop i bufs = rest →
    room out rem →
    Z.of_nat (length (concat rest)) ≤ rem →
    ∃ out',
      copy_buffers (length rest) (Z.of_nat i) out bufs (sizes_of bufs)
      = Some (0, out')
      ∧ readable out' = readable out ++ concat rest
      ∧ read_cursor out' = read_cursor out
      ∧ write_cursor out'
        = write_cursor out + Z.of_nat (length (concat rest))
      ∧ buf_size out' = buf_size out
      ∧ ring_ok out'.
Proof.
  induction rest as [|b rest IH]; intros i out rem Hdrop Hroom Hrem.
  { exists out. simpl. rewrite app_nil_r, Z.add_0_r.
    split_and!; try done. apply Hroom. }
  assert (bufs !! i = Some b) as Hb.
  { rewrite <- (Nat.add_0_r i), <- lookup_drop, Hdrop. done. }
  assert (drop (S i) bufs = rest) as Hdrop'.
  { rewrite (drop_S _ _ _ Hb) in Hdrop. by simplify_eq. }
  simpl in Hrem. rewrite length_app in Hrem.
  destruct (circbuf_write_room out b rem Hroom) as
    (out1 & Hw & Hc & Hr & Hcur & Hs & Hroom1); [lia|].
  destruct (IH (S i) out1 (rem - Z.of_nat (length b)))
    as (out' & Hcopy & Hc' & Hr' & Hcur' & Hs' & Hok'); [done|done|lia|].
  exists out'. split_and!.
  - simpl length. cbn [copy_buffers].
    rewrite (response_buffer_nat _ _ _ Hb), (buf_size_at_nat _ _ _ Hb).
    rewrite Hw. cbn [mbind option_bind Z.eqb negb].
    replace (Z.of_nat i + 1) with (Z.of_nat (S i)) by lia. done.
  - rewrite Hc', Hc. simpl. by rewrite <- app_assoc.
  - congruence.
  - rewrite Hcur', Hcur. simpl. rewrite length_app. lia.
  - congruence.
  - done.
Qed.

(** In the buffered state a response is only queued: with room in the
    output ring for all of it (no growth, no wrap past the end of the
    buffer), [send_client_response] appends the buffers to the ring in
    order, behind what is already queued, answers 0 and makes no system
    call; the connection stays in the buffered state. *)
Theorem send_client_response_buffered_queues_in_order :
  ∀ conn response_buffers wv netconf,
    response_buffers ≠ [] →
    use_write_buf conn ≠ 0 →
    room (output conn) (Z.of_nat (length (concat response_buffers))) →
    let lock := output_lock (conn_addr conn) in
    ∃ out',
      send_client_response conn response_buffers (sizes_of response_buffers)
        (Z.of_nat (length response_buffers)) wv netconf
      = Some (0, set_output out' conn, emit (Unlock lock) (emit (Lock lock) netconf))
      ∧ readable out' = readable (output conn) ++ concat response_buffers
      ∧ ring_ok out'.
Proof.
  intros conn bufs wv netconf Hbufs Hbuffered Hroom lock.
  unfold send_client_response.
  assert ((Z.of_nat (length bufs) <=? 0) = false) as ->.
  { apply Z.leb_gt. destruct bufs; [done|simpl; lia]. }
  assert ((use_write_buf conn =? 0) = false) as Hne by lia.
  rewrite Hne. cbn [negb].
  unfold send_client_response_buffered. rewrite Hne.
  rewrite Nat2Z.id.
  destruct (copy_buffers_all bufs bufs 0 (output conn) _ eq_refl Hroom)
    as (out' & Hcopy & Hc & _ & _ & _ & Hok); [lia|].
  change 0 with (Z.of_nat 0) at 1. rewrite Hcopy.
  cbn [mbind option_bind]. by exists out'.
Qed.

Lemma send_client_response_buffered_queues_in_order_witness :
  ([abc; def] ≠ []
   ∧ use_write_buf backlogged_conn ≠ 0
   ∧ room (output backlogged_conn) (Z.of_nat (length (concat [abc; def]))))
  ∧ ∃ out',
      send_client_response backlogged_conn [abc; def] [3; 3] 2
        (mk_sysret 6 0) fresh_netconf
      = Some (0, set_output out' backlogged_conn,
              emit (Unlock (output_lock 7))
                (emit (Lock (output_lock 7)) fresh_netconf))
      ∧ readable out' = ["h"; "i"; "a"; "b"; "c"; "d"; "e"; "f"]%byte.
Proof.
  assert ([abc; def] ≠ []) as Hbufs by discriminate.
  assert (use_write_buf backlogged_conn ≠ 0) as Hbuffered by discriminate.
  assert (room (output backlogged_conn)
            (Z.of_nat (length (concat [abc; def])))) as Hroom.
  { split_and!.
    - eexists. split; [reflexivity|]. vm_compute. intuition congruence.
    - vm_compute. congruence.
    - vm_compute. congruence.
    - right. vm_compute. congruence. }
  split; [done|].
  destruct (send_client_response_buffered_queues_in_order backlogged_conn
              [abc; def] (mk_sysret 6 0) fresh_netconf Hbufs Hbuffered Hroom)
    as (out' & Hsend & Hread & _).
  exists out'. split; [exact Hsend|exact Hread].
Defined.

Lemma direct_vectors_sizes_of bufs :
  direct_vectors bufs (sizes_of bufs) (Z.of_nat (length bufs)) = bufs.
Proof.
  unfold direct_vectors. rewrite Nat2Z.id.
  apply list_eq. intros i. rewrite list_lookup_fmap.
  destruct (bufs !! i) as [b|] eqn:Hb.
  - rewrite lookup_seq_lt by (by eapply lookup_lt_Some). simpl.
    rewrite (buf_size_at_nat _ _ _ Hb), (response_buffer_nat _ _ _ Hb).
    by rewrite Nat2Z.id, firstn_all.
  - rewrite lookup_seq_ge by (by apply lookup_ge_None). done.
Qed.

Lemma copy_unsent_whole bufs rest :
  ∀ (i : nat) out rem index skip_bytes sent,
    index < Z.of_nat i →
    drop i bufs = rest →
    room out rem →
    Z.of_nat (length (concat rest)) ≤ rem →
    ∃ out',
      copy_unsent (length rest) (Z.of_nat i) index skip_bytes sent out bufs
        (sizes_of bufs) = Some (true, out')
      ∧ readable out' = readable out ++ concat rest
      ∧ read_cursor out' = read_cursor out
      ∧ write_cursor out'
        = write_cursor out + Z.of_nat (length (concat rest))
      ∧ buf_size out' = buf_size out
      ∧ ring_ok out'.
Proof.
  induction rest as [|b rest IH];
    intros i out rem index skip_bytes sent Hi Hdrop Hroom Hrem.
  { exists out. simpl. rewrite app_nil_r, Z.add_0_r.
    split_and!; try done. apply Hroom. }
  assert (bufs !! i = Some b) as Hb.
  { rewrite <- (Nat.add_0_r i), <- lookup_drop, Hdrop. done. }
  assert (drop (S i) bufs = rest) as Hdrop'.
  { rewrite (drop_S _ _ _ Hb) in Hdrop. by simplify_eq. }
  simpl in Hrem. rewrite length_app in Hrem.
  pose proof (room_bound _ _ Hroom) as Hmax. unfold INT_MAX in Hmax.
  destruct (circbuf_write_fits out b rem Hroom) as
    (out1 & Hw & Hc & Hr & Hcur & Hs & Hroom1); [lia|].
  destruct (IH (S i) out1 (rem - Z.of_nat (length b)) index skip_bytes sent)
    as (out' & Hcopy & Hc' & Hr' & Hcur' & Hs' & Hok'); [lia|done|done|lia|].
  exists out'. split_and!.
  - simpl length. cbn [copy_unsent].
    assert ((Z.of_nat i =? index) = false) as -> by lia.
    cbn [andb Z.to_nat drop].
    rewrite (response_buffer_nat _ _ _ Hb), (buf_size_at_nat _ _ _ Hb).
    rewrite Z.sub_0_r, to_int_small, to_u64_small by lia.
    change (Z.to_nat 0) with 0%nat. rewrite drop_0.
    rewrite Hw. cbn [mbind option_bind Z.eqb negb].
    replace (Z.of_nat i + 1) with (Z.of_nat (S i)) by lia. done.
  - rewrite Hc', Hc. simpl. by rewrite <- app_assoc.
  - congruence.
  - rewrite Hcur', Hcur. simpl. rewrite length_app. lia.
  - congruence.
  - done.
Qed.

(** [send_client_response_direct] after a write that ended inside the
    first buffer or failed with a transient error, with the state it
    leaves in full. *)
Lemma send_direct_first_buffer conn b0 rest sent e netconf :
  let response_buffers := b0 :: rest in
  let unsent := drop (Z.to_nat sent) (concat response_buffers) in
  Z.of_nat (length (concat response_buffers)) ≤ INT_MAX →
  (0 ≤ sent < Z.of_nat (length b0)
   ∨ (sent = -1 ∧ (e = EAGAIN ∨ e = EINTR ∨ e = EWOULDBLOCK))) →
  room (output conn) (Z.of_nat (length unsent)) →
  ∃ out',
    send_client_response_direct conn response_buffers
      (sizes_of response_buffers) (Z.of_nat (length response_buffers))
      (mk_sysret sent e) netconf
    = Some (0, set_use_write_buf 1 (set_output out' conn),
            schedule_async SCHEDULE_WATCHER
              (Some (conn_write_client (conn_addr conn)))
              (emit (SysWritev (fd (client conn)) (concat response_buffers)
                       sent) netconf))
    ∧ readable out' = readable (output conn) ++ unsent
    ∧ read_cursor out' = read_cursor (output conn)
    ∧ write_cursor out'
      = write_cursor (output conn) + Z.of_nat (length unsent)
    ∧ buf_size out' = buf_size (output conn)
    ∧ ring_ok out'.
Proof.
  intros bufs unsent Htotal Hsent Hroom.
  pose proof (room_bound _ _ Hroom) as Hmax. unfold INT_MAX in Hmax, Htotal.
  set (s := Z.to_nat sent) in *.
  assert (s ≤ length b0)%nat as Hs by lia.
  assert (unsent = drop s b0 ++ concat rest) as Hunsent.
  { subst unsent bufs. simpl. by rewrite drop_app_le. }
  assert (Z.of_nat (length b0) ≤ 2 ^ 31 - 1) as Hb0.
  { subst bufs. simpl in Htotal. rewrite length_app in Htotal. lia. }
  unfold send_client_response_direct. cbv zeta. simpl ret. simpl errno.
  rewrite total_bytes_sizes_of, direct_vectors_sizes_of.
  assert ((sent =? Z.of_nat (length (concat bufs))) = false) as ->.
  { subst bufs. simpl. rewrite length_app. apply Z.eqb_neq. lia. }
  assert (((sent =? -1)
           && (negb (e =? EAGAIN) && negb (e =? EINTR)
               && negb (e =? EWOULDBLOCK))) = false) as ->.
  { destruct Hsent as [Hsent|(Hminus & He)].
    - by assert ((sent =? -1) = false) as -> by (apply Z.eqb_neq; lia).
    - destruct He as [He|[He|He]]; rewrite He; simpl;
        by rewrite ?andb_false_r. }
  assert (left_off (Z.to_nat (Z.of_nat (length bufs))) 0 0 (sizes_of bufs) sent
          = (0, 0)) as ->.
  { rewrite Nat2Z.id. subst bufs. simpl length. cbn [left_off].
    change 0 with (Z.of_nat 0) at 2.
    rewrite (buf_size_at_nat (b0 :: rest) 0 b0) by done.
    rewrite Z.add_0_l.
    rewrite to_int_small by lia.
    by assert ((sent <? Z.of_nat (length b0)) = true) as ->
      by (apply Z.ltb_lt; lia). }
  cbn [fst snd]. rewrite Z.sub_0_r, Nat2Z.id.
  subst bufs. simpl length. cbn [copy_unsent].
  change (0 =? 0) with true. cbn [andb].
  assert ((if 0 <? sent then to_int (sent - 0) else 0) = Z.of_nat s) as ->.
  { destruct (0 <? sent) eqn:Hpos.
    - rewrite Z.sub_0_r, to_int_small by lia. lia.
    - lia. }
  rewrite Nat2Z.id.
  change (response_buffer (b0 :: rest) 0) with b0.
  change (buf_size_at (sizes_of (b0 :: rest)) 0) with (Z.of_nat (length b0)).
  replace (Z.of_nat (length b0) - Z.of_nat s)
    with (Z.of_nat (length (drop s b0))) by (rewrite length_drop; lia).
  assert (Z.of_nat (length (drop s b0)) ≤ Z.of_nat (length unsent)) as Hfirst
    by (rewrite Hunsent, length_app; lia).
  rewrite to_int_small, to_u64_small by lia.
  destruct (circbuf_write_fits (output conn) (drop s b0) _ Hroom Hfirst)
    as (out1 & Hw & Hc & Hr & Hcur & Hsz & Hroom1).
  rewrite Hw. cbn [mbind option_bind Z.eqb negb].
  destruct (copy_unsent_whole (b0 :: rest) rest 1 out1
              (Z.of_nat (length unsent) - Z.of_nat (length (drop s b0)))
              0 0 sent) as (out' & Hcopy & Hc' & Hr' & Hcur' & Hsz' & Hok');
    [lia|done|done|rewrite Hunsent, length_app; lia|].
  change (0 + 1) with (Z.of_nat 1). rewrite Hcopy.
  cbn [mbind option_bind fst snd].
  exists out'. split; [reflexivity|].
  split_and!; [|congruence| |congruence|done].
  - by rewrite Hc', Hc, Hunsent, <- app_assoc.
  - rewrite Hcur', Hcur, Hunsent, length_app. lia.
Qed.

(** A [writev] that takes the whole response leaves the connection as it
    is: nothing is queued, nothing is scheduled, and the socket has been
    given the buffers in order.  A [writev] that fails for good closes
    the connection, and the answer is 1. *)
Theorem send_client_response_whole_or_failed :
  ∀ conn response_buffers sent e netconf,
    let total := Z.of_nat (length (concat response_buffers)) in
    let netconf1 :=
      emit (SysWritev (fd (client conn)) (concat response_buffers) sent)
        netconf in
    response_buffers ≠ [] →
    use_write_buf conn = 0 →
    sent = total
    ∨ (sent = -1 ∧ e ≠ EAGAIN ∧ e ≠ EINTR ∧ e ≠ EWOULDBLOCK) →
    send_client_response conn response_buffers (sizes_of response_buffers)
      (Z.of_nat (length response_buffers)) (mk_sysret sent e) netconf
    = if decide (sent = total) then Some (0, conn, netconf1)
      else Some (1, (close_client_connection conn netconf1).1,
                 (close_client_connection conn netconf1).2).
Proof.
  intros conn bufs sent e netconf total netconf1 Hbufs Hdirect Hsent.
  unfold send_client_response.
  assert ((Z.of_nat (length bufs) <=? 0) = false) as ->.
  { apply Z.leb_gt. destruct bufs; [done|simpl; lia]. }
  rewrite Hdirect. cbn [Z.eqb negb].
  unfold send_client_response_direct. cbn [ret errno].
  rewrite total_bytes_sizes_of, direct_vectors_sizes_of.
  fold total. fold netconf1.
  destruct (decide (sent = total)) as [->|Hne].
  - by rewrite Z.eqb_refl.
  - destruct Hsent as [?|(-> & He1 & He2 & He3)]; [done|].
    assert ((-1 =? total) = false) as -> by lia.
    assert ((e =? EAGAIN) = false) as -> by lia.
    assert ((e =? EINTR) = false) as -> by lia.
    assert ((e =? EWOULDBLOCK) = false) as -> by lia.
    cbn [Z.eqb negb andb].
    by destruct (close_client_connection conn netconf1).
Qed.

Lemma send_client_response_whole_or_failed_witness :
  ([abc; def] ≠ []
   ∧ use_write_buf fresh_conn = 0
   ∧ (6 = Z.of_nat (length (concat [abc; def]))
      ∨ (6 = -1 ∧ 0 ≠ EAGAIN ∧ 0 ≠ EINTR ∧ 0 ≠ EWOULDBLOCK)))
  ∧ send_client_response fresh_conn [abc; def] [3; 3] 2 (mk_sysret 6 0)
      fresh_netconf
    = Some (0, fresh_conn,
            emit (SysWritev 7 ["a"; "b"; "c"; "d"; "e"; "f"]%byte 6)
              fresh_netconf).
Proof.
  assert ([abc; def] ≠ []) as Hbufs by discriminate.
  assert (use_write_buf fresh_conn = 0) as Hdirect by reflexivity.
  assert (6 = Z.of_nat (length (concat [abc; def]))
          ∨ (6 = -1 ∧ 0 ≠ EAGAIN ∧ 0 ≠ EINTR ∧ 0 ≠ EWOULDBLOCK)) as Hsent
    by (left; reflexivity).
  split; [done|].
  exact (send_client_response_whole_or_failed fresh_conn [abc; def] 6 0
           fresh_netconf Hbufs Hdirect Hsent).
Defined.


Lemma write_ready_drains ns :
  ∀ conn netconf,
    ring_strict (output conn) →
    Forall (λ n, 0 < n)%nat ns →
    ns ≠ [] →
    sum_list ns = length (readable (output conn)) →
    ∃ conn' netconf' delta,
      write_ready ((λ n, mk_sysret (Z.of_nat n) 0) <$> ns) conn netconf
      = (conn', netconf')
      ∧ trace netconf' = trace netconf ++ delta
      ∧ wire (fd (write_client conn)) delta = readable (output conn)
      ∧ use_write_buf conn' = 0
      ∧ readable (output conn') = [].
Proof.
  induction ns as [|n ns IH]; intros conn netconf Hbuf Hpos Hne Hsum; [done|].
  apply Forall_cons_1 in Hpos as [Hn Hpos]. simpl in Hsum.
  destruct (writebuf_drains (conn_write_client (conn_addr conn))
              (fd (write_client conn)) n 0 conn netconf Hbuf)
    as (out' & netconf1 & delta & Heq & Htrace & Hwire & _ & Hread & Hok);
    [lia|].
  cbn [fmap list_fmap write_ready]. rewrite Heq.
  destruct (decide (n = length (readable (output conn)))) as [Hall|Hpart].
  - assert (ns = []) as ->.
    { destruct ns as [|m ns]; [done|].
      apply Forall_cons_1 in Hpos as [Hm _]. simpl in Hsum. lia. }
    simpl. eexists _, _, delta. split; [reflexivity|].
    split_and!; [done| |done|].
    + rewrite Hwire, Hall. apply firstn_all.
    + cbn [output set_output set_use_write_buf]. rewrite Hread, Hall.
      apply drop_all.
  - destruct (IH (set_output out' conn) netconf1)
      as (conn' & netconf' & delta' & Heq' & Htrace' & Hwire' & Huse & Hempty).
    + done.
    + done.
    + intros ->. simpl in Hsum. lia.
    + cbn [output set_output]. rewrite Hread, length_drop. lia.
    + exists conn', netconf', (delta ++ delta'). split; [exact Heq'|].
      split_and!; [|  |done|done].
      * by rewrite Htrace', Htrace, app_assoc.
      * rewrite wire_app, Hwire. cbn [write_client set_output] in Hwire'.
        rewrite Hwire'. cbn [output set_output]. rewrite Hread.
        apply take_drop.
Qed.

(** A response on the direct path whose first [writev] ends inside the
    first buffer, or fails with a transient error, still arrives complete
    and in order: the rest is queued in the empty output ring, and once
    the write watcher has fired for [writev]s that take the rest in
    pieces of any sizes, the socket has been given exactly the buffers of
    the response, and the connection is back on the direct path with an
    empty ring. *)
Theorem short_response_arrives_complete :
  ∀ conn b0 rest sent e (ns : list nat) netconf,
    let response_buffers := b0 :: rest in
    let unsent := drop (Z.to_nat sent) (concat response_buffers) in
    use_write_buf conn = 0 →
    ring_ok (output conn) →
    read_cursor (output conn) = 0 ∧ write_cursor (output conn) = 0 →
    fd (write_client conn) = fd (client conn) →
    Z.of_nat (length (concat response_buffers)) ≤ INT_MAX →
    Z.of_nat (length unsent) < buf_size (output conn) →
    (0 ≤ sent < Z.of_nat (length b0)
     ∨ (sent = -1 ∧ (e = EAGAIN ∨ e = EINTR ∨ e = EWOULDBLOCK))) →
    Forall (λ n, 0 < n)%nat ns →
    ns ≠ [] →
    sum_list ns = length unsent →
    ∃ conn1 netconf1 conn2 netconf2,
      send_client_response conn response_buffers (sizes_of response_buffers)
        (Z.of_nat (length response_buffers)) (mk_sysret sent e) netconf
      = Some (0, conn1, netconf1)
      ∧ write_ready ((λ n, mk_sysret (Z.of_nat n) 0) <$> ns) conn1 netconf1
        = (conn2, netconf2)
      ∧ wire (fd (client conn))
          (drop (length (trace netconf)) (trace netconf2))
        = concat response_buffers
      ∧ use_write_buf conn2 = 0
      ∧ readable (output conn2) = [].
Proof.
  intros conn b0 rest sent e ns netconf bufs unsent Hdirect Hok [Hr Hw] Hfd
    Htotal Hfits Hsent Hpos Hne Hsum.
  pose proof Hok as (mem & Hmem & Hlen & Hsize & _).
  assert (room (output conn) (Z.of_nat (length unsent))) as Hroom.
  { split; [done|]. unfold circbuf_avail_buf. rewrite Hr, Hw. simpl.
    unfold INT_MAX in Hsize.
    rewrite to_u32_small, to_u64_small by lia. lia. }
  destruct (send_direct_first_buffer conn b0 rest sent e netconf
              Htotal Hsent Hroom)
    as (out' & Hsend & Hread & Hr' & Hw' & Hs' & Hok').
  fold bufs unsent in Hsend, Hread, Hw'.
  assert (readable (output conn) = []) as Hempty.
  { unfold readable, circbuf_setup_writev_iovec. by rewrite Hr, Hw. }
  rewrite Hempty in Hread. simpl in Hread.
  set (conn1 := set_use_write_buf 1 (set_output out' conn)) in *.
  assert (ring_strict (output conn1)) as Hstrict.
  { split; [done|]. subst conn1. cbn [output set_output set_use_write_buf].
    lia. }
  set (netconf1 :=
         schedule_async SCHEDULE_WATCHER
           (Some (conn_write_client (conn_addr conn)))
           (emit (SysWritev (fd (client conn)) (concat bufs) sent) netconf))
    in *.
  destruct (write_ready_drains ns conn1 netconf1 Hstrict Hpos Hne)
    as (conn2 & netconf2 & delta & Hdrain & Htrace & Hwire & Huse & Hdone).
  { subst conn1. cbn [output set_output set_use_write_buf]. by rewrite Hread. }
  exists conn1, netconf1, conn2, netconf2. split_and!.
  - unfold send_client_response.
    assert ((Z.of_nat (length bufs) <=? 0) = false) as ->
      by (apply Z.leb_gt; subst bufs; simpl length; lia).
    rewrite Hdirect. exact Hsend.
  - exact Hdrain.
  - rewrite Htrace. subst netconf1. unfold schedule_async, emit. simpl.
    rewrite <- !app_assoc, drop_app_length. simpl.
    subst conn1. cbn [write_client output set_output set_use_write_buf] in Hwire.
    rewrite Hfd in Hwire. rewrite Z.eqb_refl, Hwire, Hread.
    destruct Hsent as [Hsent|[-> _]].
    + destruct (0 <? sent) eqn:Hz; simpl.
      * subst unsent. apply take_drop.
      * assert (sent = 0) as -> by lia. done.
    + done.
  - done.
  - done.
Qed.

Lemma short_response_arrives_complete_witness :
  (use_write_buf fresh_conn = 0
   ∧ ring_ok (output fresh_conn)
   ∧ (read_cursor (output fresh_conn) = 0
      ∧ write_cursor (output fresh_conn) = 0)
   ∧ fd (write_client fresh_conn) = fd (client fresh_conn)
   ∧ Z.of_nat (length (concat [abc; def])) ≤ INT_MAX
   ∧ Z.of_nat (length (drop (Z.to_nat 1) (concat [abc; def])))
     < buf_size (output fresh_conn)
   ∧ (0 ≤ 1 < Z.of_nat (length abc)
      ∨ (1 = -1 ∧ (0 = EAGAIN ∨ 0 = EINTR ∨ 0 = EWOULDBLOCK)))
   ∧ Forall (λ n, 0 < n)%nat [2; 3]%nat
   ∧ [2; 3]%nat ≠ []
   ∧ sum_list [2; 3]%nat
     = length (drop (Z.to_nat 1) (concat [abc; def])))
  ∧ ∃ conn1 netconf1 conn2 netconf2,
      send_client_response fresh_conn [abc; def] [3; 3] 2 (mk_sysret 1 0)
        fresh_netconf = Some (0, conn1, netconf1)
      ∧ write_ready [mk_sysret 2 0; mk_sysret 3 0] conn1 netconf1
        = (conn2, netconf2)
      ∧ wire 7 (trace netconf2) = ["a"; "b"; "c"; "d"; "e"; "f"]%byte
      ∧ use_write_buf conn2 = 0
      ∧ readable (output conn2) = [].
Proof.
  assert (use_write_buf fresh_conn = 0) as H1 by reflexivity.
  assert (ring_ok (output fresh_conn)) as H2.
  { eexists. split; [reflexivity|]. vm_compute. intuition congruence. }
  assert (read_cursor (output fresh_conn) = 0
          ∧ write_cursor (output fresh_conn) = 0) as H3 by done.
  assert (fd (write_client fresh_conn) = fd (client fresh_conn)) as H4
    by reflexivity.
  assert (Z.of_nat (length (concat [abc; def])) ≤ INT_MAX) as H5
    by (vm_compute; congruence).
  assert (Z.of_nat (length (drop (Z.to_nat 1) (concat [abc; def])))
          < buf_size (output fresh_conn)) as H6 by (vm_compute; congruence).
  assert (0 ≤ 1 < Z.of_nat (length abc)
          ∨ (1 = -1 ∧ (0 = EAGAIN ∨ 0 = EINTR ∨ 0 = EWOULDBLOCK))) as H7
    by (left; vm_compute; intuition congruence).
  assert (Forall (λ n, 0 < n)%nat [2; 3]%nat) as H8
    by (repeat constructor; lia).
  assert ([2; 3]%nat ≠ []) as H9 by discriminate.
  assert (sum_list [2; 3]%nat
          = length (drop (Z.to_nat 1) (concat [abc; def]))) as H10
    by reflexivity.
  split; [done|].
  destruct (short_response_arrives_complete fresh_conn abc [def] 1 0
              [2; 3]%nat fresh_netconf H1 H2 H3 H4 H5 H6 H7 H8 H9 H10)
    as (conn1 & netconf1 & conn2 & netconf2 & Hsend & Hdrain & Hwire & Huse
        & Hempty).
  exists conn1, netconf1, conn2, netconf2.
  split; [exact Hsend|]. split; [exact Hdrain|]. split; [exact Hwire|].
  split; [exact Huse|exact Hempty].
Defined.

(** ** Looking up and accepting connections *)

Lemma get_fd_conn_slot client_fd netconf :
  0 < conn_list_size netconf →
  Z.of_nat (length (conns netconf)) = conn_list_size netconf →
  0 ≤ client_fd < 2 ^ 30 →
  ∃ conn netconf',
    get_fd_conn client_fd netconf = Some (conn, netconf')
    ∧ conn = default (zeroed_conn client_fd)
               (mjoin (conns netconf !! Z.to_nat client_fd))
    ∧ conns netconf' !! Z.to_nat client_fd = Some (Some conn)
    ∧ (∀ i : nat, i ≠ Z.to_nat client_fd →
         Z.of_nat i < conn_list_size netconf →
         conns netconf' !! i = conns netconf !! i)
    ∧ client_fd < conn_list_size netconf'
    ∧ conn_list_size netconf ≤ conn_list_size netconf'
    ∧ Z.of_nat (length (conns netconf')) = conn_list_size netconf'
    ∧ events netconf' = events netconf
    ∧ (∃ delta, trace netconf' = trace netconf ++ delta
         ∧ Forall (λ e, e = Lock conns_lock ∨ e = Unlock conns_lock) delta).
Proof.
  intros Hpos Hlen Hfd.
  unfold get_fd_conn.
  set (stage := if conn_list_size netconf <=? client_fd then _ else _).
  assert (∃ netconf1, stage = Some netconf1
    ∧ client_fd < conn_list_size netconf1
    ∧ conn_list_size netconf ≤ conn_list_size netconf1
    ∧ Z.of_nat (length (conns netconf1)) = conn_list_size netconf1
    ∧ (∀ i : nat, Z.of_nat i < conn_list_size netconf →
         conns netconf1 !! i = conns netconf !! i)
    ∧ mjoin (conns netconf1 !! Z.to_nat client_fd)
      = mjoin (conns netconf !! Z.to_nat client_fd)
    ∧ events netconf1 = events netconf
    ∧ (∃ delta, trace netconf1 = trace netconf ++ delta
         ∧ Forall (λ e, e = Lock conns_lock ∨ e = Unlock conns_lock) delta))
    as (netconf1 & Hstage & Hfits & Hmono & Hlen1 & Hkeep & Hslot & Hev & Htr).
  { subst stage. destruct (conn_list_size netconf <=? client_fd) eqn:Hle.
    - apply Z.leb_le in Hle. cbn [conn_list_size emit conns].
      rewrite to_int_small by lia.
      destruct (double_until_ends DOUBLE_FUEL (2 * conn_list_size netconf)
                  client_fd) as (r & -> & Hr1 & Hr2 & Hr3); [lia|lia| |].
      { unfold DOUBLE_FUEL. simpl Z.of_nat.
        assert (2 ^ 30 < 2 ^ 64) by done. nia. }
      cbn [mbind option_bind].
      set (old := take (Z.to_nat (conn_list_size netconf)) (conns netconf)).
      assert (old = conns netconf) as Hold.
      { subst old. apply take_ge. lia. }
      set (new_conns := list_inserts 0 old (replicate (Z.to_nat r) None)).
      assert (length new_conns = Z.to_nat r) as Hnewlen.
      { subst new_conns. by rewrite length_inserts, length_replicate. }
      eexists. split; [reflexivity|].
      cbn [conns set_conns emit conn_list_size trace events].
      clearbody old. subst old. split_and!.
      + lia.
      + lia.
      + lia.
      + intros i Hi. subst new_conns.
        rewrite list_lookup_inserts by (rewrite ?length_replicate; lia).
        f_equal. lia.
      + subst new_conns. rewrite list_lookup_inserts_ge by lia.
        rewrite lookup_replicate_2 by lia.
        by rewrite (lookup_ge_None_2 (conns netconf)) by lia.
      + done.
      + exists [Lock conns_lock; Unlock conns_lock].
        split; [by rewrite <- app_assoc|].
        apply Forall_cons_2; [by left|]. apply Forall_cons_2; [by right|done].
    - apply Z.leb_gt in Hle. exists netconf.
      split_and!; try done; try lia.
      exists []. by rewrite app_nil_r. }
  rewrite Hstage. cbn [mbind option_bind].
  rewrite Hslot.
  destruct (mjoin (conns netconf !! Z.to_nat client_fd)) as [c|] eqn:Hc.
  - exists c, netconf1. split; [done|]. split; [done|].
    split_and!; try done.
    + destruct (conns netconf1 !! Z.to_nat client_fd) as [[c'|]|] eqn:Hc1;
        simpl in Hslot; by simplify_eq.
    + intros i _ Hi. by apply Hkeep.
  - exists (zeroed_conn client_fd), (store_conn (zeroed_conn client_fd) netconf1).
    split; [done|]. split; [done|].
    unfold store_conn. cbn [conns set_conns conn_list_size trace events
                              zeroed_conn conn_addr].
    split_and!; try done.
    + apply list_lookup_insert_eq. lia.
    + intros i Hne Hi. rewrite list_lookup_insert_ne by done. by apply Hkeep.
    + by rewrite length_insert.
Qed.

(** [get_fd_conn] gives the record in the descriptor's slot and makes one
    when the slot is empty: afterwards the slot holds the record that was
    returned, every other slot of the old table holds what it held, and a
    second call for the same descriptor returns the same record and
    changes nothing. *)
Theorem get_fd_conn_returns_the_slot :
  ∀ client_fd netconf,
    0 < conn_list_size netconf →
    Z.of_nat (length (conns netconf)) = conn_list_size netconf →
    0 ≤ client_fd < 2 ^ 30 →
    ∃ conn netconf',
      get_fd_conn client_fd netconf = Some (conn, netconf')
      ∧ conn = default (zeroed_conn client_fd)
                 (mjoin (conns netconf !! Z.to_nat client_fd))
      ∧ conns netconf' !! Z.to_nat client_fd = Some (Some conn)
      ∧ (∀ i : nat, i ≠ Z.to_nat client_fd →
           Z.of_nat i < conn_list_size netconf →
           conns netconf' !! i = conns netconf !! i)
      ∧ get_fd_conn client_fd netconf' = Some (conn, netconf').
Proof.
  intros client_fd netconf Hpos Hlen Hfd.
  destruct (get_fd_conn_slot client_fd netconf Hpos Hlen Hfd)
    as (conn & netconf' & Hget & Hconn & Hslot & Hkeep & Hfits & _ & _).
  exists conn, netconf'. split_and!; try done.
  unfold get_fd_conn.
  assert ((conn_list_size netconf' <=? client_fd) = false) as ->
    by (apply Z.leb_gt; lia).
  cbn [mbind option_bind]. by rewrite Hslot.
Qed.

Lemma get_fd_conn_returns_the_slot_witness :
  (0 < conn_list_size netconf_with_stale_conn
   ∧ Z.of_nat (length (conns netconf_with_stale_conn))
     = conn_list_size netconf_with_stale_conn
   ∧ 0 ≤ 7 < 2 ^ 30)
  ∧ get_fd_conn 7 netconf_with_stale_conn
    = Some (stale_conn, netconf_with_stale_conn).
Proof.
  assert (0 < conn_list_size netconf_with_stale_conn) as H1 by done.
  assert (Z.of_nat (length (conns netconf_with_stale_conn))
          = conn_list_size netconf_with_stale_conn) as H2
    by (vm_compute; reflexivity).
  assert (0 ≤ 7 < 2 ^ 30) as H3 by (vm_compute; intuition congruence).
  split; [done|].
  destruct (get_fd_conn_returns_the_slot 7 netconf_with_stale_conn H1 H2 H3)
    as (conn & netconf' & Hget & Hconn & _).
  rewrite Hget. vm_compute in Hget. by injection Hget as <- <-.
Defined.

(** [accept] handing out a descriptor whose slot of the table is empty:
    [handle_new_client] puts a record there with both rings empty over
    fresh buffers of the initial size, both watchers on the descriptor,
    the direct write path selected, and queues the command that starts
    the read watcher.  The other slots of the table keep what they
    held. *)
Theorem handle_new_client_fills_an_empty_slot :
  ∀ listen_fd client_fd getfl netconf,
    0 < conn_list_size netconf →
    Z.of_nat (length (conns netconf)) = conn_list_size netconf →
    0 ≤ client_fd < 2 ^ 30 →
    0 ≤ getfl →
    mjoin (conns netconf !! Z.to_nat client_fd) = None →
    ∃ netconf',
      handle_new_client listen_fd client_fd getfl 0 netconf = Some netconf'
      ∧ conns netconf' !! Z.to_nat client_fd
        = Some (Some (mk_conn client_fd
                        (mk_ev_io client_fd EV_READ (Some client_fd)) 1
                        empty_ring 0
                        (mk_ev_io client_fd EV_WRITE (Some client_fd))
                        empty_ring))
      ∧ (∀ i : nat, i ≠ Z.to_nat client_fd →
           Z.of_nat i < conn_list_size netconf →
           conns netconf' !! i = conns netconf !! i)
      ∧ events netconf'
        = mk_async_event SCHEDULE_WATCHER (Some (conn_client client_fd))
            :: events netconf.
Proof.
  intros listen_fd client_fd getfl netconf Hpos Hlen Hfd Hgetfl Hempty.
  unfold handle_new_client, set_client_sockopts.
  assert ((client_fd =? -1) = false) as -> by lia.
  assert ((getfl <? 0) = false) as -> by lia.
  cbn [Z.eqb negb].
  set (netconf0 := emit (SysAccept listen_fd client_fd) netconf).
  destruct (get_fd_conn_slot client_fd netconf0)
    as (conn & netconf1 & Hget & Hconn & Hslot & Hkeep & Hfits & Hmono & Hlen1
        & Hev & _); [done..|].
  rewrite Hget. cbn [mbind option_bind].
  change (conns netconf0) with (conns netconf) in Hconn.
  rewrite Hempty in Hconn. simpl in Hconn. subst conn.
  eexists. split; [reflexivity|].
  unfold schedule_async, store_conn.
  cbn [conns events emit set_events set_conns conn_addr zeroed_conn
       set_should_schedule set_watchers set_output set_input input output
       client write_client use_write_buf should_schedule].
  split_and!.
  - rewrite list_lookup_insert_eq by lia. done.
  - intros i Hne Hi. rewrite list_lookup_insert_ne by done.
    by apply Hkeep.
  - by rewrite Hev.
Qed.

Lemma handle_new_client_fills_an_empty_slot_witness :
  (0 < conn_list_size fresh_netconf
   ∧ Z.of_nat (length (conns fresh_netconf)) = conn_list_size fresh_netconf
   ∧ 0 ≤ 7 < 2 ^ 30
   ∧ 0 ≤ 2
   ∧ mjoin (conns fresh_netconf !! Z.to_nat 7) = None)
  ∧ ∃ netconf',
      handle_new_client 3 7 2 0 fresh_netconf = Some netconf'
      ∧ conns netconf' !! 7%nat = Some (Some fresh_conn)
      ∧ events netconf'
        = [mk_async_event SCHEDULE_WATCHER (Some (conn_client 7))].
Proof.
  assert (0 < conn_list_size fresh_netconf) as H1 by done.
  assert (Z.of_nat (length (conns fresh_netconf))
          = conn_list_size fresh_netconf) as H2 by (vm_compute; reflexivity).
  assert (0 ≤ 7 < 2 ^ 30) as H3 by (vm_compute; intuition congruence).
  assert (0 ≤ 2) as H4 by (vm_compute; congruence).
  assert (mjoin (conns fresh_netconf !! Z.to_nat 7) = None) as H5
    by (vm_compute; reflexivity).
  split; [done|].
  destruct (handle_new_client_fills_an_empty_slot 3 7 2 fresh_netconf
              H1 H2 H3 H4 H5) as (netconf' & Hnew & Hslot & _ & Hev).
  exists netconf'. split; [exact Hnew|]. split; [exact Hslot|exact Hev].
Defined.

Section Listeners.

Variable handle_client_connect :
  conn_info → bloom_networking → option (Z * conn_info * bloom_networking).

(** The TCP listener is armed again whatever [accept] and [fcntl]
    answered: [invoke_event_handler] ends by queueing the command that
    starts its watcher.  When the connection could not be set up, that is
    all that happens besides closing the descriptor [accept] gave: the
    table is as it was. *)
Theorem tcp_listener_is_always_rescheduled :
  ∀ revents t netconf,
    0 < conn_list_size netconf →
    Z.of_nat (length (conns netconf)) = conn_list_size netconf →
    k_accept t = -1 ∨ 0 ≤ k_accept t < 2 ^ 30 →
    ∃ netconf' queued,
      invoke_event_handler handle_client_connect
        (mk_userdata (Some tcp_client) revents) t netconf = Some netconf'
      ∧ events netconf'
        = mk_async_event SCHEDULE_WATCHER (Some tcp_client) :: queued
      ∧ (k_accept t = -1 ∨ k_getfl t < 0 ∨ k_setfl t ≠ 0 →
           queued = events netconf
           ∧ conns netconf' = conns netconf
           ∧ trace netconf'
             = trace netconf
                 ++ [SysAccept (fd (tcp_listener netconf)) (k_accept t)]
                 ++ (if decide (k_accept t = -1) then []
                     else [SysClose (k_accept t)])
                 ++ [Lock event_lock; Unlock event_lock; EvAsyncSend]).
Proof.
  intros revents t netconf Hpos Hlen Haccept.
  unfold invoke_event_handler. cbn [ud_watcher mbind option_bind watcher_fd].
  unfold handle_new_client, set_client_sockopts.
  set (netconf0 := emit (SysAccept (fd (tcp_listener netconf)) (k_accept t))
                     netconf).
  destruct (decide (k_accept t = -1)) as [Hfail|Hok].
  { subst netconf0. rewrite Hfail. cbn [Z.eqb mbind option_bind].
    eexists _, _. split; [reflexivity|]. split; [reflexivity|].
    intros _. split_and!; [done..|].
    unfold schedule_async, emit. simpl. by rewrite <- !app_assoc. }
  assert ((k_accept t =? -1) = false) as -> by lia.
  destruct (k_getfl t <? 0) eqn:Hgetfl.
  { cbn [Z.eqb negb mbind option_bind].
    eexists _, _. split; [reflexivity|]. split; [reflexivity|].
    intros _. split_and!; [done..|].
    subst netconf0. unfold schedule_async, emit. simpl.
    by rewrite <- !app_assoc. }
  destruct (k_setfl t =? 0) eqn:Hsetfl; cbn [Z.eqb negb mbind option_bind].
  - destruct (get_fd_conn_slot (k_accept t) netconf0)
      as (conn & netconf1 & Hget & _); [done|done|lia|].
    rewrite Hget. cbn [mbind option_bind].
    eexists _, _. split; [reflexivity|]. split; [reflexivity|].
    intros [?|[?|?]]; lia.
  - eexists _, _. split; [reflexivity|]. split; [reflexivity|].
    intros _. split_and!; [done..|].
    subst netconf0. unfold schedule_async, emit. simpl.
    by rewrite <- !app_assoc.
Qed.

(** The UDP listener is stopped for good by its first datagram: the turn
    of the worker in which it fires stops its watcher and queues no
    command that would start it again. *)
Theorem udp_listener_is_never_rescheduled :
  ∀ self registered revents t netconf,
    should_run netconf ≠ 0 →
    shutdown_while_waiting t = false →
    ev_ready t = [IoReady udp_client revents] →
    ∃ registered' netconf',
      worker_turn handle_client_connect self registered t netconf
      = Some (true, registered', netconf')
      ∧ events netconf' = events netconf
      ∧ trace netconf'
        = trace netconf
            ++ [Lock leader_lock; EvRunOnce; EvIoStop udp_client;
                Unlock leader_lock].
Proof.
  intros self registered revents t netconf Hrun Hshut Hready.
  unfold worker_turn, worker_turn_leader. rewrite Hshut, Hready.
  assert ((should_run netconf =? 0) = false) as Hne by lia.
  destruct (registered =? 0);
    cbn [should_run emit set_threads ev_run prepare_event ud_watcher];
    rewrite Hne; cbn [ev_run prepare_event ud_watcher];
    unfold invoke_event_handler;
    cbn [ud_watcher mbind option_bind watcher_fd];
    eexists _, _; (split; [reflexivity|]); split; try done;
    unfold emit; simpl; by rewrite <- !app_assoc.
Qed.

End Listeners.

Lemma tcp_listener_is_always_rescheduled_witness :
  (0 < conn_list_size fresh_netconf
   ∧ Z.of_nat (length (conns fresh_netconf)) = conn_list_size fresh_netconf
   ∧ (k_accept write_ready_turn = -1
      ∨ 0 ≤ k_accept write_ready_turn < 2 ^ 30))
  ∧ ∃ netconf',
      invoke_event_handler echo_handler
        (mk_userdata (Some tcp_client) EV_READ) write_ready_turn fresh_netconf
      = Some netconf'
      ∧ events netconf'
        = [mk_async_event SCHEDULE_WATCHER (Some tcp_client)]
      ∧ conns netconf' = conns fresh_netconf
      ∧ trace netconf'
        = [SysAccept 3 (-1); Lock event_lock; Unlock event_lock;
           EvAsyncSend].
Proof.
  assert (0 < conn_list_size fresh_netconf) as H1 by done.
  assert (Z.of_nat (length (conns fresh_netconf))
          = conn_list_size fresh_netconf) as H2 by (vm_compute; reflexivity).
  assert (k_accept write_ready_turn = -1
          ∨ 0 ≤ k_accept write_ready_turn < 2 ^ 30) as H3
    by (left; reflexivity).
  split; [done|].
  destruct (tcp_listener_is_always_rescheduled echo_handler EV_READ
              write_ready_turn fresh_netconf H1 H2 H3)
    as (netconf' & queued & Hinv & Hev & Hfail).
  destruct (Hfail (or_introl eq_refl)) as (-> & Hconns & Htrace).
  exists netconf'. split; [exact Hinv|]. split; [exact Hev|].
  split; [exact Hconns|exact Htrace].
Defined.

Lemma udp_listener_is_never_rescheduled_witness :
  (should_run fresh_netconf ≠ 0
   ∧ shutdown_while_waiting udp_ready_turn = false
   ∧ ev_ready udp_ready_turn = [IoReady udp_client EV_READ])
  ∧ ∃ registered' netconf',
      worker_turn echo_handler 11 0 udp_ready_turn fresh_netconf
      = Some (true, registered', netconf')
      ∧ events netconf' = []
      ∧ trace netconf'
        = [Lock leader_lock; EvRunOnce; EvIoStop udp_client;
           Unlock leader_lock].
Proof.
  assert (should_run fresh_netconf ≠ 0) as H1 by discriminate.
  assert (shutdown_while_waiting udp_ready_turn = false) as H2
    by reflexivity.
  assert (ev_ready udp_ready_turn = [IoReady udp_client EV_READ]) as H3
    by reflexivity.
  split; [done|].
  exact (udp_listener_is_never_rescheduled echo_handler 11 0 EV_READ
           udp_ready_turn fresh_netconf H1 H2 H3).
Defined.

(** ** Frames, one after another *)

Lemma ring_ok_intro W R mem :
  (R ≤ length mem)%nat → (W ≤ length mem)%nat → (0 < length mem)%nat →
  Z.of_nat (length mem) ≤ INT_MAX →
  ring_ok (ring W R mem).
Proof.
  intros HR HW HL0 HL. exists mem. unfold ring. simpl.
  split_and!; try done; lia.
Qed.

Lemma extract_found_whole W R mem T p :
  (R ≤ length mem)%nat → (W ≤ length mem)%nat → (0 < length mem)%nat →
  Z.of_nat (length mem) ≤ INT_MAX →
  readable (ring W R mem) !! p = Some T →
  T ∉ take p (readable (ring W R mem)) →
  ∃ out inp',
    extract_to_terminator_input (ring W R mem) T = (0, Some out, inp')
    ∧ buf_len out = Z.of_nat p + 1
    ∧ frame_buf out = take p (readable (ring W R mem)) ++ [x00]
    ∧ readable inp' = drop (S p) (readable (ring W R mem))
    ∧ ring_ok inp'
    ∧ buf_size inp' = Z.of_nat (length mem)
    ∧ if decide (W < R ∧ length mem - R ≤ p)%nat
      then should_free out = 1
      else should_free out = 0
           ∧ mem_read (buf_mem inp') (Z.of_nat R) (Z.of_nat p + 1)
             = frame_buf out.
Proof.
  intros HR HW HL0 HL Hp Hpre.
  destruct (extract_found_ring W R mem T p HR HW HL0 HL Hp Hpre)
    as (out & inp' & Hex & Hlen & Hbuf & Hrest & _).
  exists out, inp'. split_and!; try done.
  - (* the ring afterwards *)
    pose proof (first_occurrence _ _ _ Hp Hpre) as Hfind.
    destruct (decide (W < R)%nat) as [HWR|HWR].
    + rewrite readable_wrap in Hfind by (done || lia).
      apply list_find_app_Some in Hfind as [Htail|(Hge & Htail & Hhead)].
      * pose proof Htail as (Hpt & _ & _)%list_find_Some.
        pose proof (lookup_lt_Some _ _ _ Hpt) as HpL.
        rewrite length_drop in HpL.
        rewrite (extract_tail W R mem T p) in Hex by (done || lia).
        injection Hex as _ <-.
        apply ring_ok_intro; rewrite length_insert; lia.
      * rewrite length_drop in Hge, Hhead.
        pose proof Hhead as (Hk & _ & _)%list_find_Some.
        apply lookup_take_Some in Hk as [Hk HkW].
        rewrite (extract_head W R mem T (p - (length mem - R)))
          in Hex by (done || lia).
        injection Hex as _ <-.
        destruct (decide _);
          apply ring_ok_intro; rewrite length_insert; lia.
    + rewrite readable_nowrap in Hfind by (unfold INT_MAX in *; lia).
      pose proof Hfind as (Hpt & _ & _)%list_find_Some.
      apply lookup_take_Some in Hpt as [Hpt HpW].
      rewrite (extract_nowrap W R mem T p) in Hex by (done || lia).
      injection Hex as _ <-.
      destruct (decide _);
        apply ring_ok_intro; rewrite length_insert; lia.
  - pose proof (first_occurrence _ _ _ Hp Hpre) as Hfind.
    destruct (decide (W < R)%nat) as [HWR|HWR].
    + rewrite readable_wrap in Hfind by (done || lia).
      apply list_find_app_Some in Hfind as [Htail|(Hge & Htail & Hhead)].
      * rewrite (extract_tail W R mem T p) in Hex by (done || lia).
        injection Hex as _ <-. unfold ring. simpl. by rewrite length_insert.
      * rewrite length_drop in Hge, Hhead.
        pose proof Hhead as (Hk & _ & _)%list_find_Some.
        apply lookup_take_Some in Hk as [Hk HkW].
        rewrite (extract_head W R mem T (p - (length mem - R)))
          in Hex by (done || lia).
        injection Hex as _ <-.
        by destruct (decide _); unfold ring; simpl; rewrite length_insert.
    + rewrite readable_nowrap in Hfind by (unfold INT_MAX in *; lia).
      rewrite (extract_nowrap W R mem T p) in Hex by (done || lia).
      injection Hex as _ <-.
      by destruct (decide _); unfold ring; simpl; rewrite length_insert.
  - pose proof (first_occurrence _ _ _ Hp Hpre) as Hfind.
    destruct (decide (W < R)%nat) as [HWR|HWR].
    + rewrite readable_wrap in Hfind, Hbuf by (done || lia).
      apply list_find_app_Some in Hfind as [Htail|(Hge & Htail & Hhead)].
      * pose proof Htail as (Hpt & _ & _)%list_find_Some.
        pose proof (lookup_lt_Some _ _ _ Hpt) as HpL.
        rewrite length_drop in HpL.
        rewrite decide_False by lia.
        rewrite (extract_tail W R mem T p) in Hex by (done || lia).
        injection Hex as <- <-. cbn [should_free frame_buf]. split; [done|].
        change (buf_mem (ring W (R + p + 1) (<[(R + p)%nat:=x00]> mem)))
          with (<[(R + p)%nat:=x00]> mem).
        replace (Z.of_nat p + 1) with (Z.of_nat (S p)) by lia.
        rewrite mem_read_nat.
        rewrite drop_insert_ge by lia. rewrite take_insert_lt by lia.
        replace (R + p - R)%nat with p by lia.
        by rewrite (insert_take_S _ _ _ _ Hpt).
      * rewrite length_drop in Hge, Hhead.
        rewrite decide_True by lia.
        pose proof Hhead as (Hk & _ & _)%list_find_Some.
        apply lookup_take_Some in Hk as [Hk HkW].
        rewrite (extract_head W R mem T (p - (length mem - R)))
          in Hex by (done || lia).
        by injection Hex as <- _.
    + rewrite decide_False by lia.
      rewrite readable_nowrap in Hfind by (unfold INT_MAX in *; lia).
      pose proof Hfind as (Hpt & _ & _)%list_find_Some.
      apply lookup_take_Some in Hpt as [Hpt HpW].
      rewrite (extract_nowrap W R mem T p) in Hex by (done || lia).
      injection Hex as <- <-. cbn [should_free frame_buf]. split; [done|].
      assert (buf_mem (if decide (R + p + 1 = W)%nat
                       then ring 0 0 (<[(R + p)%nat:=x00]> mem)
                       else ring W (R + p + 1) (<[(R + p)%nat:=x00]> mem))
              = <[(R + p)%nat:=x00]> mem) as -> by (by destruct (decide _)).
      replace (Z.of_nat p + 1) with (Z.of_nat (S p)) by lia.
      rewrite mem_read_nat.
      rewrite drop_insert_ge by lia. rewrite take_insert_lt by lia.
      replace (R + p - R)%nat with p by lia.
      by rewrite (insert_take_S _ _ _ _ Hpt).
Qed.

(** [*should_free] tells whether the frame is a copy: it is 1 exactly
    when the frame runs past the end of the buffer (the ring has wrapped
    and the first terminator lies in the part at the start of the
    buffer).  Otherwise it is 0 and the frame is a view into the ring: the
    bytes from the old read cursor on, the terminator overwritten by the
    null byte in place.  The ring keeps its size and stays well formed. *)
Theorem extract_to_terminator_copies_only_wrapped_frames :
  ∀ conn T (p : nat),
    let r := read_cursor (input conn) in
    let tail := buf_size (input conn) - r in
    ring_ok (input conn) →
    readable (input conn) !! p = Some T →
    T ∉ take p (readable (input conn)) →
    ∃ out conn',
      extract_to_terminator conn T = (0, Some out, conn')
      ∧ ring_ok (input conn')
      ∧ buf_size (input conn') = buf_size (input conn)
      ∧ if decide (write_cursor (input conn) < r ∧ tail ≤ Z.of_nat p)
        then should_free out = 1
        else should_free out = 0
             ∧ mem_read (buf_mem (input conn')) r (buf_len out)
               = frame_buf out.
Proof.
  intros conn T p r tail Hok Hp Hpre. subst r tail.
  destruct (ring_ok_ring _ Hok) as (W & R & mem & Hring & HR & HW & HL0 & HL).
  rewrite Hring in *.
  destruct (extract_found_whole W R mem T p HR HW HL0 HL Hp Hpre)
    as (out & inp' & Hex & Hlen & Hbuf & Hrest & Hok' & Hsize & Hfree).
  exists out, (set_input inp' conn).
  unfold extract_to_terminator. rewrite Hring, Hex.
  cbn [input set_input]. split_and!; try done.
  change (read_cursor (ring W R mem)) with (Z.of_nat R).
  change (write_cursor (ring W R mem)) with (Z.of_nat W).
  change (buf_size (ring W R mem)) with (Z.of_nat (length mem)).
  rewrite Hlen.
  destruct (decide (W < R ∧ length mem - R ≤ p)%nat) as [Hwrap|Hflat].
  - rewrite decide_True by lia. done.
  - rewrite decide_False by lia. done.
Qed.

Lemma extract_to_terminator_copies_only_wrapped_frames_witness :
  (ring_ok (input wrapped_conn)
   ∧ readable (input wrapped_conn) !! 4%nat = Some x0a
   ∧ x0a ∉ take 4 (readable (input wrapped_conn)))
  ∧ ∃ out conn',
      extract_to_terminator wrapped_conn x0a = (0, Some out, conn')
      ∧ buf_size (input conn') = 4096
      ∧ should_free out = 1.
Proof.
  assert (ring_ok (input wrapped_conn)) as Hok.
  { eexists. split; [reflexivity|]. vm_compute. intuition congruence. }
  assert (readable (input wrapped_conn) !! 4%nat = Some x0a) as Hp
    by (vm_compute; reflexivity).
  assert (x0a ∉ take 4 (readable (input wrapped_conn))) as Hpre.
  { apply (bool_decide_unpack _). vm_compute. exact I. }
  split; [done|].
  destruct (extract_to_terminator_copies_only_wrapped_frames wrapped_conn x0a
              4 Hok Hp Hpre) as (out & conn' & Hex & _ & Hsize & Hfree).
  exists out, conn'. split; [exact Hex|]. split; [exact Hsize|exact Hfree].
Defined.


Lemma extract_to_terminator_found conn T (p : nat) :
  ring_ok (input conn) →
  readable (input conn) !! p = Some T →
  T ∉ take p (readable (input conn)) →
  ∃ out inp',
    extract_to_terminator conn T = (0, Some out, set_input inp' conn)
    ∧ buf_len out = Z.of_nat p + 1
    ∧ frame_buf out = take p (readable (input conn)) ++ [x00]
    ∧ readable inp' = drop (S p) (readable (input conn))
    ∧ ring_ok inp'.
Proof.
  intros Hok Hp Hpre.
  destruct (ring_ok_ring _ Hok) as (W & R & mem & Hring & HR & HW & HL0 & HL).
  rewrite Hring in *.
  destruct (extract_found_whole W R mem T p HR HW HL0 HL Hp Hpre)
    as (out & inp' & Hex & Hlen & Hbuf & Hrest & Hok' & _).
  exists out, inp'. unfold extract_to_terminator. by rewrite Hring, Hex.
Qed.

Lemma extract_to_terminator_not_found conn T :
  ring_ok (input conn) →
  T ∉ readable (input conn) →
  ∃ inp',
    extract_to_terminator conn T = (-1, None, set_input inp' conn)
    ∧ readable inp' = readable (input conn)
    ∧ ring_ok inp'.
Proof.
  intros Hok Habs.
  destruct (ring_ok_ring _ Hok) as (W & R & mem & Hring & HR & HW & HL0 & HL).
  rewrite Hring in *.
  pose proof (extract_none W R mem T HR HW HL Habs) as Hex.
  eexists. unfold extract_to_terminator. rewrite Hring, Hex.
  split; [reflexivity|].
  destruct (decide (R = W)) as [->|Hne].
  - split; [|apply ring_ok_intro; lia].
    rewrite !readable_nowrap by (unfold INT_MAX in *; simpl; lia).
    by rewrite (Nat.sub_diag W).
  - done.
Qed.

Lemma extract_frames_lines T lines :
  ∀ conn rest,
    ring_ok (input conn) →
    readable (input conn) = concat ((λ l, l ++ [T]) <$> lines) ++ rest →
    Forall (λ l, T ∉ l) lines →
    T ∉ rest →
    ∃ frames inp',
      extract_frames (S (length lines)) conn T = (frames, set_input inp' conn)
      ∧ frame_buf <$> frames = (λ l, l ++ [x00]) <$> lines
      ∧ buf_len <$> frames = (λ l, Z.of_nat (length l) + 1) <$> lines
      ∧ readable inp' = rest
      ∧ ring_ok inp'.
Proof.
  induction lines as [|l lines IH]; intros conn rest Hok Hread Hlines Hrest.
  - simpl in Hread.
    destruct (extract_to_terminator_not_found conn T Hok)
      as (inp' & Hex & Hkeep & Hok'); [by rewrite Hread|].
    exists [], inp'. cbn [extract_frames length]. rewrite Hex.
    split_and!; try done. by rewrite Hkeep.
  - apply Forall_cons_1 in Hlines as [Hl Hlines].
    simpl in Hread. rewrite <- !app_assoc in Hread.
    destruct (extract_to_terminator_found conn T (length l) Hok)
      as (out & inp1 & Hex & Hlen & Hbuf & Hnext & Hok1).
    { rewrite Hread. rewrite lookup_app_r by lia.
      by rewrite Nat.sub_diag. }
    { rewrite Hread. by rewrite take_app_length. }
    rewrite Hread, take_app_length in Hbuf.
    rewrite Hread in Hnext.
    replace (S (length l)) with (length (l ++ [T])) in Hnext
      by (rewrite length_app; simpl; lia).
    rewrite app_assoc, drop_app_length in Hnext.
    destruct (IH (set_input inp1 conn) rest)
      as (frames & inp' & Hrec & Hbufs & Hlens & Hleft & Hok'); [done..|].
    exists (out :: frames), inp'.
    change (extract_frames (S (length (l :: lines))) conn T)
      with (let '(res, out, conn) := extract_to_terminator conn T in
            match out with
            | Some out =>
                let '(frames, conn) :=
                  extract_frames (S (length lines)) conn T in
                (out :: frames, conn)
            | None => ([], conn)
            end).
    rewrite Hex, Hrec. cbn [fmap list_fmap].
    rewrite Hbufs, Hlens, Hbuf, Hlen. done.
Qed.

(** Framing splits the stream at the terminators: when the input ring
    holds complete lines followed by an unterminated rest, calling
    [extract_to_terminator] until it answers -1 hands out the lines one
    by one, in order, each with its terminator replaced by a null byte,
    and leaves exactly the rest in the ring. *)
Theorem extract_to_terminator_splits_the_stream :
  ∀ conn T (lines : list (list byte)) rest,
    ring_ok (input conn) →
    readable (input conn) = concat ((λ l, l ++ [T]) <$> lines) ++ rest →
    Forall (λ l, T ∉ l) lines →
    T ∉ rest →
    ∃ frames conn',
      extract_frames (S (length lines)) conn T = (frames, conn')
      ∧ frame_buf <$> frames = (λ l, l ++ [x00]) <$> lines
      ∧ buf_len <$> frames = (λ l, Z.of_nat (length l) + 1) <$> lines
      ∧ readable (input conn') = rest
      ∧ ring_ok (input conn').
Proof.
  intros conn T lines rest Hok Hread Hlines Hrest.
  destruct (extract_frames_lines T lines conn rest Hok Hread Hlines Hrest)
    as (frames & inp' & Hex & Hbufs & Hlens & Hleft & Hok').
  by exists frames, (set_input inp' conn).
Qed.

Lemma extract_to_terminator_splits_the_stream_witness :
  (ring_ok (input two_lines_conn)
   ∧ readable (input two_lines_conn)
     = concat ((λ l, l ++ [x0a])
                 <$> [["a"; "b"]%byte; ["c"; "d"]%byte])
         ++ ["e"; "f"]%byte
   ∧ Forall (λ l, x0a ∉ l) [["a"; "b"]%byte; ["c"; "d"]%byte]
   ∧ x0a ∉ ["e"; "f"]%byte)
  ∧ ∃ frames conn',
      extract_frames 3 two_lines_conn x0a = (frames, conn')
      ∧ frame_buf <$> frames = [["a"; "b"; x00]%byte; ["c"; "d"; x00]%byte]
      ∧ buf_len <$> frames = [3; 3]
      ∧ readable (input conn') = ["e"; "f"]%byte.
Proof.
  assert (ring_ok (input two_lines_conn)) as Hok.
  { eexists. split; [reflexivity|]. vm_compute. intuition congruence. }
  assert (readable (input two_lines_conn)
          = concat ((λ l, l ++ [x0a])
                      <$> [["a"; "b"]%byte; ["c"; "d"]%byte])
              ++ ["e"; "f"]%byte) as Hread by (vm_compute; reflexivity).
  assert (∀ l : list byte, bool_decide (x0a ∈ l) = false → x0a ∉ l)
    as Habs.
  { intros l Hl Hin. apply bool_decide_eq_false in Hl. by apply Hl. }
  assert (Forall (λ l, x0a ∉ l) [["a"; "b"]%byte; ["c"; "d"]%byte])
    as Hlines by (repeat constructor; apply Habs; vm_compute; reflexivity).
  assert (x0a ∉ ["e"; "f"]%byte) as Hrest
    by (apply Habs; vm_compute; reflexivity).
  split; [done|].
  destruct (extract_to_terminator_splits_the_stream two_lines_conn x0a
              [["a"; "b"]%byte; ["c"; "d"]%byte] ["e"; "f"]%byte
              Hok Hread Hlines Hrest)
    as (frames & conn' & Hex & Hbufs & Hlens & Hleft & _).
  exists frames, conn'. split; [exact Hex|]. split; [exact Hbufs|].
  split; [exact Hlens|exact Hleft].
Defined.

(** The read path end to end: the bytes a [readv] delivers, appended to
    what the input ring held, come out of [extract_to_terminator] as the
    lines they contain, in order, and the unterminated rest stays in the
    ring for the next read. *)
Theorem received_bytes_come_out_as_frames :
  ∀ watch_fd (n : nat) e incoming conn netconf T lines rest,
    let inp := input conn in
    let grows := circbuf_avail_buf inp <? buf_size inp / 2 in
    let size' := if grows then buf_size inp * 8 else buf_size inp in
    ring_strict inp →
    size' ≤ INT_MAX →
    (0 < n ≤ length incoming)%nat →
    Z.of_nat n ≤ size' - 1 - circbuf_used inp →
    readable inp ++ take n incoming
    = concat ((λ l, l ++ [T]) <$> lines) ++ rest →
    Forall (λ l, T ∉ l) lines →
    T ∉ rest →
    ∃ conn1 frames conn2,
      handle_client_data watch_fd (mk_sysret (Z.of_nat n) e) incoming conn
        netconf
      = (0, conn1, emit (SysReadv watch_fd (Z.of_nat n)) netconf)
      ∧ extract_frames (S (length lines)) conn1 T = (frames, conn2)
      ∧ frame_buf <$> frames = (λ l, l ++ [x00]) <$> lines
      ∧ readable (input conn2) = rest.
Proof.
  intros watch_fd n e incoming conn netconf T lines rest inp grows size'
    Hbuf Hsize Hn Hroom Hstream Hlines Hrest.
  destruct (client_data_appended watch_fd n e incoming conn netconf
              Hbuf Hsize Hn Hroom) as (inp1 & Hdata & Hread & Hok & _).
  fold inp in Hread. rewrite Hstream in Hread.
  destruct (extract_frames_lines T lines (set_input inp1 conn) rest)
    as (frames & inp2 & Hex & Hbufs & _ & Hleft & _);
    [apply Hok|done..|].
  by exists (set_input inp1 conn), frames, (set_input inp2 (set_input inp1 conn)).
Qed.

Lemma received_bytes_come_out_as_frames_witness :
  (ring_strict (input fresh_conn)
   ∧ buf_size (input fresh_conn) ≤ INT_MAX
   ∧ (0 < 8 ≤ length ab_cd_ef)%nat
   ∧ 8 ≤ buf_size (input fresh_conn) - 1 - circbuf_used (input fresh_conn)
   ∧ readable (input fresh_conn) ++ take 8 ab_cd_ef
     = concat ((λ l, l ++ [x0a])
                 <$> [["a"; "b"]%byte; ["c"; "d"]%byte])
         ++ ["e"; "f"]%byte
   ∧ Forall (λ l, x0a ∉ l) [["a"; "b"]%byte; ["c"; "d"]%byte]
   ∧ x0a ∉ ["e"; "f"]%byte)
  ∧ ∃ conn1 frames conn2,
      handle_client_data 7 (mk_sysret 8 0) ab_cd_ef fresh_conn fresh_netconf
      = (0, conn1, emit (SysReadv 7 8) fresh_netconf)
      ∧ extract_frames 3 conn1 x0a = (frames, conn2)
      ∧ frame_buf <$> frames = [["a"; "b"; x00]%byte; ["c"; "d"; x00]%byte]
      ∧ readable (input conn2) = ["e"; "f"]%byte.
Proof.
  assert (ring_strict (input fresh_conn)) as Hok.
  { split; [|vm_compute; done].
    eexists. split; [reflexivity|]. vm_compute. intuition congruence. }
  assert (buf_size (input fresh_conn) ≤ INT_MAX) as Hsize
    by (vm_compute; congruence).
  assert (0 < 8 ≤ length ab_cd_ef)%nat as Hn by (vm_compute; lia).
  assert (8 ≤ buf_size (input fresh_conn) - 1
              - circbuf_used (input fresh_conn)) as Hroom
    by (vm_compute; congruence).
  assert (readable (input fresh_conn) ++ take 8 ab_cd_ef
          = concat ((λ l, l ++ [x0a])
                      <$> [["a"; "b"]%byte; ["c"; "d"]%byte])
              ++ ["e"; "f"]%byte) as Hstream by (vm_compute; reflexivity).
  assert (∀ l : list byte, bool_decide (x0a ∈ l) = false → x0a ∉ l)
    as Habs.
  { intros l Hl Hin. apply bool_decide_eq_false in Hl. by apply Hl. }
  assert (Forall (λ l, x0a ∉ l) [["a"; "b"]%byte; ["c"; "d"]%byte])
    as Hlines by (repeat constructor; apply Habs; vm_compute; reflexivity).
  assert (x0a ∉ ["e"; "f"]%byte) as Hrest
    by (apply Habs; vm_compute; reflexivity).
  split; [done|].
  destruct (received_bytes_come_out_as_frames 7 8 0 ab_cd_ef fresh_conn
              fresh_netconf x0a [["a"; "b"]%byte; ["c"; "d"]%byte]
              ["e"; "f"]%byte Hok Hsize Hn Hroom Hstream Hlines Hrest)
    as (conn1 & frames & conn2 & Hdata & Hex & Hbufs & Hleft).
  exists conn1, frames, conn2. split; [exact Hdata|]. split; [exact Hex|].
  split; [exact Hbufs|exact Hleft].
Defined.

(** ** The callbacks of one loop iteration *)

(** [ev_run] over several ready I/O watchers stops every one of them,
    and the user data it leaves names only the last; the command queue is
    as it was, so nothing is queued that would start the others again.
    With no watcher ready the user data is untouched. *)
Theorem ev_run_records_only_the_last_watcher :
  ∀ (ws : list (ev_io_ref * Z)) data netconf,
    let '(data', netconf') :=
      ev_run ((λ w, IoReady w.1 w.2) <$> ws) data netconf in
    trace netconf' = trace netconf ++ ((λ w, EvIoStop w.1) <$> ws)
    ∧ events netconf' = events netconf
    ∧ data' = match list.last ws with
              | Some w => mk_userdata (Some w.1) w.2
              | None => data
              end.
Proof.
  induction ws as [|[w revents] ws IH]; intros data netconf.
  - simpl. by rewrite app_nil_r.
  - cbn [fmap list_fmap ev_run prepare_event fst snd].
    specialize (IH (mk_userdata (Some w) revents)
                  (emit (EvIoStop w) netconf)).
    destruct (ev_run _ _ _) as [data' netconf'].
    destruct IH as (-> & -> & ->). split_and!.
    + simpl. by rewrite <- app_assoc.
    + done.
    + rewrite last_cons. by destruct (list.last ws).
Qed.

(** ** Start-up, registration and shutdown *)

(** [init_networking] succeeds or leaves nothing behind.  It answers 0
    exactly when the event loop could be made and every call that sets up
    the two listeners answered 0; the context it hands out then has
    [should_run] set, an empty command queue, no worker registered, a
    table of 1024 empty slots and both listeners started on the sockets
    it opened.  In every other case it answers 1, hands out no context,
    and has closed every socket it opened and stopped every watcher it
    started. *)
Theorem init_networking_succeeds_or_cleans_up :
  ∀ config k,
    let '(res, netconf_out, log) := init_networking config k in
    if decide (k_default_loop k ≠ 0
               ∧ k_tcp_reuseaddr k = 0 ∧ k_tcp_bind k = 0 ∧ k_tcp_listen k = 0
               ∧ k_udp_reuseaddr k = 0 ∧ k_udp_bind k = 0)
    then
      res = 0
      ∧ netconf_out
        = Some (mk_netconf 1
                  (mk_ev_io (k_tcp_socket k) EV_READ None)
                  (mk_ev_io (k_udp_socket k) EV_READ None)
                  [] 0 (replicate (Z.to_nat (worker_threads config)) 0)
                  1024 (replicate 1024 None) [])
      ∧ open_sockets log [] = [k_tcp_socket k; k_udp_socket k]
      ∧ active_watchers log [] = [tcp_client; udp_client]
      ∧ EvAsyncStart ∈ log
    else
      res = 1 ∧ netconf_out = None
      ∧ open_sockets log [] = []
      ∧ active_watchers log [] = []
      ∧ EvAsyncStart ∉ log.
Proof.
  intros config k. unfold init_networking, setup_tcp_listener,
    setup_udp_listener.
  destruct k as [loop ts tr tb tl us ur ub]. cbn [k_default_loop k_tcp_socket
    k_tcp_reuseaddr k_tcp_bind k_tcp_listen k_udp_socket k_udp_reuseaddr
    k_udp_bind].
  assert (∀ x : Z, filter (λ y, y ≠ x) [x] = []) as Hdel.
  { intros x. cbn. by rewrite decide_False by tauto. }
  assert (∀ x y : Z, filter (λ z, z ≠ x) (filter (λ z, z ≠ y) [x; y]) = [])
    as Hdel2.
  { intros x y. cbn.
    destruct (decide (x ≠ y)); destruct (decide (y ≠ y)); try tauto; cbn;
      rewrite ?decide_False by tauto; done. }
  assert (∀ log : list lifecycle_effect,
    Forall (λ e, e ≠ EvAsyncStart) log → EvAsyncStart ∉ log) as Hnot.
  { intros log Hlog Hin. rewrite Forall_forall in Hlog.
    apply (Hlog EvAsyncStart); [by apply list_elem_of_In|done]. }
  destruct (loop =? 0) eqn:Hloop.
  { rewrite decide_False by lia. split_and!; try done.
    apply Hnot. by repeat constructor. }
  destruct (tr =? 0) eqn:Htr; cbn [negb Z.eqb].
  2:{ rewrite decide_False by lia. split_and!; try done.
      - simpl. apply Hdel.
      - apply Hnot. by repeat constructor. }
  destruct (tb =? 0) eqn:Htb; cbn [negb Z.eqb].
  2:{ rewrite decide_False by lia. split_and!; try done.
      - simpl. apply Hdel.
      - apply Hnot. by repeat constructor. }
  destruct (tl =? 0) eqn:Htl; cbn [negb Z.eqb].
  2:{ rewrite decide_False by lia. split_and!; try done.
      - simpl. apply Hdel.
      - apply Hnot. by repeat constructor. }
  destruct (ur =? 0) eqn:Hur; cbn [negb Z.eqb].
  2:{ rewrite decide_False by lia. split_and!; try done.
      - simpl. apply Hdel2.
      - apply Hnot. by repeat constructor. }
  destruct (ub =? 0) eqn:Hub; cbn [negb Z.eqb].
  2:{ rewrite decide_False by lia. split_and!; try done.
      - simpl. apply Hdel2.
      - apply Hnot. by repeat constructor. }
  rewrite decide_True by lia. split_and!; try done.
  simpl. rewrite !elem_of_cons. tauto.
Qed.

Lemma join_threads_take n :
  ∀ (i : nat) netconf,
    join_threads n (Z.of_nat i) netconf
    = PthreadJoin <$> filter (λ t, t ≠ 0) (take n (drop i (threads netconf))).
Proof.
  induction n as [|n IH]; intros i netconf; [done|].
  cbn [join_threads]. rewrite Nat2Z.id.
  replace (Z.of_nat i + 1) with (Z.of_nat (S i)) by lia. rewrite IH.
  destruct (threads netconf !! i) as [t|] eqn:Ht.
  - rewrite (drop_S _ _ _ Ht). cbn [take default from_option id].
    rewrite filter_cons. destruct (decide (t ≠ 0)) as [Hne|Heq].
    + by assert ((t =? 0) = false) as -> by lia.
    + by assert ((t =? 0) = true) as -> by lia.
  - rewrite (drop_ge _ i) by (by apply lookup_ge_None).
    rewrite (drop_ge _ (S i)) by (apply lookup_ge_None in Ht; lia).
    by rewrite !take_nil.
Qed.

Lemma joined_threads_app l1 l2 :
  joined_threads (l1 ++ l2) = joined_threads l1 ++ joined_threads l2.
Proof. apply omap_app. Qed.

Lemma closed_descriptors_app l1 l2 :
  closed_descriptors (l1 ++ l2)
  = closed_descriptors l1 ++ closed_descriptors l2.
Proof. apply omap_app. Qed.

Lemma joined_threads_core tr : joined_threads (Core <$> tr) = [].
Proof. induction tr as [|e tr IH]; [done|]. by cbn. Qed.

Lemma joined_threads_joins ts : joined_threads (PthreadJoin <$> ts) = ts.
Proof. induction ts as [|t ts IH]; [done|]. cbn. by f_equal. Qed.

Lemma closed_descriptors_joins ts :
  closed_descriptors (PthreadJoin <$> ts) = [].
Proof. induction ts as [|t ts IH]; [done|]. by cbn. Qed.

Lemma shutdown_conns_closes slots :
  joined_threads (shutdown_conns slots) = []
  ∧ closed_descriptors (shutdown_conns slots)
    = (λ conn, fd (client conn))
        <$> filter (λ conn, should_schedule conn ≠ 0) (omap id slots).
Proof.
  induction slots as [|[conn|] slots [IHj IHc]]; [done| |done].
  cbn [shutdown_conns]. unfold shutdown_conn. cbn [fst].
  rewrite joined_threads_app, closed_descriptors_app, IHj, IHc.
  assert (omap id (Some conn :: slots) = conn :: omap id slots) as -> by done.
  rewrite filter_cons.
  destruct (decide (should_schedule conn ≠ 0)) as [Hne|Heq].
  - by assert ((should_schedule conn =? 0) = false) as -> by lia.
  - by assert ((should_schedule conn =? 0) = true) as -> by lia.
Qed.


Lemma handle_async_events_threads l :
  ∀ netconf,
    threads (handle_async_events l netconf) = threads netconf
    ∧ num_threads (handle_async_events l netconf) = num_threads netconf.
Proof.
  induction l as [|[[] [w|]] l IH]; intros netconf; simpl.
  - done.
  - by destruct (IH (emit EvBreak netconf)) as [-> ->].
  - by destruct (IH (emit EvBreak netconf)) as [-> ->].
  - by destruct (IH (emit (EvIoStart w) netconf)) as [-> ->].
  - apply IH.
Qed.

Lemma ev_run_threads ready :
  ∀ data netconf,
    threads (ev_run ready data netconf).2 = threads netconf
    ∧ num_threads (ev_run ready data netconf).2 = num_threads netconf.
Proof.
  induction ready as [|[w revents|] ready IH]; intros data netconf; [done| |].
  - cbn [ev_run prepare_event].
    by destruct (IH (mk_userdata (Some w) revents)
                   (emit (EvIoStop w) netconf)) as [-> ->].
  - cbn [ev_run].
    destruct (IH data (handle_async_event netconf)) as [-> ->].
    unfold handle_async_event. cbn [threads num_threads emit set_events].
    by destruct (handle_async_events_threads
                   (events (emit (Lock event_lock) netconf))
                   (emit (Lock event_lock) netconf)) as [-> ->].
Qed.

(** Registration and shutdown fit together: the first turn of a worker
    stores its thread in the next free entry of [threads], whether or not
    it then goes on to run the loop, and that adds it to the threads
    [shutdown_networking] joins, behind the workers that registered
    before. *)
Theorem registered_worker_is_joined :
  ∀ self t netconf,
    self ≠ 0 →
    0 ≤ num_threads netconf < Z.of_nat (length (threads netconf)) →
    Z.of_nat (length (threads netconf)) ≤ INT_MAX →
    let '(_, registered, _, netconf') := worker_turn_leader self 0 t netconf in
    registered = 1
    ∧ num_threads netconf' = num_threads netconf + 1
    ∧ joined_threads (shutdown_networking_finish netconf').2
      = joined_threads (shutdown_networking_finish netconf).2 ++ [self].
Proof.
  intros self t netconf Hself Hroom Hmax. unfold INT_MAX in Hmax.
  assert (∀ m, joined_threads (shutdown_networking_finish m).2
          = filter (λ t, t ≠ 0)
              (take (Z.to_nat (num_threads m)) (threads m))) as Hjoined.
  { intros m. unfold shutdown_networking_finish. cbn [snd].
    rewrite !joined_threads_app, joined_threads_core.
    change 0 with (Z.of_nat 0) at 1.
    rewrite join_threads_take, drop_0, joined_threads_joins.
    destruct (shutdown_conns_closes
                (take (Z.to_nat (conn_list_size m)) (conns m))) as [-> _].
    cbn. by rewrite !app_nil_r. }
  assert (∀ m, threads m = threads netconf →
               num_threads m = num_threads netconf →
    let m' := set_threads (to_int (num_threads m + 1))
                (<[Z.to_nat (num_threads m) := self]> (threads m)) m in
    num_threads m' = num_threads netconf + 1
    ∧ filter (λ t, t ≠ 0) (take (Z.to_nat (num_threads m')) (threads m'))
      = filter (λ t, t ≠ 0)
          (take (Z.to_nat (num_threads netconf)) (threads netconf))
          ++ [self]) as Hreg.
  { intros m Ht Hn. cbn [num_threads threads set_threads].
    rewrite Ht, Hn, to_int_small by lia. split; [done|].
    replace (Z.to_nat (num_threads netconf + 1))
      with (S (Z.to_nat (num_threads netconf))) by lia.
    set (n := Z.to_nat (num_threads netconf)).
    assert (n < length (threads netconf))%nat as Hn' by lia.
    erewrite take_S_r by (apply list_lookup_insert_eq; lia).
    rewrite take_insert_ge by lia.
    rewrite list.filter_app, filter_cons, decide_True by done. done. }
  unfold worker_turn_leader. cbn [Z.eqb].
  set (m0 := emit (Lock leader_lock)
               (if shutdown_while_waiting t then set_should_run 0 netconf
                else netconf)).
  assert (threads m0 = threads netconf ∧ num_threads m0 = num_threads netconf)
    as [Ht0 Hn0] by (subst m0; by destruct (shutdown_while_waiting t)).
  destruct (Hreg m0 Ht0 Hn0) as [Hnum Hfilter]. cbv zeta in Hnum, Hfilter.
  set (m1 := set_threads _ _ m0) in *.
  destruct (should_run m1 =? 0).
  - split; [done|]. rewrite !Hjoined. split; [done|]. exact Hfilter.
  - destruct (ev_run (ev_ready t) (mk_userdata None 0) (emit EvRunOnce m1))
      as [data m2] eqn:Hrun.
    pose proof (ev_run_threads (ev_ready t) (mk_userdata None 0)
                  (emit EvRunOnce m1)) as (Ht2 & Hn2).
    rewrite Hrun in Ht2, Hn2. cbn [snd] in Ht2, Hn2.
    split; [done|]. rewrite !Hjoined.
    cbn [num_threads threads emit]. rewrite Ht2, Hn2.
    split; [exact Hnum|exact Hfilter].
Qed.

Lemma registered_worker_is_joined_witness :
  (11 ≠ 0
   ∧ 0 ≤ num_threads fresh_netconf
       < Z.of_nat (length (threads fresh_netconf))
   ∧ Z.of_nat (length (threads fresh_netconf)) ≤ INT_MAX)
  ∧ num_threads (worker_turn_leader 11 0 udp_ready_turn fresh_netconf).2 = 1
  ∧ joined_threads
      (shutdown_networking_finish
         (worker_turn_leader 11 0 udp_ready_turn fresh_netconf).2).2
    = [11].
Proof.
  assert (11 ≠ 0) as H1 by discriminate.
  assert (0 ≤ num_threads fresh_netconf
            < Z.of_nat (length (threads fresh_netconf))) as H2
    by (vm_compute; intuition congruence).
  assert (Z.of_nat (length (threads fresh_netconf)) ≤ INT_MAX) as H3
    by (vm_compute; congruence).
  split; [done|].
  pose proof (registered_worker_is_joined 11 udp_ready_turn fresh_netconf
                H1 H2 H3) as Hreg.
  destruct (worker_turn_leader 11 0 udp_ready_turn fresh_netconf)
    as [[[go_on registered] data] netconf'].
  destruct Hreg as (_ & Hnum & Hjoined). split; [exact Hnum|exact Hjoined].
Defined.
